(** * express-list-endpoints: a shallow embedding of [src/index.js]

    The module under verification walks the routing tree of an Express
    application and flattens it into a list of endpoints.  Most of its
    logic is regular-expression work on the textual form of the compiled
    path matchers, so the development starts with a small backtracking
    matcher for the fragment of ECMAScript regular expressions that the
    source uses, then transcribes the patterns and the functions of
    [index.js] one by one.

    Strings are lists of 8-bit characters; only the ASCII range carries
    meaning ([toUpperCase] leaves every other code unchanged).  The
    functions that read or write mutable state, or may throw, live in a
    state-and-exception monad. *)

From Stdlib Require Import Ascii String.
From stdpp Require Import base option list strings.

Abbreviation jsstring := (list ascii).

(** A string literal of the source, as a list of characters. *)
Definition js (s : string) : jsstring := list_ascii_of_string s.

(** ** Regular expressions *)

Module RegExp.

Inductive class_item : Type :=
| CChar (c : ascii)            (* a plain or escaped character *)
| CRange (lo hi : ascii)       (* lo-hi *)
| CWord.                       (* \w *)

Inductive regex : Type :=
| Empty
| Char (c : ascii)
| AnyChar                                        (* .      *)
| Class (negated : bool) (items : list class_item) (* [...]  *)
| LineStart                                      (* ^      *)
| Seq (r1 r2 : regex)
| Alt (r1 r2 : regex)                            (* r1|r2  *)
| Star (r : regex)                               (* r*     *)
| Opt (r : regex)                                (* r?     *)
| Group (n : nat) (r : regex).                   (* (r), the n-th capture *)

(** [r+] is one mandatory iteration followed by [r*]. *)
Definition Plus (r : regex) : regex := Seq r (Star r).

Definition code (c : ascii) : N := N_of_ascii c.

Definition in_range (lo hi c : ascii) : bool :=
  (code lo <=? code c)%N && (code c <=? code hi)%N.

(** [\w] is [[A-Za-z0-9_]]. *)
Definition is_word (c : ascii) : bool :=
  in_range "a" "z" c || in_range "A" "Z" c || in_range "0" "9" c
  || bool_decide (c = "_"%char).

(** [.] without the [s] flag rejects the line terminators. *)
Definition is_line_terminator (c : ascii) : bool :=
  bool_decide (c = "010"%char) || bool_decide (c = "013"%char).

Definition item_matches (c : ascii) (it : class_item) : bool :=
  match it with
  | CChar d => bool_decide (c = d)
  | CRange lo hi => in_range lo hi c
  | CWord => is_word c
  end.

Definition class_matches (negated : bool) (items : list class_item)
    (c : ascii) : bool :=
  xorb negated (existsb (item_matches c) items).

(** The matcher state: the index of the subject at which the attempt
    started, how many characters it has consumed since, what is left of
    the subject, and the captures so far (the most recent binding of a
    group comes first).  The current index, the endIndex of the
    language specification, is [origin + consumed]. *)
Record mstate : Type := MState {
  origin : nat;
  consumed : nat;
  remaining : jsstring;
  captures : list (nat * jsstring)
}.

Definition advance (x : mstate) (t : jsstring) : mstate :=
  MState (origin x) (S (consumed x)) t (captures x).

Definition eat (p : ascii -> bool) (k : mstate -> option mstate)
    (x : mstate) : option mstate :=
  match remaining x with
  | c :: t => if p c then k (advance x t) else None
  | [] => None
  end.

Definition capture (n : nat) (from to : mstate) : mstate :=
  MState (origin to) (consumed to) (remaining to)
    ((n, take (consumed to - consumed from) (remaining from)) :: captures to).

Definition or_else {A} (a b : option A) : option A :=
  match a with Some _ => a | None => b end.

(** The loop of a greedy [*]: one more iteration of [step] is tried
    before the continuation [k].  An iteration that consumes nothing is
    rejected, so [fuel], the length of what remains when the loop is
    entered, is never exhausted before the subject is. *)
Fixpoint iterate (step : (mstate -> option mstate) -> mstate -> option mstate)
    (k : mstate -> option mstate) (fuel : nat) (x : mstate)
    {struct fuel} : option mstate :=
  match fuel with
  | 0 => k x
  | S fuel' =>
      or_else
        (step
           (fun y =>
              if bool_decide (consumed x < consumed y)
              then iterate step k fuel' y else None)
           x)
        (k x)
  end.

(** Backtracking matcher in continuation-passing style.  Alternatives are
    tried in the order ECMAScript prescribes: the left branch of [|]
    first, the operand of [?] before skipping it.  Like an iteration of
    [*], an operand of [?] that consumes nothing is rejected. *)
Fixpoint run (r : regex) (k : mstate -> option mstate) (x : mstate)
    {struct r} : option mstate :=
  match r with
  | Empty => k x
  | Char c => eat (fun a => bool_decide (a = c)) k x
  | AnyChar => eat (fun a => negb (is_line_terminator a)) k x
  | Class negated items => eat (class_matches negated items) k x
  | LineStart => if bool_decide (origin x + consumed x = 0) then k x else None
  | Seq r1 r2 => run r1 (run r2 k) x
  | Alt r1 r2 => or_else (run r1 k x) (run r2 k x)
  | Opt r1 =>
      or_else
        (run r1
           (fun y => if bool_decide (consumed x < consumed y) then k y else None)
           x)
        (k x)
  | Group n r1 => run r1 (fun y => k (capture n x y)) x
  | Star r1 => iterate (run r1) k (length (remaining x)) x
  end.

(** A successful match, as [exec] reports it. *)
Record match_result : Type := MatchResult {
  index : nat;                       (* where the match starts *)
  end_index : nat;                   (* where it ends *)
  matched : jsstring;                (* the matched text, result[0] *)
  groups : list (nat * jsstring)
}.

Fixpoint binding (n : nat) (l : list (nat * jsstring)) : option jsstring :=
  match l with
  | [] => None
  | (i, v) :: l' => if bool_decide (i = n) then Some v else binding n l'
  end.

(** result[n]; [None] is [undefined]. *)
Definition group (n : nat) (m : match_result) : option jsstring :=
  binding n (groups m).

Definition match_at (r : regex) (i : nat) (s : jsstring)
    : option match_result :=
  match run r Some (MState i 0 s []) with
  | Some y => Some (MatchResult i (i + consumed y) (take (consumed y) s)
                      (captures y))
  | None => None
  end.

(** Leftmost match starting at index [i] or later; [s] is the subject
    from index [i] on. *)
Fixpoint search (r : regex) (i : nat) (s : jsstring)
    : option match_result :=
  match match_at r i s with
  | Some m => Some m
  | None =>
      match s with
      | [] => None
      | _ :: t => search r (S i) t
      end
  end.

(** [r.exec(s)] and [r.test(s)] for a pattern without the [g] flag. *)
Definition exec (r : regex) (s : jsstring) : option match_result :=
  search r 0 s.

Definition test (r : regex) (s : jsstring) : bool :=
  bool_decide (is_Some (exec r s)).

(** [r.test(s)] for a pattern with the [g] flag: the search starts at
    [lastIndex]; the second component is the new [lastIndex]. *)
Definition test_global (r : regex) (s : jsstring) (lastIndex : nat)
    : bool * nat :=
  if bool_decide (length s < lastIndex) then (false, 0)
  else
    match search r lastIndex (drop lastIndex s) with
    | Some m => (true, end_index m)
    | None => (false, 0)
    end.

(** [s.replace(r, f)] for a pattern without the [g] flag: the leftmost
    match is replaced by what [f] returns, and a subject without a
    match is returned as it is. *)
Definition replace_first (r : regex) (f : match_result -> jsstring)
    (s : jsstring) : jsstring :=
  match exec r s with
  | Some m => take (index m) s ++ f m ++ drop (end_index m) s
  | None => s
  end.

(** [s.replace(r, f)] for a pattern with the [g] flag: every match, left
    to right, each search resuming where the previous match ended (one
    character further after an empty match).  [i] is the index of [s]
    in the whole subject. *)
Fixpoint replace_from (fuel : nat) (r : regex)
    (f : match_result -> jsstring) (i : nat) (s : jsstring) : jsstring :=
  match fuel with
  | 0 => s
  | S fuel' =>
      match search r i s with
      | None => s
      | Some m =>
          let before := take (index m - i) s in
          let after := drop (end_index m - i) s in
          if bool_decide (end_index m = index m) then
            match after with
            | [] => before ++ f m
            | c :: t =>
                before ++ f m ++ c :: replace_from fuel' r f (S (end_index m)) t
            end
          else before ++ f m ++ replace_from fuel' r f (end_index m) after
      end
  end.

Definition replace_all (r : regex) (f : match_result -> jsstring)
    (s : jsstring) : jsstring :=
  replace_from (S (length s)) r f 0 s.

(** The concatenation of the tokens of a pattern, in source order. *)
Definition cat (rs : list regex) : regex := foldr Seq Empty rs.

End RegExp.

Import RegExp.

(** ** The patterns of [index.js], token by token *)

(** The class "[\w\\.-]": a word character, a backslash, a dot or a hyphen. *)
Definition segment_class : regex :=
  Class false [CWord; CChar "\"; CChar "."; CChar "-"].

(** "[^)]+" *)
Definition not_paren_plus : regex := Plus (Class true [CChar ")"]).

(** [regExpToParseExpressPathRegExp], line 23 of [index.js].  With blanks
    between its tokens the source literal reads
    "^ \/ \^ \\? \/? (?: ( :? [\w\\.-]* (?: \\ \/ :? [\w\\.-]* )* ) | ( \( \? : \\? \/? \( [^)]+ \) \) ) ) \\ \/ .*" *)
Definition regExpToParseExpressPathRegExp : regex :=
  cat [ LineStart; Char "/"; Char "^"; Opt (Char "\"); Opt (Char "/");
        Alt
          (Group 1
             (cat [ Opt (Char ":"); Star segment_class;
                    Star (cat [ Char "\"; Char "/"; Opt (Char ":");
                                Star segment_class ]) ]))
          (Group 2
             (cat [ Char "("; Char "?"; Char ":"; Opt (Char "\");
                    Opt (Char "/"); Char "("; not_paren_plus;
                    Char ")"; Char ")" ]));
        Char "\"; Char "/"; Star AnyChar ].

(** Source literal: "/\(\?:\\?\/?\([^)]+\)\)/" *)
Definition regExpToReplaceExpressPathRegExpParams : regex :=
  cat [ Char "("; Char "?"; Char ":"; Opt (Char "\"); Opt (Char "/");
        Char "("; not_paren_plus; Char ")"; Char ")" ].

(** Source literal: "/\(\?:\\?\\?\/?\([^)]+\)\)/g" *)
Definition regexpExpressParamRegexp : regex :=
  cat [ Char "("; Char "?"; Char ":"; Opt (Char "\"); Opt (Char "\");
        Opt (Char "/"); Char "("; not_paren_plus; Char ")"; Char ")" ].

(** Source literal: "/(:[^)]+)\([^)]+\)/g" *)
Definition regexpExpressPathParamRegexp : regex :=
  cat [ Group 1 (cat [ Char ":"; not_paren_plus ]);
        Char "("; not_paren_plus; Char ")" ].

(** Source literal: "/\\\//g", the pattern of the last [replace] of [parseExpressPath]. *)
Definition escapedSlashRegexp : regex := cat [ Char "\"; Char "/" ].

Definition EXPRESS_ROOT_PATH_REGEXP_VALUE : jsstring := js "/^\/?(?=\/|$)/i".

Definition STACK_ITEM_VALID_NAMES : list jsstring :=
  [ js "router"; js "bound dispatch"; js "mounted_app" ].

Definition STACK_ITEM_VALID_NAMES_INCLUDING_MIDDLEWARE_ROUTES : list jsstring :=
  js "<anonymous>" :: STACK_ITEM_VALID_NAMES.

(** ** The data of the routing tree *)

Module Endpoint.
Record t : Type := Make {
  path : jsstring;
  methods : list jsstring;
  middlewares : list jsstring
}.
End Endpoint.
Abbreviation Endpoint := Endpoint.t.

Module Route.
(** [methods] lists the keys of the [methods] object in the order
    [Object.keys] reports them; [path] is a string or an array of
    strings; [stack] gives, for each item, its [handle.name] (empty for
    an unnamed function). *)
Record t : Type := Make {
  methods : list jsstring;
  path : jsstring + list jsstring;
  stack : list jsstring
}.
End Route.
Abbreviation Route := Route.t.

(** A layer of a stack, and the application, router or function a layer
    hands over to.  An absent field is [None].  [regexp] holds the textual
    form of the pattern, [keys] the [name] of each key; the [stack] of the
    [_router] field may itself be absent.  Trees are finite, so no router
    is mounted below itself. *)
Inductive Layer : Type :=
  MkLayer (route : option Route) (name : jsstring) (regexp : option jsstring)
          (path : option jsstring) (keys : list jsstring) (handle : App)
with App : Type :=
  MkApp (stack : option (list Layer)) (_router : option (option (list Layer))).

Module Options.
Record t : Type := Make { includeMiddlewareRoutes : bool }.
End Options.
Abbreviation Options := Options.t.

Definition DEFAULT_OPTIONS : Options := Options.Make true.

(** ** Mutable state and exceptions *)

(** An endpoint object lives in a store and is known by its index there:
    [addEndpoints] pushes the very objects it is given and later assigns
    to their [methods] field.  An array of endpoints is the list of its
    references; no two arrays of the source are ever the same object.
    The only other mutable state of the module is the [lastIndex] of
    [regexpExpressParamRegexp], which carries the [g] flag.

    The source has no reference without an object.  Here an index beyond
    the store reads as an object with empty fields and cannot be written
    to; the statements below say [valid] where that matters. *)
Abbreviation ref := nat.

Record world : Type := World {
  lastIndex : nat;
  store : list Endpoint
}.

Inductive outcome (A : Type) : Type :=
| Returns (a : A)
| Throws.                           (* a TypeError *)
Arguments Returns {A} a.
Arguments Throws {A}.

Definition M (A : Type) : Type := world -> outcome A * world.

#[global] Instance M_ret : MRet M := fun A a w => (Returns a, w).
#[global] Instance M_bind : MBind M := fun A B f m w =>
  match m w with
  | (Returns a, w') => f a w'
  | (Throws, w') => (Throws, w')
  end.

Definition throw {A} : M A := fun w => (Throws, w).

#[global] Instance Endpoint_inhabited : Inhabited Endpoint :=
  populate (Endpoint.Make [] [] []).

(** A new object. *)
Definition alloc (e : Endpoint) : M ref :=
  fun w => (Returns (length (store w)), World (lastIndex w) (store w ++ [e])).

(** Reading an object. *)
Definition deref (r : ref) : M Endpoint :=
  fun w => (Returns (store w !!! r), w).

(** [r.methods = ms] *)
Definition set_methods (r : ref) (ms : list jsstring) : M unit :=
  fun w =>
    let e := store w !!! r in
    (Returns tt,
     World (lastIndex w)
       (<[r := Endpoint.Make (Endpoint.path e) ms (Endpoint.middlewares e)]> (store w))).

(** ** The functions of [index.js] *)

Definition upperChar (c : ascii) : ascii :=
  if in_range "a" "z" c then ascii_of_N (code c - 32) else c.

Definition toUpperCase (s : jsstring) : jsstring := map upperChar s.

Definition getRouteMethods (route : Route) : list jsstring :=
  let methods := Route.methods route in
  let methods := filter (fun method => method <> js "_all") methods in
  let methods := map toUpperCase methods in
  methods.

Definition getRouteMiddlewares (route : Route) : list jsstring :=
  map (fun name => if bool_decide (name = []) then js "anonymous" else name)
      (Route.stack route).

(** [regexpExpressParamRegexp.test] reads and writes [lastIndex]. *)
Definition hasParams (expressPathRegExp : jsstring) : M bool :=
  fun w =>
    let '(found, i) :=
      test_global regexpExpressParamRegexp expressPathRegExp (lastIndex w) in
    (Returns found, World i (store w)).

(** The string form of a captured group, [$1]. *)
Definition dollar (n : nat) (m : match_result) : jsstring :=
  default [] (group n m).

(** The paths a route is registered under. *)
Definition routePaths (route : Route) : list jsstring :=
  match Route.path route with
  | inr paths => paths
  | inl path => [path]
  end.

Definition completePath (basePath path : jsstring) : jsstring :=
  if bool_decide (basePath <> []) && bool_decide (path = js "/")
  then basePath
  else basePath ++ path.

(** The object built for one path of a route. *)
Definition endpointOf (route : Route) (basePath path : jsstring) : Endpoint :=
  Endpoint.Make
    (replace_all regexpExpressPathParamRegexp (dollar 1) (completePath basePath path))
    (getRouteMethods route)
    (getRouteMiddlewares route).

Definition parseExpressRoute (route : Route) (basePath : jsstring)
    : M (list ref) :=
  mapM (fun path => alloc (endpointOf route basePath path)) (routePaths route).

(** The loop of [parseExpressPath]; [params] is what is left of the array
    from [paramIndex] on.  Reading [name] off a missing entry throws. *)
Fixpoint substituteParams (params : list jsstring) (parsedRegExp : jsstring)
    : M jsstring :=
  found ← hasParams parsedRegExp;
  if (found : bool) then
    match params with
    | [] => throw
    | paramName :: params' =>
        let paramId := js ":" ++ paramName in
        substituteParams params'
          (replace_first regExpToReplaceExpressPathRegExpParams
             (fun m =>
                if bool_decide (js "(?:\/" `prefix_of` matched m)
                then js "\/" ++ paramId
                else paramId)
             parsedRegExp)
    end
  else mret parsedRegExp.

Definition parseExpressPath (expressPathRegExp : jsstring)
    (params : list jsstring) : M jsstring :=
  let expressPathRegExpExec :=
    exec regExpToParseExpressPathRegExp expressPathRegExp in
  parsedRegExp ← substituteParams params expressPathRegExp;
  let expressPathRegExpExec :=
    if bool_decide (parsedRegExp <> expressPathRegExp)
    then exec regExpToParseExpressPathRegExp parsedRegExp
    else expressPathRegExpExec in
  match expressPathRegExpExec ≫= group 1 with
  | Some captured => mret (replace_all escapedSlashRegexp (fun _ => js "/") captured)
  | None => throw
  end.

(** [l.forEach] with the variable the loop body reassigns threaded through. *)
Fixpoint forEach {A S : Type} (body : S -> A -> M S) (l : list A) (s : S)
    : M S :=
  match l with
  | [] => mret s
  | x :: l' => s' ← body s x; forEach body l' s'
  end.

(** [currentEndpoints.find((endpoint) => endpoint.path === path)] *)
Definition findByPath (currentEndpoints : list ref) (path : jsstring)
    : M (option ref) :=
  fun w =>
    (Returns
       (find (fun endpoint => bool_decide (Endpoint.path (store w !!! endpoint) = path))
             currentEndpoints),
     w).

(** The body of the [forEach] of [addEndpoints]. *)
Definition addEndpoint (currentEndpoints : list ref) (newEndpoint : ref)
    : M (list ref) :=
  new ← deref newEndpoint;
  existingEndpoint ← findByPath currentEndpoints (Endpoint.path new);
  match existingEndpoint with
  | Some existingEndpoint =>
      existing ← deref existingEndpoint;
      let newMethods :=
        filter (fun method => method ∉ Endpoint.methods existing)
               (Endpoint.methods new) in
      _ ← set_methods existingEndpoint (Endpoint.methods existing ++ newMethods);
      mret currentEndpoints
  | None => mret (currentEndpoints ++ [newEndpoint])
  end.

Definition addEndpoints (currentEndpoints endpointsToAdd : list ref)
    : M (list ref) :=
  forEach addEndpoint endpointsToAdd currentEndpoints.

(** [String(stackItem.regexp)], the subject [test] works on. *)
Definition regexpText (regexp : option jsstring) : jsstring :=
  default (js "undefined") regexp.

(** The value of [newBasePath] in [parseStack], for a layer without a
    route and with a recognised name. *)
Definition newBasePathOf (regexp path : option jsstring) (keys : list jsstring)
    (basePath : jsstring) : M jsstring :=
  let isExpressPathRegexp :=
    test regExpToParseExpressPathRegExp (regexpText regexp) in
  if isExpressPathRegexp then
    parsedPath ← parseExpressPath (regexpText regexp) keys;
    mret (basePath ++ js "/" ++ parsedPath)
  else
    match regexp with
    | Some regexp =>
        if bool_decide (default [] path = [])
           && bool_decide (regexp <> EXPRESS_ROOT_PATH_REGEXP_VALUE)
        then mret (basePath ++ js "/" ++ js " RegExp(" ++ regexp ++ js ") ")
        else mret basePath
    | None => mret basePath
    end.

(** [parseEndpoints] and the body of the [forEach] of [parseStack].  The
    source computes [VALID_NAMES] once for the whole stack; it depends on
    the options alone. *)
Fixpoint parseEndpoints (app : App) (basePath : jsstring)
    (endpoints : list ref) (options : Options) {struct app} : M (list ref) :=
  match app with
  | MkApp stack _router =>
      let walk stack :=
        forEach
          (fun endpoints stackItem =>
             parseStackItem stackItem basePath endpoints options)
          stack endpoints in
      let noStack :=
        if bool_decide (endpoints <> []) then
          placeholder ← alloc (Endpoint.Make basePath [] []);
          addEndpoints endpoints [placeholder]
        else mret endpoints in
      match stack with
      | Some stack => walk stack
      | None =>
          match _router with
          | Some (Some stack) => walk stack
          | _ => noStack
          end
      end
  end
with parseStackItem (stackItem : Layer) (basePath : jsstring)
    (endpoints : list ref) (options : Options) {struct stackItem}
    : M (list ref) :=
  match stackItem with
  | MkLayer route name regexp path keys handle =>
      let VALID_NAMES :=
        if Options.includeMiddlewareRoutes options
        then STACK_ITEM_VALID_NAMES_INCLUDING_MIDDLEWARE_ROUTES
        else STACK_ITEM_VALID_NAMES in
      match route with
      | Some route =>
          newEndpoints ← parseExpressRoute route basePath;
          addEndpoints endpoints newEndpoints
      | None =>
          if bool_decide (name ∈ VALID_NAMES) then
            newBasePath ← newBasePathOf regexp path keys basePath;
            parseEndpoints handle newBasePath endpoints options
          else mret endpoints
      end
  end.

Definition parseStack (stack : list Layer) (basePath : jsstring)
    (endpoints : list ref) (options : Options) : M (list ref) :=
  forEach
    (fun endpoints stackItem => parseStackItem stackItem basePath endpoints options)
    stack endpoints.

(** [options] is [None] when the caller passes none. *)
Definition expressListEndpoints (app : App) (options : option Options)
    : M (list ref) :=
  let mergedOptions := default DEFAULT_OPTIONS options in
  parseEndpoints app [] [] mergedOptions.

(** What a caller sees of an array of endpoint objects. *)
Definition view (w : world) (endpoints : list ref) : list Endpoint :=
  map (fun r => store w !!! r) endpoints.

(** A fresh module: [lastIndex] is 0 and no object exists yet. *)
Definition initial : world := World 0 [].

(** [app.stack || (app._router && app._router.stack)] *)
Definition stackOf (app : App) : option (list Layer) :=
  match app with
  | MkApp (Some stack) _ => Some stack
  | MkApp None (Some _router) => _router
  | MkApp None None => None
  end.

(** ** Path templates and their compiled patterns

    The specification speaks of a path template, of its parameters and of
    the pattern the framework compiles it to.  A template is a sequence of
    segments; its text puts a separator before each of them.  A parameter
    is compiled in one of two ways: with the separator as literal text
    before the capture group (the older encoding, A) or with the escaped
    separator inside the group (the newer one, B). *)

Inductive encoding : Type := EncodingA | EncodingB.

Inductive segment : Type :=
| Lit (text : jsstring)
| Param (enc : encoding) (name : jsstring).

Definition segmentText (seg : segment) : jsstring :=
  match seg with
  | Lit text => text
  | Param _ name => js ":" ++ name
  end.

(** The template as it is written, "/users/:id". *)
Definition templateText (T : list segment) : jsstring :=
  concat (map (fun seg => js "/" ++ segmentText seg) T).

Fixpoint paramsOf (T : list segment) : list jsstring :=
  match T with
  | [] => []
  | Lit _ :: T' => paramsOf T'
  | Param _ name :: T' => name :: paramsOf T'
  end.

Definition fragmentA : jsstring := js "(?:([^\/]+?))".
Definition fragmentB : jsstring := js "(?:\/([^\/]+?))".

Definition compileSegment (seg : segment) : jsstring :=
  match seg with
  | Lit text => js "\/" ++ text
  | Param EncodingA _ => js "\/" ++ fragmentA
  | Param EncodingB _ => fragmentB
  end.

Definition patternEnd : jsstring := js "\/?(?=\/|$)/i".

(** The textual form of the pattern compiled from [T]; for "/users/:id"
    under encoding A it is "/^\/users\/(?:([^\/]+?))\/?(?=\/|$)/i". *)
Definition compile (T : list segment) : jsstring :=
  js "/^" ++ concat (map compileSegment T) ++ patternEnd.

(** The number of matches of a pattern in a subject, left to right and
    without overlap. *)
Fixpoint count_from (fuel : nat) (r : regex) (i : nat) (s : jsstring) : nat :=
  match fuel with
  | 0 => 0
  | S fuel' =>
      match search r i s with
      | None => 0
      | Some m =>
          S (count_from fuel' r (Nat.max (end_index m) (S (index m)))
               (drop (Nat.max (end_index m) (S (index m)) - i) s))
      end
  end.

Definition countFragments (s : jsstring) : nat :=
  count_from (S (length s)) regExpToReplaceExpressPathRegExpParams 0 s.

(** ** Sample trees *)

Module Samples.

(** [router.get('/foo', handler)] *)
Definition getFoo : Layer :=
  MkLayer (Some (Route.Make [js "get"] (inl (js "/foo")) [js "handler"]))
          (js "bound dispatch") None None [] (MkApp None None).

Definition fooRouter : App := MkApp (Some [getFoo]) None.

(** [app.use(router)]: the router is mounted at the root, so the layer
    carries the pattern Express compiles for "/". *)
Definition rootMount : App :=
  MkApp None
    (Some (Some [ MkLayer None (js "router")
                    (Some EXPRESS_ROOT_PATH_REGEXP_VALUE) None [] fooRouter ])).

(** The same router mounted by a layer without any pattern. *)
Definition bareMount : App :=
  MkApp None
    (Some (Some [ MkLayer None (js "router") None None [] fooRouter ])).

(** "/users/:id" and "/:a/:b", both parameters in the older encoding. *)
Definition usersId : list segment :=
  [ Lit (js "users"); Param EncodingA (js "id") ].

Definition twoParams : list segment :=
  [ Param EncodingA (js "a"); Param EncodingA (js "b") ].


(** "/users/:userId/posts/:postId", the first parameter in the older
    encoding and the second in the newer one. *)
Definition userPosts : list segment :=
  [ Lit (js "users"); Param EncodingA (js "userId");
    Lit (js "posts"); Param EncodingB (js "postId") ].

(** [app.get('/health', check)], [app.post('/health', check)] and the
    router of above mounted at "/users/:id". *)
Definition getHealth : Layer :=
  MkLayer (Some (Route.Make [js "get"] (inl (js "/health")) [js "check"]))
          (js "bound dispatch") None None [] (MkApp None None).

Definition postHealth : Layer :=
  MkLayer (Some (Route.Make [js "post"] (inl (js "/health")) [js "check"]))
          (js "bound dispatch") None None [] (MkApp None None).

Definition healthApp : App :=
  MkApp None
    (Some (Some [ getHealth; postHealth;
                  MkLayer None (js "router") (Some (compile usersId)) None
                          [js "id"] fooRouter ])).

(** What [expressListEndpoints] leaves behind on [healthApp]: the object
    of the second route has been merged into the first and is no longer
    referred to. *)
Definition healthStore : list Endpoint :=
  [ Endpoint.Make (js "/health") [js "GET"; js "POST"] [js "check"];
    Endpoint.Make (js "/health") [js "POST"] [js "check"];
    Endpoint.Make (js "/users/:id/foo") [js "GET"] [js "handler"] ].

(** A route that answers every method and nothing else. *)
Definition allOnly : Route :=
  Route.Make [js "_all"] (inr [js "/a"; js "/b"]) [js ""].

End Samples.

(** ** Vocabulary of the statements *)

(** Every reference of an array denotes an object of the store. *)
Definition valid (w : world) (endpoints : list ref) : Prop :=
  Forall (fun r => r < length (store w)) endpoints.

Definition paths (w : world) (endpoints : list ref) : list jsstring :=
  map Endpoint.path (view w endpoints).

(** What [addEndpoints] leaves in an existing entry that meets a new one. *)
Definition merged (existing new : Endpoint) : Endpoint :=
  Endpoint.Make (Endpoint.path existing)
    (Endpoint.methods existing
       ++ filter (fun method => method ∉ Endpoint.methods existing)
                 (Endpoint.methods new))
    (Endpoint.middlewares existing).

(** The routes of a tree. *)
Fixpoint routesOf (app : App) : list Route :=
  match app with
  | MkApp stack _router =>
      match stack with
      | Some stack => flat_map routesOfLayer stack
      | None =>
          match _router with
          | Some (Some stack) => flat_map routesOfLayer stack
          | _ => []
          end
      end
  end
with routesOfLayer (stackItem : Layer) : list Route :=
  match stackItem with
  | MkLayer route _ _ _ _ handle =>
      match route with
      | Some route => [route]
      | None => routesOf handle
      end
  end.

(** An endpoint is covered by an accumulator when the entry that [find]
    reports for its path already holds all of its methods. *)
Definition covered (acc : list ref) (w : world) (e : ref) : Prop :=
  exists ex,
    find (fun r => bool_decide (Endpoint.path (store w !!! r)
                                = Endpoint.path (store w !!! e))) acc = Some ex
    /\ ex < length (store w)
    /\ Endpoint.methods (store w !!! e) ⊆ Endpoint.methods (store w !!! ex).

(** A key written without capital letters, as the method tables of the
    framework are. *)
Definition lowerCase (s : jsstring) : Prop :=
  Forall (fun c => in_range "A" "Z" c = false) s.

(** The keys of an object are pairwise distinct. *)
Definition methodTableOk (route : Route) : Prop :=
  NoDup (Route.methods route) /\ Forall lowerCase (Route.methods route).



#[global] Instance lowerCase_dec s : Decision (lowerCase s).
Proof. unfold lowerCase. apply _. Defined.

#[global] Instance methodTableOk_dec route : Decision (methodTableOk route).
Proof. unfold methodTableOk. apply _. Defined.

(** [y] is a state the matcher can reach from [x]: same attempt, some
    characters further. *)
Definition reaches (x y : mstate) : Prop :=
  origin y = origin x
  /\ exists l, remaining x = l ++ remaining y
               /\ consumed y = consumed x + length l.

Definition hasRoute (stackItem : Layer) : bool :=
  match stackItem with
  | MkLayer (Some _) _ _ _ _ _ => true
  | MkLayer None _ _ _ _ _ => false
  end.


(** ** Templates the decoder is specified on *)

(** The characters of a literal segment that need no escaping in a
    pattern: word characters and the hyphen.  Parameter names consist of
    word characters. *)
Definition literalChar (c : ascii) : bool :=
  is_word c || bool_decide (c = "-"%char).

Definition plainSegment (seg : segment) : bool :=
  match seg with
  | Lit text => forallb literalChar text
  | Param _ name => forallb is_word name
  end.

(** The compiled segments, and what the loop of [parseExpressPath] is
    meant to turn them into. *)
Definition compiledBody (T : list segment) : jsstring :=
  concat (map compileSegment T).

Definition substituted (T : list segment) : jsstring :=
  concat (map (fun seg => js "\/" ++ segmentText seg) T).

(** The offset, within the compiled segments, at which the first capture
    group opens. *)
Fixpoint fragmentOffset (T : list segment) : option nat :=
  match T with
  | [] => None
  | Lit text :: T' => (fun g => 2 + length text + g) <$> fragmentOffset T'
  | Param EncodingA _ :: _ => Some 2
  | Param EncodingB _ :: _ => Some 0
  end.

(** The search of [hasParams] resumes where its previous match ended, in
    a subject that the replacement has shortened meanwhile.  It still
    meets the next capture group when the name put in place of a group,
    together with the compiled text up to the next group, is at least 12
    characters long. *)
Fixpoint scanOk (T : list segment) : bool :=
  match T with
  | [] => true
  | Lit _ :: T' => scanOk T'
  | Param _ name :: T' =>
      match fragmentOffset T' with
      | Some g => 12 <=? length name + g
      | None => true
      end && scanOk T'
  end.

(** A greedy [*] over a single-character matcher, written by recursion on
    the subject; [iterate] computes the same (lemma [iterate_eat]). *)
Fixpoint eat_star (p : ascii -> bool) (k : mstate -> option mstate)
    (o n : nat) (s : jsstring) (caps : list (nat * jsstring))
    : option mstate :=
  match s with
  | c :: t =>
      if p c
      then or_else (eat_star p k o (S n) t caps) (k (MState o n s caps))
      else k (MState o n s caps)
  | [] => k (MState o n [] caps)
  end.

(** The repeated part of the first group of
    [regExpToParseExpressPathRegExp], and what follows the group. *)
Definition nextSegment : regex :=
  cat [ Char "\"; Char "/"; Opt (Char ":"); Star segment_class ].

Definition afterGroup : regex := cat [ Char "\"; Char "/"; Star AnyChar ].

(** ** Vocabulary of further statements *)

(** The objects of [w'] are those of [w], possibly with further methods
    at the end of their lists. *)
Definition extends (w w' : world) : Prop :=
  length (store w') = length (store w)
  /\ lastIndex w' = lastIndex w
  /\ forall r,
       Endpoint.path (store w' !!! r) = Endpoint.path (store w !!! r)
       /\ Endpoint.middlewares (store w' !!! r) = Endpoint.middlewares (store w !!! r)
       /\ Endpoint.methods (store w !!! r) `prefix_of` Endpoint.methods (store w' !!! r).

(** The accumulator [acc] and the state [w] as a traversal that started
    with [acc0] in [w0] may leave them: references of new objects have
    been appended to the accumulator; an object that existed before has
    its path, its middlewares and at least its methods, and is the same
    as before when the accumulator did not refer to it. *)
Definition grown (acc0 : list ref) (w0 : world) (acc : list ref) (w : world)
    : Prop :=
  length (store w0) <= length (store w)
  /\ (exists added,
        acc = acc0 ++ added
        /\ Forall (fun r => length (store w0) <= r < length (store w)) added)
  /\ (forall r, r < length (store w0) ->
        Endpoint.path (store w !!! r) = Endpoint.path (store w0 !!! r)
        /\ Endpoint.middlewares (store w !!! r) = Endpoint.middlewares (store w0 !!! r)
        /\ Endpoint.methods (store w0 !!! r) `prefix_of` Endpoint.methods (store w !!! r))
  /\ (forall r, r < length (store w0) -> r ∉ acc0 -> store w !!! r = store w0 !!! r).

(** [lastIndex] is back at 0 or where it was. *)
Definition settles (w w' : world) : Prop :=
  lastIndex w' = 0 \/ lastIndex w' = lastIndex w.

(** A computation that returns in every state and leaves [lastIndex] alone. *)
Definition quiet {A} (m : M A) : Prop :=
  forall w, exists a w', m w = (Returns a, w') /\ lastIndex w' = lastIndex w.

(** The tree without the layers that the walker enters only when
    [includeMiddlewareRoutes] is set: those named "<anonymous>" that
    carry no route. *)
Fixpoint withoutMiddleware (app : App) : App :=
  match app with
  | MkApp stack _router =>
      MkApp
        match stack with
        | Some stack => Some (flat_map withoutMiddlewareLayer stack)
        | None => None
        end
        match _router with
        | Some (Some stack) => Some (Some (flat_map withoutMiddlewareLayer stack))
        | _ => _router
        end
  end
with withoutMiddlewareLayer (stackItem : Layer) : list Layer :=
  match stackItem with
  | MkLayer route name regexp path keys handle =>
      match route with
      | Some _ => [stackItem]
      | None =>
          if bool_decide (name = js "<anonymous>") then []
          else [MkLayer route name regexp path keys (withoutMiddleware handle)]
      end
  end.

(** No layer without a route, at any depth of the stack the walker reads,
    carries a pattern that [regExpToParseExpressPathRegExp] accepts. *)
Fixpoint decodesNothing (app : App) : bool :=
  match app with
  | MkApp stack _router =>
      match stack with
      | Some stack => forallb decodesNothingLayer stack
      | None =>
          match _router with
          | Some (Some stack) => forallb decodesNothingLayer stack
          | _ => true
          end
      end
  end
with decodesNothingLayer (stackItem : Layer) : bool :=
  match stackItem with
  | MkLayer route name regexp path keys handle =>
      match route with
      | Some _ => true
      | None =>
          negb (test regExpToParseExpressPathRegExp (regexpText regexp))
          && decodesNothing handle
      end
  end.

(** A segment without a parameter. *)
Definition literalSegment (seg : segment) : bool :=
  match seg with
  | Lit text => forallb literalChar text
  | Param _ _ => false
  end.

(** The compiled pattern begins with an escaped separator: the template
    begins with a literal segment or with a parameter in the older
    encoding. *)
Definition escapedStart (T : list segment) : bool :=
  match T with
  | Lit _ :: _ | Param EncodingA _ :: _ => true
  | _ => false
  end.

(** A placeholder with a matcher of its own, as in ":id(\d+)", together
    with the text that precedes it in the path. *)
Module Custom.
Record t : Type := Make {
  before : jsstring;
  name : jsstring;
  matcher : jsstring
}.
End Custom.

Definition noParen (s : jsstring) : bool :=
  forallb (fun c => negb (bool_decide (c = "("%char) || bool_decide (c = ")"%char))) s.

Definition customOk (p : Custom.t) : bool :=
  forallb (fun c => negb (bool_decide (c = ":"%char))) (Custom.before p)
  && negb (bool_decide (Custom.name p = [])) && noParen (Custom.name p)
  && negb (bool_decide (Custom.matcher p = [])) && noParen (Custom.matcher p).

(** A path as a route declares it: placeholders with matchers, each after
    some text, and a rest without an opening parenthesis. *)
Definition declaredPath (d : list Custom.t * jsstring) : jsstring :=
  concat (map (fun p => Custom.before p ++ js ":" ++ Custom.name p
                          ++ js "(" ++ Custom.matcher p ++ js ")") d.1)
  ++ d.2.

(** The same path without the matchers. *)
Definition listedPath (d : list Custom.t * jsstring) : jsstring :=
  concat (map (fun p => Custom.before p ++ js ":" ++ Custom.name p) d.1) ++ d.2.

Definition declaredOk (d : list Custom.t * jsstring) : bool :=
  forallb customOk d.1 && forallb (fun c => negb (bool_decide (c = "("%char))) d.2.

(** What follows the group in [regexpExpressPathParamRegexp]. *)
Definition matcherPart : regex :=
  Seq (Char "(") (Seq not_paren_plus (Seq (Char ")") Empty)).

(** ** The listing on values

    The same traversal on endpoint values instead of endpoint objects:
    the accumulator is a list of endpoints, and merging replaces the
    entry that has the path of the new endpoint. *)

Fixpoint mergeInto (acc : list Endpoint) (new : Endpoint) : list Endpoint :=
  match acc with
  | [] => [new]
  | existing :: acc' =>
      if bool_decide (Endpoint.path existing = Endpoint.path new)
      then merged existing new :: acc'
      else existing :: mergeInto acc' new
  end.

Fixpoint listFrom (app : App) (basePath : jsstring) (endpoints : list Endpoint)
    (options : Options) {struct app} : M (list Endpoint) :=
  match app with
  | MkApp stack _router =>
      let walk stack :=
        forEach
          (fun endpoints stackItem =>
             listFromLayer stackItem basePath endpoints options)
          stack endpoints in
      let noStack :=
        mret (if bool_decide (endpoints <> [])
              then mergeInto endpoints (Endpoint.Make basePath [] [])
              else endpoints) in
      match stack with
      | Some stack => walk stack
      | None =>
          match _router with
          | Some (Some stack) => walk stack
          | _ => noStack
          end
      end
  end
with listFromLayer (stackItem : Layer) (basePath : jsstring)
    (endpoints : list Endpoint) (options : Options) {struct stackItem}
    : M (list Endpoint) :=
  match stackItem with
  | MkLayer route name regexp path keys handle =>
      let VALID_NAMES :=
        if Options.includeMiddlewareRoutes options
        then STACK_ITEM_VALID_NAMES_INCLUDING_MIDDLEWARE_ROUTES
        else STACK_ITEM_VALID_NAMES in
      match route with
      | Some route =>
          mret (foldl mergeInto endpoints
                  (map (endpointOf route basePath) (routePaths route)))
      | None =>
          if bool_decide (name ∈ VALID_NAMES) then
            newBasePath ← newBasePathOf regexp path keys basePath;
            listFrom handle newBasePath endpoints options
          else mret endpoints
      end
  end.

Definition listValues (app : App) (options : option Options)
    : M (list Endpoint) :=
  listFrom app [] [] (default DEFAULT_OPTIONS options).

(** The outcome [r] of a traversal on objects is the outcome [v] of the
    traversal on values, which ran with the store [st] and left it alone. *)
Definition refines (r : outcome (list ref) * world)
    (v : outcome (list Endpoint) * world) (st : list Endpoint) : Prop :=
  match r with
  | (Returns acc, w) =>
      v = (Returns (view w acc), World (lastIndex w) st)
      /\ valid w acc /\ NoDup acc
  | (Throws, w) => v = (Throws, World (lastIndex w) st)
  end.

(** The outcome [r] with the store [st] in place of its own. *)
Definition restore {A} (st : list Endpoint) (r : outcome A * world)
    : outcome A * world :=
  (r.1, World (lastIndex r.2) st).

(** The endpoints of the routes of a stack under a base path, before
    any merge: one for each path of each route, in order. *)
Definition endpointsUnder (basePath : jsstring) (routes : list Route)
    : list Endpoint :=
  flat_map
    (fun route =>
       map (fun p => Endpoint.Make (completePath basePath p)
                       (getRouteMethods route) (getRouteMiddlewares route))
           (routePaths route))
    routes.

(** ** Further samples *)

Module Cases.

(** [router.get('/:id(\\d+)/comments/:cid([a-f]+)', show)] *)
Definition commentsRoute : Route :=
  Route.Make [js "get"] (inl (js "/:id(\d+)/comments/:cid([a-f]+)")) [js "show"].

(** Its path under the base path "/posts", taken apart. *)
Definition commentsPath : list Custom.t * jsstring :=
  ([ Custom.Make (js "/posts/") (js "id") (js "\d+");
     Custom.Make (js "/comments/") (js "cid") (js "[a-f]+") ],
   []).

(** "/api/v1" *)
Definition apiV1 : list segment := [ Lit (js "api"); Lit (js "v1") ].

(** The object [Samples.fooRouter] adds under the base path "/api". *)
Definition apiFoo : Endpoint :=
  Endpoint.Make (js "/api/foo") [js "GET"] [js "handler"].

(** [app.get('/foo', handler)] and [app.get('/health', check)] *)
Definition flatStack : list Layer := [ Samples.getFoo; Samples.getHealth ].

End Cases.

(** * Properties *)

(** ** The bound of the loop of the matcher *)

Lemma reaches_refl x : reaches x x.
Proof. split; [reflexivity|]. exists []. split; [reflexivity|simpl; lia]. Qed.

Lemma reaches_trans x y z : reaches x y -> reaches y z -> reaches x z.
Proof.
  intros [Ho (l & Hl & Hc)] [Ho' (l' & Hl' & Hc')].
  split; [congruence|]. exists (l ++ l'). split.
  - now rewrite Hl, Hl', app_assoc.
  - rewrite length_app. lia.
Qed.

Lemma reaches_advance x c t : remaining x = c :: t -> reaches x (advance x t).
Proof.
  intros H. split; [reflexivity|]. exists [c]. split; [exact H|simpl; lia].
Qed.

Lemma reaches_capture n x y : reaches x y -> reaches x (capture n x y).
Proof. intros H. exact H. Qed.

Lemma eat_ext p k k' x :
  (forall y, reaches x y -> k y = k' y) -> eat p k x = eat p k' x.
Proof.
  intros H. unfold eat. destruct (remaining x) as [|c t] eqn:E; [reflexivity|].
  destruct (p c); [|reflexivity]. apply H. now apply (reaches_advance x c t).
Qed.

Lemma iterate_ext step k k' :
  (forall k1 k2 x, (forall y, reaches x y -> k1 y = k2 y) -> step k1 x = step k2 x) ->
  forall fuel x,
    (forall y, reaches x y -> k y = k' y) ->
    iterate step k fuel x = iterate step k' fuel x.
Proof.
  intros Hstep. induction fuel as [|fuel IH]; intros x H; cbn [iterate].
  - apply H, reaches_refl.
  - rewrite (H x (reaches_refl x)). f_equal.
    apply Hstep. intros y Hy. destruct (bool_decide _); [|reflexivity].
    apply IH. intros z Hz. apply H. eapply reaches_trans; eassumption.
Qed.

(** The matcher consults its continuation on reachable states only. *)
Lemma run_ext r : forall k k' x,
  (forall y, reaches x y -> k y = k' y) -> run r k x = run r k' x.
Proof.
  induction r as [| c | | negated items | | r1 IH1 r2 IH2 | r1 IH1 r2 IH2
                  | r IH | r IH | n r IH]; intros k k' x H; cbn [run].
  - apply H, reaches_refl.
  - now apply eat_ext.
  - now apply eat_ext.
  - now apply eat_ext.
  - destruct (bool_decide _); [apply H, reaches_refl|reflexivity].
  - apply IH1. intros y Hy. apply IH2. intros z Hz.
    apply H. eapply reaches_trans; eassumption.
  - now rewrite (IH1 k k' x H), (IH2 k k' x H).
  - now apply iterate_ext.
  - rewrite (H x (reaches_refl x)). f_equal. apply IH.
    intros y Hy. destruct (bool_decide _); [now apply H|reflexivity].
  - apply IH. intros y Hy. apply H. now apply reaches_capture.
Qed.

Lemma run_fails r : forall x, run r (fun _ => None) x = None.
Proof.
  induction r as [| c | | negated items | | r1 IH1 r2 IH2 | r1 IH1 r2 IH2
                  | r IH | r IH | n r IH]; intros x; cbn [run].
  - reflexivity.
  - unfold eat. destruct (remaining x) as [|a t]; [|destruct (bool_decide _)]; reflexivity.
  - unfold eat. destruct (remaining x) as [|a t]; [|destruct (negb _)]; reflexivity.
  - unfold eat. destruct (remaining x) as [|a t]; [|destruct (class_matches _ _ _)]; reflexivity.
  - now destruct (bool_decide _).
  - rewrite (run_ext r1 _ (fun _ => None)); [apply IH1|]. intros y _. apply IH2.
  - now rewrite IH1, IH2.
  - generalize (length (remaining x)) as fuel. intros fuel. revert x.
    induction fuel as [|fuel IHf]; intros x; cbn [iterate]; [reflexivity|].
    rewrite (run_ext r _ (fun _ => None)); [now rewrite IH|].
    intros y _. destruct (bool_decide _); [apply IHf|reflexivity].
  - rewrite (run_ext r _ (fun _ => None)); [now rewrite IH|].
    intros y _. now destruct (bool_decide _).
  - apply IH.
Qed.

Lemma run_none r k x :
  (forall y, reaches x y -> k y = None) -> run r k x = None.
Proof.
  intros H. rewrite (run_ext r k (fun _ => None)) by exact H. apply run_fails.
Qed.

(** An iteration that starts at the end of the subject cannot consume
    anything, so any amount of fuel does there what none does. *)
Lemma iterate_at_end r k fuel x :
  remaining x = [] -> iterate (run r) k fuel x = k x.
Proof.
  intros He. destruct fuel as [|fuel]; cbn [iterate]; [reflexivity|].
  rewrite run_none; [reflexivity|].
  intros y [_ (l & Hl & Hc)]. rewrite He in Hl.
  symmetry in Hl. apply app_eq_nil in Hl as [-> _]. simpl in Hc.
  rewrite bool_decide_eq_false_2 by lia. reflexivity.
Qed.

(** The loop of [*] never runs out of fuel: more than the length of what
    remains changes nothing. *)
Lemma iterate_fuel r k : forall fuel fuel' x,
  length (remaining x) <= fuel -> length (remaining x) <= fuel' ->
  iterate (run r) k fuel x = iterate (run r) k fuel' x.
Proof.
  induction fuel as [|fuel IH]; intros fuel' x Hf Hf'.
  - assert (He : remaining x = []) by (destruct (remaining x); [reflexivity|simpl in Hf; lia]).
    now rewrite !iterate_at_end.
  - destruct fuel' as [|fuel'].
    + assert (He : remaining x = []) by (destruct (remaining x); [reflexivity|simpl in Hf'; lia]).
      now rewrite !iterate_at_end.
    + cbn [iterate]. f_equal. apply run_ext.
      intros y [_ (l & Hl & Hc)]. case_bool_decide as Hp; [|reflexivity].
      assert (length (remaining y) < length (remaining x)).
      { rewrite Hl, length_app. destruct l; simpl in *; lia. }
      apply IH; lia.
Qed.

Lemma star_fuel_suffices r k x fuel :
  length (remaining x) <= fuel ->
  run (Star r) k x = iterate (run r) k fuel x.
Proof. intros H. cbn [run]. now apply iterate_fuel. Qed.

(** ** The monad *)

Lemma bind_returns {A B} (m : M A) (f : A -> M B) w a w' :
  m w = (Returns a, w') -> (m ≫= f) w = f a w'.
Proof. intros H. unfold mbind, M_bind. now rewrite H. Qed.

Lemma bind_throws {A B} (m : M A) (f : A -> M B) w w' :
  m w = (Throws, w') -> (m ≫= f) w = (Throws, w').
Proof. intros H. unfold mbind, M_bind. now rewrite H. Qed.

Lemma parseEndpoints_unfold app basePath endpoints options :
  parseEndpoints app basePath endpoints options =
  match stackOf app with
  | Some stack => parseStack stack basePath endpoints options
  | None =>
      if bool_decide (endpoints <> []) then
        placeholder ← alloc (Endpoint.Make basePath [] []);
        addEndpoints endpoints [placeholder]
      else mret endpoints
  end.
Proof. destruct app as [[s|] [[s'|]|]]; reflexivity. Qed.

(** ** Nodes without a stack *)

(** C7 as stated fails for the empty accumulator: nothing is merged into
    it, and no endpoint object is even created. *)
Lemma no_stack_empty_accumulator :
  parseEndpoints (MkApp None None) (js "/x") [] DEFAULT_OPTIONS initial
  = (Returns [], initial)
  /\ parseEndpoints (MkApp None None) (js "/x") [] DEFAULT_OPTIONS initial
     <> (placeholder ← alloc (Endpoint.Make (js "/x") [] []);
         addEndpoints [] [placeholder]) initial.
Proof. split; [reflexivity | vm_compute; discriminate]. Qed.

(** ** Decoding compiled patterns *)

(** C2 as stated fails on three counts.  The decoded text of
    "/users/:id" is "users/:id", not the template: the leading separator
    is left to the caller.  The pattern of "/:a/:b" decodes to ":a", the
    second parameter being skipped by the search of [hasParams]; this is
    not the template either, with or without its leading separator.  And
    a literal segment with a character outside the class of the
    recogniser, as in "/a~b", is lost: the call returns the empty text. *)
Lemma decode_is_not_the_template :
  parseExpressPath (compile Samples.usersId) (paramsOf Samples.usersId) initial
  = (Returns (js "users/:id"), initial)
  /\ js "users/:id" <> templateText Samples.usersId
  /\ parseExpressPath (compile Samples.twoParams) (paramsOf Samples.twoParams) initial
     = (Returns (js ":a"), initial)
  /\ js ":a" <> templateText Samples.twoParams
  /\ js "/" ++ js ":a" <> templateText Samples.twoParams
  /\ parseExpressPath (compile [Lit (js "a~b")]) [] initial = (Returns [], initial).
Proof. vm_compute. repeat split; (reflexivity || discriminate). Qed.

(** ** The merger, one endpoint at a time *)

Lemma world_eta w : World (lastIndex w) (store w) = w.
Proof. now destruct w. Qed.

Lemma findByPath_Some w acc p ex :
  find (fun r => bool_decide (Endpoint.path (store w !!! r) = p)) acc = Some ex ->
  ex ∈ acc /\ Endpoint.path (store w !!! ex) = p.
Proof.
  intros H. apply find_some in H as [Hin Hp].
  split; [now apply list_elem_of_In | now apply bool_decide_eq_true in Hp].
Qed.

Lemma findByPath_None w acc p :
  find (fun r => bool_decide (Endpoint.path (store w !!! r) = p)) acc = None ->
  p ∉ paths w acc.
Proof.
  intros H Hin. unfold paths, view in Hin. rewrite map_map in Hin.
  apply list_elem_of_fmap in Hin as [r [-> Hr]].
  apply list_elem_of_In in Hr.
  pose proof (find_none _ _ H r Hr) as Hn. simpl in Hn.
  now apply bool_decide_eq_false in Hn.
Qed.

(** The two outcomes of [addEndpoint]. *)
Lemma addEndpoint_cases acc r w :
  (find (fun r' => bool_decide (Endpoint.path (store w !!! r')
                                = Endpoint.path (store w !!! r))) acc = None
   /\ addEndpoint acc r w = (Returns (acc ++ [r]), w))
  \/ (exists ex,
        find (fun r' => bool_decide (Endpoint.path (store w !!! r')
                                     = Endpoint.path (store w !!! r))) acc = Some ex
        /\ addEndpoint acc r w =
           (Returns acc,
            World (lastIndex w)
              (<[ex := merged (store w !!! ex) (store w !!! r)]> (store w)))).
Proof.
  unfold addEndpoint, mbind, M_bind, deref, findByPath, set_methods, mret, M_ret.
  simpl.
  destruct (find _ acc) as [ex|] eqn:E; [right | left].
  - exists ex. split; [reflexivity|]. reflexivity.
  - split; reflexivity.
Qed.

Lemma lookup_total_insert_cases (l : list Endpoint) i j e :
  <[i := e]> l !!! j = (if bool_decide (i = j /\ i < length l) then e else l !!! j).
Proof.
  case_bool_decide as H.
  - destruct H as [-> H]. now apply list_lookup_total_insert_eq.
  - destruct (decide (i = j)) as [->|Hne].
    + rewrite list_insert_ge; [reflexivity|]. lia.
    + now apply list_lookup_total_insert_ne.
Qed.

(** A step of the merger never changes a path. *)
Lemma addEndpoint_path acc r w acc' w' :
  addEndpoint acc r w = (Returns acc', w') ->
  forall r', Endpoint.path (store w' !!! r') = Endpoint.path (store w !!! r').
Proof.
  intros H r'.
  destruct (addEndpoint_cases acc r w) as [[_ E] | [ex [_ E]]];
    rewrite E in H; injection H as <- <-; [reflexivity|].
  simpl. rewrite lookup_total_insert_cases.
  case_bool_decide as C; [|reflexivity]. now destruct C as [-> _].
Qed.

Lemma addEndpoint_length acc r w acc' w' :
  addEndpoint acc r w = (Returns acc', w') ->
  length (store w') = length (store w) /\ lastIndex w' = lastIndex w.
Proof.
  intros H.
  destruct (addEndpoint_cases acc r w) as [[_ E] | [ex [_ E]]];
    rewrite E in H; injection H as <- <-; [tauto|].
  simpl. now rewrite length_insert.
Qed.

Lemma addEndpoint_returns acc r w :
  exists acc' w', addEndpoint acc r w = (Returns acc', w').
Proof.
  destruct (addEndpoint_cases acc r w) as [[_ E] | [ex [_ E]]]; eauto.
Qed.

(** [addEndpoints] always returns; a property kept by every step holds of
    its result. *)
Lemma addEndpoints_ind (P : list ref -> world -> Prop) news :
  (forall acc w r acc' w',
      r ∈ news -> P acc w -> addEndpoint acc r w = (Returns acc', w') -> P acc' w') ->
  forall acc w, P acc w ->
  exists acc' w', addEndpoints acc news w = (Returns acc', w') /\ P acc' w'.
Proof.
  unfold addEndpoints.
  induction news as [|r news IH]; intros Hstep acc w HP.
  - exists acc, w. split; [reflexivity | assumption].
  - destruct (addEndpoint_returns acc r w) as (acc1 & w1 & E1).
    destruct (IH (fun acc w r' acc' w' Hin => Hstep acc w r' acc' w' (list_elem_of_further _ _ _ Hin))
                 acc1 w1) as (acc' & w' & E & HP').
    { eapply Hstep; [apply list_elem_of_here | exact HP | exact E1]. }
    exists acc', w'. split; [|assumption].
    simpl. erewrite bind_returns by exact E1. exact E.
Qed.

Lemma paths_ext w w' l :
  (forall r, Endpoint.path (store w' !!! r) = Endpoint.path (store w !!! r)) ->
  paths w' l = paths w l.
Proof.
  intros H. unfold paths, view. rewrite !map_map. apply map_ext. intros r. apply H.
Qed.

Lemma paths_app w l1 l2 : paths w (l1 ++ l2) = paths w l1 ++ paths w l2.
Proof. unfold paths, view. now rewrite !map_app. Qed.

Lemma addEndpoint_distinct acc r w acc' w' :
  NoDup (paths w acc) ->
  addEndpoint acc r w = (Returns acc', w') ->
  NoDup (paths w' acc').
Proof.
  intros Hnd H.
  rewrite (paths_ext w w') by (eapply addEndpoint_path; exact H).
  destruct (addEndpoint_cases acc r w) as [[Hf E] | [ex [_ E]]];
    rewrite E in H; injection H as <- <-; [|assumption].
  rewrite paths_app. apply NoDup_app. split; [assumption|]. split.
  - intros p Hp Hp'. apply list_elem_of_singleton in Hp'. subst p.
    now apply findByPath_None in Hf.
  - apply NoDup_singleton.
Qed.

Lemma addEndpoint_valid acc r w acc' w' :
  valid w acc -> r < length (store w) ->
  addEndpoint acc r w = (Returns acc', w') ->
  valid w' acc'.
Proof.
  intros Hv Hr H. unfold valid.
  destruct (addEndpoint_length _ _ _ _ _ H) as [-> _].
  destruct (addEndpoint_cases acc r w) as [[Hf E] | [ex [_ E]]];
    rewrite E in H; injection H as <- <-; [|assumption].
  apply Forall_app. split; [assumption|]. now apply Forall_singleton.
Qed.

(** Merging keeps the paths of the accumulator pairwise distinct, whatever
    is merged into it. *)
Lemma addEndpoints_distinct news acc w :
  valid w acc -> valid w news -> NoDup (paths w acc) ->
  exists acc' w',
    addEndpoints acc news w = (Returns acc', w')
    /\ valid w' acc' /\ NoDup (paths w' acc')
    /\ length (store w') = length (store w) /\ lastIndex w' = lastIndex w.
Proof.
  intros Hv Hn Hd.
  apply (addEndpoints_ind
           (fun acc' w' => valid w' acc' /\ NoDup (paths w' acc')
                           /\ length (store w') = length (store w)
                           /\ lastIndex w' = lastIndex w)); [|tauto].
  intros acc0 w0 r acc1 w1 Hin (Hv0 & Hd0 & Hl0 & Hi0) E.
  destruct (addEndpoint_length _ _ _ _ _ E) as [Hl1 Hi1].
  split; [|split; [|split; congruence]].
  - eapply addEndpoint_valid; [exact Hv0| |exact E].
    rewrite Hl0. unfold valid in Hn. rewrite Forall_forall in Hn. now apply Hn.
  - eapply addEndpoint_distinct; eassumption.
Qed.

(** ** Induction on routing trees *)

Section TreeInduction.
Variables (P : App -> Prop) (Q : Layer -> Prop).
Hypothesis app_case :
  forall stack _router,
    (forall s, stack = Some s -> Forall Q s) ->
    (forall s, _router = Some (Some s) -> Forall Q s) ->
    P (MkApp stack _router).
Hypothesis layer_case :
  forall route name regexp path keys handle,
    P handle -> Q (MkLayer route name regexp path keys handle).

Lemma App_tree_ind : forall app, P app.
Proof.
  fix IH 1. intros [stack _router].
  assert (HQ : forall l, Q l -> forall s, Forall Q s -> Forall Q (l :: s))
    by (intros; now constructor).
  apply app_case.
  - destruct stack as [s0|]; [|discriminate].
    intros s E. injection E as <-.
    induction s0 as [|[route name regexp path keys handle] s0 IHs];
      [constructor|].
    apply HQ; [|exact IHs]. apply layer_case, IH.
  - destruct _router as [[s0|]|]; [|discriminate|discriminate].
    intros s E. injection E as <-.
    induction s0 as [|[route name regexp path keys handle] s0 IHs];
      [constructor|].
    apply HQ; [|exact IHs]. apply layer_case, IH.
Qed.

Lemma Layer_tree_ind : forall stackItem, Q stackItem.
Proof.
  intros [route name regexp path keys handle].
  apply layer_case, App_tree_ind.
Qed.
End TreeInduction.

(** ** What the walker does to the store *)

Lemma parseExpressRoute_allocates route basePath w :
  parseExpressRoute route basePath w =
  (Returns (seq (length (store w)) (length (routePaths route))),
   World (lastIndex w)
     (store w ++ map (endpointOf route basePath) (routePaths route))).
Proof.
  unfold parseExpressRoute.
  generalize (routePaths route) as ps. intros ps. revert w.
  induction ps as [|p ps IH]; intros w; simpl.
  - unfold mret, M_ret. now rewrite app_nil_r, world_eta.
  - unfold mbind, M_bind, alloc at 1. simpl.
    rewrite IH. simpl. unfold mret, M_ret.
    rewrite length_app, <- app_assoc. simpl.
    now replace (length (store w) + 1) with (S (length (store w))) by lia.
Qed.

Lemma hasParams_store s w : store (hasParams s w).2 = store w.
Proof. unfold hasParams. now destruct (test_global _ _ _). Qed.

Lemma substituteParams_store params s w :
  store (substituteParams params s w).2 = store w.
Proof.
  revert s w. induction params as [|p params IH]; intros s w; simpl;
    unfold mbind, M_bind;
    pose proof (hasParams_store s w) as Hs;
    destruct (hasParams s w) as [[[|]|] w1]; simpl in *; try assumption.
  rewrite IH. assumption.
Qed.

Lemma parseExpressPath_store re params w :
  store (parseExpressPath re params w).2 = store w.
Proof.
  unfold parseExpressPath, mbind, M_bind.
  pose proof (substituteParams_store params re w) as Hs.
  destruct (substituteParams params re w) as [[parsed|] w1]; simpl in *;
    [|assumption].
  match goal with |- context [match ?o with _ => _ end] => now destruct o end.
Qed.

Lemma newBasePathOf_store regexp path keys basePath w :
  store (newBasePathOf regexp path keys basePath w).2 = store w.
Proof.
  unfold newBasePathOf.
  destruct (test _ _).
  - unfold mbind, M_bind.
    pose proof (parseExpressPath_store (regexpText regexp) keys w) as Hs.
    now destruct (parseExpressPath (regexpText regexp) keys w) as [[parsed|] w1].
  - destruct regexp as [regexp|]; [destruct (_ && _)|]; reflexivity.
Qed.

(** A property of the accumulator that survives a change of [lastIndex],
    the merge of the endpoints of a route and the merge of a placeholder
    holds of whatever the walker returns. *)
Section WalkerInvariant.
Variable Inv : list ref -> world -> Prop.
Variable GoodRoute : Route -> Prop.
Hypothesis Inv_lastIndex :
  forall acc w i, Inv acc w -> Inv acc (World i (store w)).
Hypothesis Inv_route :
  forall route basePath acc w acc' w',
    GoodRoute route -> Inv acc w ->
    (newEndpoints ← parseExpressRoute route basePath;
     addEndpoints acc newEndpoints) w = (Returns acc', w') ->
    Inv acc' w'.
Hypothesis Inv_placeholder :
  forall basePath acc w acc' w',
    Inv acc w ->
    (placeholder ← alloc (Endpoint.Make basePath [] []);
     addEndpoints acc [placeholder]) w = (Returns acc', w') ->
    Inv acc' w'.

Let GoodApp (app : App) : Prop :=
  Forall GoodRoute (routesOf app) ->
  forall basePath acc options w acc' w',
    Inv acc w ->
    parseEndpoints app basePath acc options w = (Returns acc', w') ->
    Inv acc' w'.

Let GoodLayer (stackItem : Layer) : Prop :=
  Forall GoodRoute (routesOfLayer stackItem) ->
  forall basePath acc options w acc' w',
    Inv acc w ->
    parseStackItem stackItem basePath acc options w = (Returns acc', w') ->
    Inv acc' w'.

Lemma parseStack_invariant stack :
  Forall GoodLayer stack ->
  Forall GoodRoute (flat_map routesOfLayer stack) ->
  forall basePath acc options w acc' w',
    Inv acc w ->
    parseStack stack basePath acc options w = (Returns acc', w') ->
    Inv acc' w'.
Proof.
  unfold parseStack.
  induction 1 as [|l stack Hl Hs IH]; intros Hr basePath acc options w acc' w' HI E.
  - injection E as <- <-. assumption.
  - simpl in Hr. apply Forall_app in Hr as [Hr1 Hr2].
    simpl in E. unfold mbind, M_bind in E.
    destruct (parseStackItem l basePath acc options w) as [[acc1|] w1] eqn:E1;
      [|discriminate].
    eapply IH; [assumption| |exact E].
    eapply Hl; [assumption|exact HI|exact E1].
Qed.

Lemma walker_invariant_app : forall app, GoodApp app.
Proof.
  apply (App_tree_ind GoodApp GoodLayer).
  - intros stack _router Hstack Hrouter Hr basePath acc options w acc' w' HI E.
    rewrite parseEndpoints_unfold in E.
    destruct stack as [s|]; [|destruct _router as [[s|]|]]; simpl in E, Hr.
    + eapply parseStack_invariant; [apply Hstack; reflexivity|exact Hr|exact HI|exact E].
    + eapply parseStack_invariant; [apply Hrouter; reflexivity|exact Hr|exact HI|exact E].
    + case_bool_decide.
      * eapply Inv_placeholder; eassumption.
      * injection E as <- <-. assumption.
    + case_bool_decide.
      * eapply Inv_placeholder; eassumption.
      * injection E as <- <-. assumption.
  - intros route name regexp path keys handle IH Hr basePath acc options w acc' w' HI E.
    simpl in E, Hr. destruct route as [route|].
    + eapply Inv_route; [|exact HI|exact E].
      now inversion Hr.
    + case_bool_decide; [|injection E as <- <-; assumption].
      unfold mbind, M_bind in E.
      pose proof (newBasePathOf_store regexp path keys basePath w) as Hs.
      destruct (newBasePathOf regexp path keys basePath w) as [[newBasePath|] w1];
        [|discriminate].
      simpl in Hs. eapply IH; [assumption| |exact E].
      rewrite <- (world_eta w1), Hs. apply Inv_lastIndex, HI.
Qed.

Lemma walker_invariant app basePath acc options w acc' w' :
  Forall GoodRoute (routesOf app) ->
  Inv acc w ->
  parseEndpoints app basePath acc options w = (Returns acc', w') ->
  Inv acc' w'.
Proof. intros Hr. now apply walker_invariant_app. Qed.
End WalkerInvariant.

(** ** Pairwise distinct paths *)

Lemma lookup_total_alloc (l es : list Endpoint) r :
  r < length l -> (l ++ es) !!! r = l !!! r.
Proof. intros H. now apply lookup_total_app_l. Qed.

Lemma view_alloc w i es acc :
  valid w acc -> view (World i (store w ++ es)) acc = view w acc.
Proof.
  unfold valid, view. intros H. apply map_ext_in. intros r Hr. simpl.
  rewrite Forall_forall in H. apply lookup_total_alloc, H.
  now apply list_elem_of_In.
Qed.

Lemma valid_alloc w i es acc :
  valid w acc -> valid (World i (store w ++ es)) acc.
Proof.
  unfold valid. simpl. rewrite length_app.
  intros H. eapply Forall_impl; [exact H|]. simpl. intros r Hr. lia.
Qed.

Lemma valid_fresh w i es :
  valid (World i (store w ++ es)) (seq (length (store w)) (length es)).
Proof.
  unfold valid. simpl. rewrite length_app. apply Forall_forall. intros r Hr.
  apply list_elem_of_In, in_seq in Hr. lia.
Qed.

Definition distinct (acc : list ref) (w : world) : Prop :=
  valid w acc /\ NoDup (paths w acc).

Lemma distinct_alloc_merge acc w es acc' w' :
  distinct acc w ->
  addEndpoints acc (seq (length (store w)) (length es))
    (World (lastIndex w) (store w ++ es)) = (Returns acc', w') ->
  distinct acc' w'.
Proof.
  intros [Hv Hd] E.
  destruct (addEndpoints_distinct (seq (length (store w)) (length es)) acc
              (World (lastIndex w) (store w ++ es)))
    as (acc1 & w1 & E1 & Hv1 & Hd1 & _).
  - now apply valid_alloc.
  - apply valid_fresh.
  - unfold paths. now rewrite view_alloc.
  - rewrite E1 in E. injection E as <- <-. now split.
Qed.

Lemma distinct_walk app basePath acc options w acc' w' :
  distinct acc w ->
  parseEndpoints app basePath acc options w = (Returns acc', w') ->
  distinct acc' w'.
Proof.
  apply (walker_invariant distinct (fun _ => True)).
  - intros acc0 w0 i [Hv Hd]. split; [exact Hv|]. exact Hd.
  - intros route bp acc0 w0 acc1 w1 _ HI E.
    erewrite bind_returns in E by apply parseExpressRoute_allocates.
    rewrite <- (length_map (endpointOf route bp)) in E.
    eapply distinct_alloc_merge; eassumption.
  - intros bp acc0 w0 acc1 w1 HI E.
    unfold mbind, M_bind, alloc in E. simpl in E.
    eapply (distinct_alloc_merge acc0 w0 [_]); eassumption.
  - apply Forall_forall. intros; exact I.
Qed.

(** C4.  Whatever the tree and the options, the paths of the endpoints
    that [expressListEndpoints] returns are pairwise distinct; and an
    endpoint whose path the accumulator already lists is merged into the
    entry with that path, the accumulator keeping its entries. *)
Theorem listed_paths_are_distinct app options w endpoints w' :
  expressListEndpoints app options w = (Returns endpoints, w') ->
  NoDup (map Endpoint.path (view w' endpoints))
  /\ (forall acc r w0,
        Endpoint.path (store w0 !!! r) ∈ paths w0 acc ->
        exists ex,
          ex ∈ acc
          /\ Endpoint.path (store w0 !!! ex) = Endpoint.path (store w0 !!! r)
          /\ addEndpoint acc r w0
             = (Returns acc,
                World (lastIndex w0)
                  (<[ex := merged (store w0 !!! ex) (store w0 !!! r)]> (store w0)))).
Proof.
  intros E. split.
  - unfold expressListEndpoints in E.
    apply (distinct_walk app [] [] _ w endpoints w') in E; [apply E|].
    split; [constructor|]. constructor.
  - intros acc r w0 Hin.
    destruct (addEndpoint_cases acc r w0) as [[Hn _] | [ex [Hf E']]].
    + now apply findByPath_None in Hn.
    + destruct (findByPath_Some _ _ _ _ Hf) as [Hex Hp]. now exists ex.
Qed.

(** ** Merging twice *)

Lemma find_app_Some {A} (f : A -> bool) l1 l2 x :
  find f l1 = Some x -> find f (l1 ++ l2) = Some x.
Proof.
  induction l1 as [|a l1 IH]; simpl; [discriminate|].
  destruct (f a); auto.
Qed.

Lemma find_app_None {A} (f : A -> bool) l1 l2 :
  find f l1 = None -> find f (l1 ++ l2) = find f l2.
Proof.
  induction l1 as [|a l1 IH]; simpl; [reflexivity|].
  destruct (f a); [discriminate|auto].
Qed.

Lemma find_ext {A} (f g : A -> bool) l :
  (forall x, f x = g x) -> find f l = find g l.
Proof.
  intros H. induction l as [|a l IH]; simpl; [reflexivity|].
  rewrite H, IH. reflexivity.
Qed.

Lemma merged_methods_incl existing new :
  Endpoint.methods new ⊆ Endpoint.methods (merged existing new).
Proof.
  intros m Hm. simpl. apply elem_of_app.
  destruct (decide (m ∈ Endpoint.methods existing)) as [Hin|Hout]; [now left|].
  right. apply list_elem_of_filter. now split.
Qed.

Lemma merged_methods_grow existing new :
  Endpoint.methods existing ⊆ Endpoint.methods (merged existing new).
Proof. intros m Hm. simpl. apply elem_of_app. now left. Qed.

Lemma merged_covered existing new :
  Endpoint.methods new ⊆ Endpoint.methods existing ->
  merged existing new = existing.
Proof.
  intros H. unfold merged.
  replace (filter _ (Endpoint.methods new)) with (@nil jsstring).
  - rewrite app_nil_r. now destruct existing.
  - symmetry. induction (Endpoint.methods new) as [|m ms IH]; [reflexivity|].
    rewrite filter_cons. destruct (decide (m ∉ Endpoint.methods existing)) as [Hn|_].
    + exfalso. apply Hn, H. left.
    + apply IH. intros x Hx. apply H. now right.
Qed.

(** A covered endpoint stays covered when another one is merged. *)
Lemma covered_step acc w r acc' w' e :
  covered acc w e ->
  addEndpoint acc r w = (Returns acc', w') ->
  covered acc' w' e.
Proof.
  intros (ex & Hf & Hv & Hsub) H.
  destruct (addEndpoint_cases acc r w) as [[Hn E] | [ex0 [Hf0 E]]];
    rewrite E in H; injection H as <- <-.
  - exists ex. split; [now apply find_app_Some|]. now split.
  - exists ex. simpl. split; [|split].
    + rewrite <- Hf. apply find_ext. intros x.
      rewrite !lookup_total_insert_cases.
      repeat case_bool_decide; simpl in *; intuition (subst; congruence).
    + now rewrite length_insert.
    + rewrite !lookup_total_insert_cases.
      destruct (findByPath_Some _ _ _ _ Hf0) as [_ Hp0].
      case_bool_decide as C1; case_bool_decide as C2.
      * reflexivity.
      * destruct C1 as [-> Hlt]. exfalso. apply C2. split; [|assumption].
        rewrite Hp0 in Hf. congruence.
      * etransitivity; [exact Hsub|]. destruct C2 as [-> _].
        apply merged_methods_grow.
      * exact Hsub.
Qed.

(** The endpoint that has just been merged is covered. *)
Lemma covered_new acc w r acc' w' :
  valid w acc -> r < length (store w) ->
  addEndpoint acc r w = (Returns acc', w') ->
  covered acc' w' r.
Proof.
  intros Hv Hr H.
  destruct (addEndpoint_cases acc r w) as [[Hn E] | [ex0 [Hf0 E]]];
    rewrite E in H; injection H as <- <-.
  - exists r. split; [|split; [assumption|reflexivity]].
    rewrite find_app_None by exact Hn. simpl.
    now rewrite bool_decide_eq_true_2.
  - destruct (findByPath_Some _ _ _ _ Hf0) as [Hin Hp0].
    assert (Hlt : ex0 < length (store w)).
    { unfold valid in Hv. rewrite Forall_forall in Hv. now apply Hv. }
    exists ex0. simpl. split; [|split].
    + rewrite <- Hf0. apply find_ext. intros x.
      rewrite !lookup_total_insert_cases.
      repeat case_bool_decide; simpl in *; intuition (subst; congruence).
    + now rewrite length_insert.
    + rewrite !lookup_total_insert_cases.
      rewrite (bool_decide_eq_true_2 (ex0 = ex0 /\ _)) by now split.
      case_bool_decide as C1; [reflexivity|].
      apply merged_methods_incl.
Qed.

Lemma first_merge E : forall acc w,
  valid w acc -> valid w E ->
  exists acc' w',
    addEndpoints acc E w = (Returns acc', w')
    /\ Forall (covered acc' w') E
    /\ (forall e, covered acc w e -> covered acc' w' e).
Proof.
  unfold addEndpoints.
  induction E as [|r E IH]; intros acc w Hv HE.
  - exists acc, w. split; [reflexivity|]. split; [constructor|auto].
  - apply Forall_cons in HE as [Hr HE].
    destruct (addEndpoint_returns acc r w) as (acc1 & w1 & E1).
    destruct (addEndpoint_length _ _ _ _ _ E1) as [Hl1 _].
    destruct (IH acc1 w1) as (acc' & w' & E2 & Hall & Hmono).
    { exact (addEndpoint_valid acc r w acc1 w1 Hv Hr E1). }
    { unfold valid. now rewrite Hl1. }
    exists acc', w'. split; [|split].
    + simpl. erewrite bind_returns by exact E1. exact E2.
    + constructor; [|exact Hall].
      apply Hmono. exact (covered_new acc w r acc1 w1 Hv Hr E1).
    + intros e He. apply Hmono. eapply covered_step; eassumption.
Qed.

Lemma merge_covered acc w e :
  covered acc w e -> addEndpoint acc e w = (Returns acc, w).
Proof.
  intros (ex & Hf & Hv & Hsub).
  destruct (addEndpoint_cases acc e w) as [[Hn E] | [ex0 [Hf0 E]]];
    [congruence|].
  rewrite E. assert (ex0 = ex) as -> by congruence.
  rewrite merged_covered by exact Hsub.
  rewrite list_insert_id by now apply list_lookup_lookup_total_lt.
  now rewrite world_eta.
Qed.

Lemma second_merge E acc w :
  Forall (covered acc w) E -> addEndpoints acc E w = (Returns acc, w).
Proof.
  unfold addEndpoints. induction 1 as [|e E He _ IH]; [reflexivity|].
  simpl. erewrite bind_returns by (apply merge_covered; exact He). exact IH.
Qed.

(** C5.  Merging a list of endpoint objects into an empty accumulator and
    then merging the same objects again leaves the accumulator and every
    object as the first merge left them. *)
Theorem merge_is_idempotent w E :
  valid w E ->
  exists acc w1,
    addEndpoints [] E w = (Returns acc, w1)
    /\ addEndpoints acc E w1 = (Returns acc, w1).
Proof.
  intros HE.
  destruct (first_merge E [] w) as (acc & w1 & E1 & Hall & _);
    [constructor|exact HE|].
  exists acc, w1. split; [exact E1|]. now apply second_merge.
Qed.

(** ** Layers with a route *)

Lemma parseStack_of_routes stack : forall basePath endpoints options options' w,
  forallb hasRoute stack = true ->
  parseStack stack basePath endpoints options w
  = parseStack stack basePath endpoints options' w.
Proof.
  unfold parseStack.
  induction stack as [|[[route|] name regexp path keys handle] stack IH];
    intros basePath endpoints options options' w H; [reflexivity| |discriminate].
  cbn [forEach].
  change (parseStackItem (MkLayer (Some route) name regexp path keys handle)
            basePath endpoints options')
    with (parseStackItem (MkLayer (Some route) name regexp path keys handle)
            basePath endpoints options).
  destruct (parseStackItem (MkLayer (Some route) name regexp path keys handle)
              basePath endpoints options w) as [[acc|] w1] eqn:E.
  - rewrite !(bind_returns _ _ _ _ _ E). now apply IH.
  - now rewrite !(bind_throws _ _ _ _ E).
Qed.

(** C9.  A layer with a route is handed to [parseExpressRoute] and the
    result is merged, whatever its name, its pattern, its handle and the
    options; a stack made of such layers is walked alike under any
    options.  The list of recognised names, the only place where
    [includeMiddlewareRoutes] is read, decides about layers without a
    route alone: those are walked into when their name is listed and
    skipped otherwise. *)
Theorem route_layers_are_always_extracted
    route name regexp path keys handle basePath endpoints options :
  parseStackItem (MkLayer (Some route) name regexp path keys handle)
    basePath endpoints options
  = (newEndpoints ← parseExpressRoute route basePath;
     addEndpoints endpoints newEndpoints)
  /\ (forall name' regexp' path' keys' handle' options',
        parseStackItem (MkLayer (Some route) name regexp path keys handle)
          basePath endpoints options
        = parseStackItem (MkLayer (Some route) name' regexp' path' keys' handle')
            basePath endpoints options')
  /\ (forall stack options' w,
        forallb hasRoute stack = true ->
        parseStack stack basePath endpoints options w
        = parseStack stack basePath endpoints options' w)
  /\ parseStackItem (MkLayer None name regexp path keys handle)
       basePath endpoints options
     = (if bool_decide
             (name ∈ if Options.includeMiddlewareRoutes options
                     then STACK_ITEM_VALID_NAMES_INCLUDING_MIDDLEWARE_ROUTES
                     else STACK_ITEM_VALID_NAMES)
        then newBasePath ← newBasePathOf regexp path keys basePath;
             parseEndpoints handle newBasePath endpoints options
        else mret endpoints).
Proof.
  split; [reflexivity|]. split; [reflexivity|]. split; [|reflexivity].
  intros stack options' w H. now apply parseStack_of_routes.
Qed.

(** ** Nodes without a stack, as the code treats them *)

Lemma placeholder_is_covered existing basePath :
  merged existing (Endpoint.Make basePath [] []) = existing.
Proof. apply merged_covered. intros m Hm. inversion Hm. Qed.

(** C7, amended.  For a node without a stack the walker returns an empty
    accumulator untouched; into an accumulator that is not empty it
    merges one endpoint at the base path, without methods or middlewares:
    the accumulator is left as it is when it already lists that path and
    gets the new endpoint as its last entry otherwise. *)
Theorem no_stack_merges_placeholder app basePath endpoints options w :
  stackOf app = None ->
  valid w endpoints ->
  (endpoints = [] ->
   parseEndpoints app basePath endpoints options w = (Returns [], w))
  /\ (endpoints <> [] ->
      exists endpoints' w',
        parseEndpoints app basePath endpoints options w = (Returns endpoints', w')
        /\ view w' endpoints'
           = if bool_decide (basePath ∈ paths w endpoints)
             then view w endpoints
             else view w endpoints ++ [Endpoint.Make basePath [] []]).
Proof.
  intros Hs Hv. rewrite parseEndpoints_unfold, Hs. split.
  - intros ->. reflexivity.
  - intros Hne. rewrite bool_decide_eq_true_2 by exact Hne.
    unfold mbind, M_bind, alloc. simpl.
    set (ph := Endpoint.Make basePath [] []).
    set (w1 := World (lastIndex w) (store w ++ [ph])).
    assert (Hph : store w1 !!! length (store w) = ph).
    { unfold w1. simpl. now rewrite lookup_total_app_r, Nat.sub_diag by lia. }
    assert (Hview : view w1 endpoints = view w endpoints)
      by (apply view_alloc; exact Hv).
    unfold addEndpoints. simpl. unfold mbind, M_bind.
    destruct (addEndpoint_cases endpoints (length (store w)) w1)
      as [[Hn E] | [ex [Hf E]]]; rewrite E; unfold mret, M_ret.
    + exists (endpoints ++ [length (store w)]), w1. split; [reflexivity|].
      apply findByPath_None in Hn. rewrite Hph in Hn. simpl in Hn.
      unfold paths in Hn. rewrite Hview in Hn.
      rewrite bool_decide_eq_false_2 by exact Hn.
      unfold view at 1. rewrite map_app. fold (view w1 endpoints).
      rewrite Hview. cbn [map]. now rewrite Hph.
    + rewrite Hph.
      rewrite (placeholder_is_covered (store w1 !!! ex) basePath : merged _ ph = _).
      destruct (findByPath_Some _ _ _ _ Hf) as [Hin Hp].
      rewrite list_insert_id.
      * exists endpoints, w1. split; [now rewrite world_eta|].
        rewrite Hview. rewrite bool_decide_eq_true_2; [reflexivity|].
        rewrite Hph in Hp. simpl in Hp. rewrite <- Hp.
        unfold paths. rewrite <- Hview. unfold view. rewrite map_map.
        apply list_elem_of_fmap. now exists ex.
      * apply list_lookup_lookup_total_lt. unfold w1. simpl. rewrite length_app.
        unfold valid in Hv. rewrite Forall_forall in Hv. specialize (Hv _ Hin). lia.
Qed.

(** ** Routes without reported methods *)

Lemma view_fresh i (l es : list Endpoint) :
  view (World i (l ++ es)) (seq (length l) (length es)) = es.
Proof.
  unfold view. simpl. revert l.
  induction es as [|e es IH]; intros l; [reflexivity|].
  simpl. f_equal.
  - now rewrite lookup_total_app_r, Nat.sub_diag by lia.
  - specialize (IH (l ++ [e])). rewrite length_app, <- app_assoc in IH.
    simpl in IH. now replace (length l + 1) with (S (length l)) in IH by lia.
Qed.








(** ** Reported methods *)

Ltac each_ascii c :=
  destruct c as [[] [] [] [] [] [] [] []].














(** ** Searching a subject *)

Lemma match_at_first_char c0 r i c t :
  c <> c0 -> match_at (Seq (Char c0) r) i (c :: t) = None.
Proof.
  intros H. unfold match_at. simpl. unfold eat. simpl.
  now rewrite bool_decide_eq_false_2.
Qed.

Lemma search_skip c0 r pre :
  Forall (fun c => c <> c0) pre ->
  forall i t, search (Seq (Char c0) r) i (pre ++ t)
              = search (Seq (Char c0) r) (i + length pre) t.
Proof.
  induction 1 as [|c pre Hc _ IH]; intros i t.
  - simpl. now rewrite Nat.add_0_r.
  - cbn [app search]. rewrite match_at_first_char by exact Hc.
    rewrite IH. f_equal. simpl. lia.
Qed.

Lemma search_match_at r i s m :
  match_at r i s = Some m -> search r i s = Some m.
Proof. intros H. destruct s; simpl; now rewrite H. Qed.

Lemma search_found c0 r pre s m i :
  Forall (fun c => c <> c0) pre ->
  match_at (Seq (Char c0) r) (i + length pre) s = Some m ->
  search (Seq (Char c0) r) i (pre ++ s) = Some m.
Proof. intros Hp Hm. rewrite search_skip by exact Hp. now apply search_match_at. Qed.

(** ** The capture groups of a compiled pattern *)

Lemma param_search_end k i :
  search regexpExpressParamRegexp i (drop k patternEnd) = None.
Proof.
  do 14 (destruct k as [|k]; [vm_compute; reflexivity|]).
  reflexivity.
Qed.

Lemma param_search_skip pre i t :
  Forall (fun c => c <> "("%char) pre ->
  search regexpExpressParamRegexp i (pre ++ t)
  = search regexpExpressParamRegexp (i + length pre) t.
Proof. intros Hp. exact (search_skip _ _ pre Hp i t). Qed.

Lemma replace_search_skip pre i t :
  Forall (fun c => c <> "("%char) pre ->
  search regExpToReplaceExpressPathRegExpParams i (pre ++ t)
  = search regExpToReplaceExpressPathRegExpParams (i + length pre) t.
Proof. intros Hp. exact (search_skip _ _ pre Hp i t). Qed.

Lemma no_fragment_left pre L :
  Forall (fun c => c <> "("%char) pre ->
  test_global regexpExpressParamRegexp (pre ++ patternEnd) L = (false, 0).
Proof.
  intros Hp. unfold test_global. case_bool_decide; [reflexivity|].
  rewrite drop_app, param_search_skip by now apply Forall_drop.
  now rewrite param_search_end.
Qed.

(** The two shapes of a capture group, as the patterns of [hasParams] and
    of the replacement see them. *)
Lemma param_match_A i rest :
  match_at regexpExpressParamRegexp i (fragmentA ++ rest)
  = Some (MatchResult i (i + 13) fragmentA []).
Proof. vm_compute. reflexivity. Qed.

Lemma param_match_B i rest :
  match_at regexpExpressParamRegexp i (fragmentB ++ rest)
  = Some (MatchResult i (i + 15) fragmentB []).
Proof. vm_compute. reflexivity. Qed.

Lemma replace_match_A i rest :
  match_at regExpToReplaceExpressPathRegExpParams i (fragmentA ++ rest)
  = Some (MatchResult i (i + 13) fragmentA []).
Proof. vm_compute. reflexivity. Qed.

Lemma replace_match_B i rest :
  match_at regExpToReplaceExpressPathRegExpParams i (fragmentB ++ rest)
  = Some (MatchResult i (i + 15) fragmentB []).
Proof. vm_compute. reflexivity. Qed.

(** [hasParams] on a subject whose next capture group has not been passed
    by [lastIndex]. *)
Lemma fragment_found pre frag n rest L st :
  Forall (fun c => c <> "("%char) pre ->
  L <= length pre ->
  (forall i, match_at regexpExpressParamRegexp i (frag ++ rest)
             = Some (MatchResult i (i + n) frag [])) ->
  hasParams (pre ++ frag ++ rest) (World L st)
  = (Returns true, World (length pre + n) st).
Proof.
  intros Hp HL Hm. unfold hasParams, test_global. simpl.
  rewrite bool_decide_eq_false_2 by (rewrite length_app; lia).
  rewrite drop_app, param_search_skip by now apply Forall_drop.
  replace (L - length pre) with 0 by lia. rewrite drop_0.
  rewrite (search_match_at _ _ _ _ (Hm _)). simpl.
  rewrite length_drop. do 2 f_equal. lia.
Qed.

(** The replacement of the leftmost capture group. *)
Lemma fragment_replaced pre frag n rest f :
  Forall (fun c => c <> "("%char) pre ->
  length frag = n ->
  (forall i, match_at regExpToReplaceExpressPathRegExpParams i (frag ++ rest)
             = Some (MatchResult i (i + n) frag [])) ->
  replace_first regExpToReplaceExpressPathRegExpParams f (pre ++ frag ++ rest)
  = pre ++ f (MatchResult (length pre) (length pre + n) frag []) ++ rest.
Proof.
  intros Hp Hn Hm. unfold replace_first, exec.
  rewrite replace_search_skip by exact Hp.
  rewrite (search_match_at _ _ _ _ (Hm _)). simpl.
  rewrite take_app_length. f_equal. f_equal.
  rewrite drop_app_ge by lia. 
  replace (length pre + n - length pre) with (length frag) by lia.
  now rewrite drop_app_length.
Qed.

(** ** The loop of [parseExpressPath] on a compiled pattern *)

Lemma literalChar_facts c :
  literalChar c = true ->
  c <> "("%char /\ c <> "\"%char /\ c <> ":"%char
  /\ class_matches false [CWord; CChar "\"; CChar "."; CChar "-"] c = true.
Proof.
  each_ascii c; vm_compute; intros H; try discriminate H;
    repeat split; discriminate.
Qed.

Lemma is_word_literalChar c : is_word c = true -> literalChar c = true.
Proof. unfold literalChar. now intros ->. Qed.

Lemma plainSegment_text seg :
  plainSegment seg = true ->
  Forall (fun c => c <> "("%char /\ c <> "\"%char) (segmentText seg).
Proof.
  destruct seg as [text|enc name]; simpl; intros H.
  - apply Forall_forall. intros c Hc.
    rewrite forallb_forall in H. apply list_elem_of_In, H in Hc.
    apply literalChar_facts in Hc. tauto.
  - constructor; [split; discriminate|].
    apply Forall_forall. intros c Hc.
    rewrite forallb_forall in H. apply list_elem_of_In, H in Hc.
    apply is_word_literalChar, literalChar_facts in Hc. tauto.
Qed.

Lemma plainSegment_no_paren seg :
  plainSegment seg = true ->
  Forall (fun c => c <> "("%char) (js "\/" ++ segmentText seg).
Proof.
  intros H. apply Forall_app. split.
  - repeat constructor; discriminate.
  - eapply Forall_impl; [apply plainSegment_text, H|]. simpl. tauto.
Qed.

Lemma app_assoc3 {A} (a b c d : list A) : a ++ b ++ c ++ d = (a ++ b ++ c) ++ d.
Proof. now rewrite <- !app_assoc. Qed.

(** One round of the loop at a capture group that [lastIndex] has not
    passed: without a descriptor the call throws, with one the group is
    replaced and the search goes on from the end of the group as it was. *)
Lemma substituteParams_at_group enc name todo done L st params :
  Forall (fun c => c <> "("%char) done ->
  (forall g, fragmentOffset (Param enc name :: todo) = Some g ->
             L <= 2 + length done + g) ->
  substituteParams params
    (js "/^" ++ done ++ compiledBody (Param enc name :: todo) ++ patternEnd)
    (World L st)
  = match params with
    | [] => (Throws, World (length done + 17) st)
    | paramName :: params' =>
        substituteParams params'
          (js "/^" ++ (done ++ js "\/" ++ js ":" ++ paramName)
             ++ compiledBody todo ++ patternEnd)
          (World (length done + 17) st)
    end.
Proof.
  intros Hd HL. unfold compiledBody. cbn [map concat].
  fold (compiledBody todo).
  destruct enc; cbn [compileSegment].
  - assert (Hpre : Forall (fun c => c <> "("%char) (js "/^" ++ done ++ js "\/")).
    { apply Forall_app. split; [repeat constructor; discriminate|].
      apply Forall_app. split; [exact Hd|repeat constructor; discriminate]. }
    assert (HLpre : L <= length (js "/^" ++ done ++ js "\/")).
    { specialize (HL 2 eq_refl). rewrite !length_app.
      cbn [length js list_ascii_of_string]. lia. }
    assert (Hlen : length (js "/^" ++ done ++ js "\/") + 13 = length done + 17).
    { rewrite !length_app. cbn [length js list_ascii_of_string]. lia. }
    assert (Hfound := fragment_found _ fragmentA 13 (compiledBody todo ++ patternEnd)
                        L st Hpre HLpre (fun i => param_match_A i _)).
    rewrite Hlen in Hfound.
    rewrite <- !app_assoc. rewrite (app_assoc3 (js "/^") done (js "\/")).
    destruct params as [|paramName params']; cbn [substituteParams];
      rewrite (bind_returns _ _ _ _ _ Hfound); [reflexivity|].
    rewrite (fragment_replaced _ fragmentA 13 _ _ Hpre eq_refl
               (fun i => replace_match_A i _)).
    cbn [matched].
    rewrite bool_decide_eq_false_2 by (vm_compute; intros [k Hk]; discriminate Hk).
    now rewrite <- !app_assoc.
  - assert (Hpre : Forall (fun c => c <> "("%char) (js "/^" ++ done)).
    { apply Forall_app. split; [repeat constructor; discriminate|exact Hd]. }
    assert (HLpre : L <= length (js "/^" ++ done)).
    { specialize (HL 0 eq_refl). rewrite !length_app.
      cbn [length js list_ascii_of_string]. lia. }
    assert (Hlen : length (js "/^" ++ done) + 15 = length done + 17).
    { rewrite !length_app. cbn [length js list_ascii_of_string]. lia. }
    assert (Hfound := fragment_found _ fragmentB 15 (compiledBody todo ++ patternEnd)
                        L st Hpre HLpre (fun i => param_match_B i _)).
    rewrite Hlen in Hfound.
    rewrite <- !app_assoc. rewrite (app_assoc (js "/^") done).
    destruct params as [|paramName params']; cbn [substituteParams];
      rewrite (bind_returns _ _ _ _ _ Hfound); [reflexivity|].
    rewrite (fragment_replaced _ fragmentB 15 _ _ Hpre eq_refl
               (fun i => replace_match_B i _)).
    cbn [matched].
    rewrite bool_decide_eq_true_2 by (exists (js "([^\/]+?))"); reflexivity).
    now rewrite <- !app_assoc.
Qed.

(** A literal segment is passed over. *)
Lemma compiledBody_literal text todo done :
  js "/^" ++ done ++ compiledBody (Lit text :: todo) ++ patternEnd
  = js "/^" ++ (done ++ js "\/" ++ text) ++ compiledBody todo ++ patternEnd.
Proof.
  unfold compiledBody. cbn [map concat compileSegment].
  now rewrite <- !app_assoc.
Qed.

Lemma substituted_cons seg todo done :
  js "/^" ++ done ++ substituted (seg :: todo) ++ patternEnd
  = js "/^" ++ (done ++ js "\/" ++ segmentText seg) ++ substituted todo ++ patternEnd.
Proof.
  unfold substituted. cbn [map concat].
  now rewrite <- !app_assoc.
Qed.

Lemma next_group_in_reach name todo done :
  (match fragmentOffset todo with
   | Some g => 12 <=? length name + g
   | None => true
   end) = true ->
  forall g, fragmentOffset todo = Some g ->
            length done + 17 <= 2 + length (done ++ js "\/" ++ js ":" ++ name) + g.
Proof.
  intros Hgap g Hg. rewrite Hg in Hgap. apply Nat.leb_le in Hgap.
  rewrite !length_app. cbn [length js list_ascii_of_string]. lia.
Qed.

Lemma literal_offset text todo done L :
  (forall g, fragmentOffset (Lit text :: todo) = Some g -> L <= 2 + length done + g) ->
  forall g, fragmentOffset todo = Some g ->
            L <= 2 + length (done ++ js "\/" ++ text) + g.
Proof.
  intros HL g Hg. cbn [fragmentOffset] in HL. rewrite Hg in HL.
  specialize (HL _ eq_refl).
  rewrite !length_app. cbn [length js list_ascii_of_string]. lia.
Qed.

(** With the descriptors of the template, the loop replaces every capture
    group and ends with [lastIndex] at 0. *)
Lemma substituteParams_compiled todo : forall done L st,
  Forall (fun c => c <> "("%char) done ->
  forallb plainSegment todo = true ->
  scanOk todo = true ->
  (forall g, fragmentOffset todo = Some g -> L <= 2 + length done + g) ->
  substituteParams (paramsOf todo)
    (js "/^" ++ done ++ compiledBody todo ++ patternEnd) (World L st)
  = (Returns (js "/^" ++ done ++ substituted todo ++ patternEnd), World 0 st).
Proof.
  induction todo as [|seg todo IH]; intros done L st Hd Hp Hs HL.
  - unfold compiledBody, substituted. cbn [map concat paramsOf substituteParams app].
    unfold mbind, M_bind, hasParams. cbn [lastIndex store].
    rewrite (app_assoc (js "/^") done patternEnd).
    rewrite no_fragment_left; [reflexivity|].
    apply Forall_app. split; [repeat constructor; discriminate|exact Hd].
  - cbn [forallb] in Hp. apply andb_true_iff in Hp as [Hseg Hp].
    pose proof (plainSegment_no_paren seg Hseg) as Hnp.
    assert (Hd' : Forall (fun c => c <> "("%char) (done ++ js "\/" ++ segmentText seg))
      by (apply Forall_app; now split).
    rewrite substituted_cons.
    destruct seg as [text|enc name]; cbn [paramsOf segmentText] in *.
    + rewrite compiledBody_literal.
      apply IH; [exact Hd'|exact Hp|exact Hs|now apply literal_offset].
    + cbn [scanOk] in Hs. apply andb_true_iff in Hs as [Hgap Hs].
      rewrite substituteParams_at_group by assumption.
      apply IH; [exact Hd'|exact Hp|exact Hs|now apply next_group_in_reach].
Qed.

(** With fewer descriptors than the template has parameters, the loop
    throws at the first capture group that is left without one. *)
Lemma substituteParams_short todo : forall done L st params missing,
  Forall (fun c => c <> "("%char) done ->
  forallb plainSegment todo = true ->
  scanOk todo = true ->
  (forall g, fragmentOffset todo = Some g -> L <= 2 + length done + g) ->
  missing <> [] ->
  paramsOf todo = params ++ missing ->
  exists w',
    substituteParams params
      (js "/^" ++ done ++ compiledBody todo ++ patternEnd) (World L st)
    = (Throws, w').
Proof.
  induction todo as [|seg todo IH]; intros done L st params missing Hd Hp Hs HL Hm Hparams.
  - cbn [paramsOf] in Hparams. symmetry in Hparams.
    apply app_eq_nil in Hparams as [_ ->]. contradiction.
  - cbn [forallb] in Hp. apply andb_true_iff in Hp as [Hseg Hp].
    pose proof (plainSegment_no_paren seg Hseg) as Hnp.
    assert (Hd' : Forall (fun c => c <> "("%char) (done ++ js "\/" ++ segmentText seg))
      by (apply Forall_app; now split).
    destruct seg as [text|enc name]; cbn [paramsOf segmentText] in *.
    + rewrite compiledBody_literal.
      apply (IH _ _ _ _ missing); try assumption. now apply literal_offset.
    + cbn [scanOk] in Hs. apply andb_true_iff in Hs as [Hgap Hs].
      rewrite substituteParams_at_group by assumption.
      destruct params as [|paramName params']; [eauto|].
      cbn [app] in Hparams. injection Hparams as <- Hparams.
      apply (IH _ _ _ _ missing); try assumption.
      now apply next_group_in_reach.
Qed.

(** ** Stars over single characters *)

Lemma eat_at p k o n c t caps :
  eat p k (MState o n (c :: t) caps)
  = if p c then k (MState o (S n) t caps) else None.
Proof. reflexivity. Qed.

Lemma iterate_eat p k fuel : forall o n s caps,
  length s <= fuel ->
  iterate (eat p) k fuel (MState o n s caps) = eat_star p k o n s caps.
Proof.
  induction fuel as [|fuel IH]; intros o n s caps Hl.
  - destruct s; [reflexivity|simpl in Hl; lia].
  - cbn [iterate]. destruct s as [|c t]; [reflexivity|].
    rewrite eat_at. cbn [eat_star consumed].
    destruct (p c); [|reflexivity].
    rewrite bool_decide_eq_true_2 by lia.
    rewrite IH by (simpl in Hl; lia). reflexivity.
Qed.

Lemma eat_star_app p k o l : forall n rest caps v,
  Forall (fun c => p c = true) l ->
  eat_star p k o (n + length l) rest caps = Some v ->
  eat_star p k o n (l ++ rest) caps = Some v.
Proof.
  induction l as [|c l IH]; intros n rest caps v Hl Hv.
  - simpl in *. now rewrite Nat.add_0_r in Hv.
  - apply Forall_cons in Hl as [Hc Hl]. cbn [app eat_star]. rewrite Hc.
    rewrite (IH (S n) rest caps v Hl); [reflexivity|].
    rewrite <- Hv. f_equal. simpl. lia.
Qed.

Lemma run_star_class negated items k o n s caps :
  run (Star (Class negated items)) k (MState o n s caps)
  = eat_star (class_matches negated items) k o n s caps.
Proof. cbn [run remaining]. now apply iterate_eat. Qed.

Lemma run_star_any k o n s caps :
  run (Star AnyChar) k (MState o n s caps)
  = eat_star (fun a => negb (is_line_terminator a)) k o n s caps.
Proof. cbn [run remaining]. now apply iterate_eat. Qed.

(** A segment followed by an escaped separator: the class takes the
    segment and the backslash, gives the backslash back, and goes on. *)
Lemma run_star_segment k o n l r caps v :
  Forall (fun c => class_matches false [CWord; CChar "\"; CChar "."; CChar "-"] c = true) l ->
  k (MState o (n + length l) ("\"%char :: "/"%char :: r) caps) = Some v ->
  k (MState o (S (n + length l)) ("/"%char :: r) caps) = None ->
  run (Star segment_class) k (MState o n (l ++ "\"%char :: "/"%char :: r) caps) = Some v.
Proof.
  intros Hl Hv Hn. unfold segment_class. rewrite run_star_class.
  apply eat_star_app; [exact Hl|].
  cbn [eat_star].
  change (class_matches false [CWord; CChar "\"; CChar "."; CChar "-"] "\") with true.
  change (class_matches false [CWord; CChar "\"; CChar "."; CChar "-"] "/") with false.
  cbn match. now rewrite Hn, Hv.
Qed.




Lemma forallb_literal l :
  forallb literalChar l = true ->
  Forall (fun c => class_matches false [CWord; CChar "\"; CChar "."; CChar "-"] c = true) l.
Proof.
  intros H. apply Forall_forall. intros c Hc.
  rewrite forallb_forall in H. apply list_elem_of_In, H in Hc.
  now apply literalChar_facts in Hc.
Qed.

Lemma forallb_word l :
  forallb is_word l = true -> forallb literalChar l = true.
Proof.
  rewrite !forallb_forall. intros H c Hc. apply is_word_literalChar. auto.
Qed.

Lemma run_char c k x : run (Char c) k x = eat (fun a => bool_decide (a = c)) k x.
Proof. reflexivity. Qed.

Lemma run_seq r1 r2 k : run (Seq r1 r2) k = run r1 (run r2 k).
Proof. reflexivity. Qed.

Lemma run_empty k : run Empty k = k.
Proof. reflexivity. Qed.

Lemma run_opt r k x :
  run (Opt r) k x
  = or_else
      (run r (fun y => if bool_decide (consumed x < consumed y) then k y else None) x)
      (k x).
Proof. reflexivity. Qed.

(** An optional character. *)
Lemma run_opt_char c k o n a t caps :
  run (Opt (Char c)) k (MState o n (a :: t) caps)
  = if bool_decide (a = c)
    then or_else (k (MState o (S n) t caps)) (k (MState o n (a :: t) caps))
    else k (MState o n (a :: t) caps).
Proof.
  rewrite run_opt, run_char, eat_at. cbn [consumed].
  destruct (bool_decide (a = c)); [|reflexivity].
  now rewrite bool_decide_eq_true_2 by lia.
Qed.

(** An optional colon and the class, on a segment of the substituted
    pattern. *)
Lemma run_segment k seg o n r caps v :
  plainSegment seg = true ->
  k (MState o (n + length (segmentText seg)) ("\"%char :: "/"%char :: r) caps) = Some v ->
  k (MState o (S (n + length (segmentText seg))) ("/"%char :: r) caps) = None ->
  run (Opt (Char ":")) (run (Star segment_class) k)
    (MState o n (segmentText seg ++ "\"%char :: "/"%char :: r) caps) = Some v.
Proof.
  intros Hp Hv Hn.
  destruct seg as [text|enc name]; cbn [segmentText plainSegment] in *.
  - pose proof (run_star_segment k o n text r caps v (forallb_literal _ Hp) Hv Hn)
      as Hstar.
    destruct text as [|c text]; cbn [app] in *; rewrite run_opt_char.
    + rewrite bool_decide_eq_false_2 by discriminate. exact Hstar.
    + cbn [forallb] in Hp.
      apply andb_true_iff in Hp as [Hc _]. apply literalChar_facts in Hc.
      rewrite bool_decide_eq_false_2 by tauto. exact Hstar.
  - change (js ":" ++ name) with (":"%char :: name) in *. cbn [app length] in *.
    rewrite run_opt_char, bool_decide_eq_true_2 by reflexivity.
    rewrite (run_star_segment k o (S n) name r caps v);
      [reflexivity|apply forallb_literal, forallb_word, Hp|..].
    + rewrite <- Hv. f_equal. f_equal. lia.
    + rewrite <- Hn. f_equal. f_equal. lia.
Qed.

Lemma substituted_end T :
  exists r, substituted T ++ patternEnd = "\"%char :: "/"%char :: r.
Proof.
  destruct T as [|seg T]; [now eexists|].
  unfold substituted. cbn [map concat]. now eexists.
Qed.

Lemma run_nextSegment k o n s caps :
  run nextSegment k (MState o n ("\"%char :: "/"%char :: s) caps)
  = run (Opt (Char ":")) (run (Star segment_class) k) (MState o (S (S n)) s caps).
Proof.
  unfold nextSegment. cbn [cat foldr].
  rewrite run_seq, run_char, eat_at, bool_decide_eq_true_2 by reflexivity.
  rewrite run_seq, run_char, eat_at, bool_decide_eq_true_2 by reflexivity.
  now rewrite !run_seq, run_empty.
Qed.

Lemma run_nextSegment_fails k o n c t caps :
  c <> "\"%char -> run nextSegment k (MState o n (c :: t) caps) = None.
Proof.
  intros Hc. unfold nextSegment. cbn [cat foldr].
  rewrite run_seq, run_char, eat_at. now rewrite bool_decide_eq_false_2.
Qed.

(** From a position that does not start an escaped separator the loop of
    the group cannot go on, and the continuation is not met either. *)
Section GroupLoop.
Variable K : mstate -> option mstate.
Hypothesis K_backslash :
  forall o n c t caps, c <> "\"%char -> K (MState o n (c :: t) caps) = None.

Lemma iterate_stops fuel o n c t caps :
  c <> "\"%char ->
  iterate (run nextSegment) K fuel (MState o n (c :: t) caps) = None.
Proof.
  intros Hc. destruct fuel as [|fuel]; cbn [iterate].
  - now apply K_backslash.
  - rewrite K_backslash by exact Hc.
    now rewrite run_nextSegment_fails.
Qed.

Lemma iterate_segments T : forall fuel o n caps v,
  forallb plainSegment T = true ->
  length (substituted T ++ patternEnd) <= fuel ->
  K (MState o (n + length (substituted T)) patternEnd caps) = Some v ->
  iterate (run nextSegment) K fuel (MState o n (substituted T ++ patternEnd) caps)
  = Some v.
Proof.
  induction T as [|seg T IH]; intros fuel o n caps v Hp Hf Hv.
  - cbn [substituted map concat app length] in *. rewrite Nat.add_0_r in Hv.
    destruct fuel as [|fuel]; [simpl in Hf; lia|].
    cbn [iterate]. rewrite Hv.
    replace (run nextSegment _ _) with (@None mstate); [reflexivity|].
    symmetry. unfold patternEnd. cbn [js list_ascii_of_string].
    rewrite run_nextSegment, run_opt_char.
    rewrite bool_decide_eq_false_2 by discriminate.
    unfold segment_class. rewrite run_star_class. cbn [eat_star].
    change (class_matches false [CWord; CChar "\"; CChar "."; CChar "-"] "?") with false.
    cbn match. cbn [consumed]. rewrite bool_decide_eq_true_2 by lia.
    apply iterate_stops. discriminate.
  - cbn [forallb] in Hp. apply andb_true_iff in Hp as [Hseg Hp].
    destruct (substituted_end T) as [r Hr].
    assert (Hshape : substituted (seg :: T) ++ patternEnd
                     = "\"%char :: "/"%char :: segmentText seg
                                              ++ "\"%char :: "/"%char :: r).
    { unfold substituted. cbn [map concat]. fold (substituted T).
      rewrite <- !app_assoc, Hr. reflexivity. }
    assert (Hlen : length (substituted (seg :: T))
                   = 2 + length (segmentText seg) + length (substituted T)).
    { unfold substituted. cbn [map concat]. fold (substituted T).
      rewrite !length_app. reflexivity. }
    rewrite Hshape in *. rewrite Hlen in Hv.
    assert (HlenT : length (substituted T ++ patternEnd) = S (S (length r)))
      by now rewrite Hr.
    cbn [length] in Hf. rewrite length_app in Hf. cbn [length] in Hf.
    destruct fuel as [|fuel]; [lia|].
    cbn [iterate].
    replace (run nextSegment _ _) with (Some v); [reflexivity|].
    symmetry. rewrite run_nextSegment.
    apply (run_segment _ seg o (S (S n)) r caps v Hseg).
    + cbn [consumed]. rewrite bool_decide_eq_true_2 by lia.
      rewrite <- Hr. apply IH; [exact Hp|lia|].
      rewrite <- Hv. f_equal. f_equal. lia.
    + cbn [consumed]. rewrite bool_decide_eq_true_2 by lia.
      apply iterate_stops. discriminate.
Qed.
End GroupLoop.

Lemma run_alt r1 r2 k x : run (Alt r1 r2) k x = or_else (run r1 k x) (run r2 k x).
Proof. reflexivity. Qed.

Lemma run_group n r k x : run (Group n r) k x = run r (fun y => k (capture n x y)) x.
Proof. reflexivity. Qed.

Lemma run_star r k x : run (Star r) k x = iterate (run r) k (length (remaining x)) x.
Proof. reflexivity. Qed.

Lemma afterGroup_end o n caps :
  run afterGroup Some (MState o n patternEnd caps) = Some (MState o (13 + n) [] caps).
Proof.
  unfold afterGroup, patternEnd. cbn [cat foldr js list_ascii_of_string].
  rewrite run_seq, run_char, eat_at, bool_decide_eq_true_2 by reflexivity.
  rewrite run_seq, run_char, eat_at, bool_decide_eq_true_2 by reflexivity.
  rewrite run_seq, run_empty, run_star_any. vm_compute. reflexivity.
Qed.

Lemma afterGroup_backslash o n c t caps :
  c <> "\"%char -> run afterGroup Some (MState o n (c :: t) caps) = None.
Proof.
  intros Hc. unfold afterGroup. cbn [cat foldr].
  rewrite run_seq, run_char, eat_at. now rewrite bool_decide_eq_false_2.
Qed.

Lemma run_linestart k o s caps : run LineStart k (MState 0 o s caps) = if bool_decide (o = 0) then k (MState 0 o s caps) else None.
Proof. reflexivity. Qed.

Lemma or_else_Some {A} (a b : option A) v : a = Some v -> or_else a b = Some v.
Proof. now intros ->. Qed.

(** The recogniser up to its first group, on a subject that begins with
    the opening of a compiled pattern and an escaped separator. *)
Lemma parse_from_group s v :
  run (Group 1 (cat [ Opt (Char ":"); Star segment_class; Star nextSegment ]))
    (run afterGroup Some) (MState 0 4 s []) = Some v ->
  run regExpToParseExpressPathRegExp Some
    (MState 0 0 ("/"%char :: "^"%char :: "\"%char :: "/"%char :: s) []) = Some v.
Proof.
  intros H. unfold regExpToParseExpressPathRegExp. cbn [cat foldr].
  rewrite run_seq, run_linestart, bool_decide_eq_true_2 by reflexivity.
  rewrite run_seq, run_char, eat_at, bool_decide_eq_true_2 by reflexivity.
  rewrite run_seq, run_char, eat_at, bool_decide_eq_true_2 by reflexivity.
  rewrite run_seq, run_opt_char, bool_decide_eq_true_2 by reflexivity.
  apply or_else_Some.
  rewrite run_seq, run_opt_char, bool_decide_eq_true_2 by reflexivity.
  apply or_else_Some.
  rewrite run_seq, run_alt. apply or_else_Some.
  exact H.
Qed.

(** The recogniser on a fully substituted pattern: the first group holds
    the segments, escaped separators between them. *)
Lemma exec_substituted seg T :
  plainSegment seg = true -> forallb plainSegment T = true ->
  exists m,
    exec regExpToParseExpressPathRegExp
      (js "/^" ++ substituted (seg :: T) ++ patternEnd) = Some m
    /\ group 1 m = Some (segmentText seg ++ substituted T).
Proof.
  intros Hseg HT.
  destruct (substituted_end T) as [r Hr].
  set (body := segmentText seg ++ substituted T).
  set (x0 := MState 0 4 (body ++ patternEnd) []).
  set (K := fun y => run afterGroup Some (capture 1 x0 y)).
  set (v := MState 0 (13 + (4 + length body)) [] [(1, body)]).
  assert (HK : forall o n c t caps,
             c <> "\"%char -> K (MState o n (c :: t) caps) = None).
  { intros o n c t caps Hc. unfold K, capture. cbn [origin consumed remaining captures].
    now apply afterGroup_backslash. }
  assert (Hend : K (MState 0 (4 + length body) patternEnd []) = Some v).
  { unfold K, capture, x0. cbn [origin consumed remaining captures].
    rewrite afterGroup_end. unfold v. do 3 f_equal.
    replace (4 + length body - 4) with (length body) by lia.
    now rewrite take_app_length. }
  assert (Hshape : js "/^" ++ substituted (seg :: T) ++ patternEnd
                   = "/"%char :: "^"%char :: "\"%char :: "/"%char
                     :: segmentText seg ++ "\"%char :: "/"%char :: r).
  { unfold substituted. cbn [map concat]. fold (substituted T).
    rewrite <- !app_assoc, Hr. reflexivity. }
  assert (Hbody : body ++ patternEnd = segmentText seg ++ "\"%char :: "/"%char :: r).
  { unfold body. now rewrite <- app_assoc, Hr. }
  assert (Hlen : length body = length (segmentText seg) + length (substituted T))
    by (unfold body; now rewrite length_app).
  assert (Hcore :
    run (Group 1 (cat [ Opt (Char ":"); Star segment_class; Star nextSegment ]))
      (run afterGroup Some) x0 = Some v).
  { rewrite run_group. fold K. cbn [cat foldr]. rewrite !run_seq, run_empty.
    unfold x0. rewrite Hbody.
    apply (run_segment _ seg 0 4 r [] v Hseg).
    - rewrite run_star. cbn [remaining]. rewrite <- Hr.
      apply iterate_segments; [exact HK|exact HT|lia|].
      rewrite <- Hend. f_equal. f_equal. lia.
    - rewrite run_star. apply iterate_stops; [exact HK|discriminate]. }
  exists (MatchResult 0 (0 + consumed v)
            (take (consumed v) (js "/^" ++ substituted (seg :: T) ++ patternEnd))
            (captures v)).
  split; [|reflexivity].
  unfold exec. apply search_match_at. unfold match_at.
  replace (run regExpToParseExpressPathRegExp Some _) with (Some v); [reflexivity|].
  symmetry. rewrite Hshape. apply parse_from_group.
  fold x0 in Hcore. unfold x0 in Hcore. rewrite Hbody in Hcore. exact Hcore.
Qed.

(** ** Restoring the separators *)

Lemma escaped_slash_match i rest :
  match_at escapedSlashRegexp i ("\"%char :: "/"%char :: rest)
  = Some (MatchResult i (i + 2) (js "\/") []).
Proof. vm_compute. reflexivity. Qed.

Lemma escaped_slash_skip pre i t :
  Forall (fun c => c <> "\"%char) pre ->
  search escapedSlashRegexp i (pre ++ t)
  = search escapedSlashRegexp (i + length pre) t.
Proof. intros Hp. exact (search_skip _ _ pre Hp i t). Qed.

Lemma segmentText_no_backslash seg :
  plainSegment seg = true -> Forall (fun c => c <> "\"%char) (segmentText seg).
Proof.
  intros H. eapply Forall_impl; [apply plainSegment_text, H|]. simpl. tauto.
Qed.

Lemma unescape_from T : forall l fuel i,
  Forall (fun c => c <> "\"%char) l ->
  forallb plainSegment T = true ->
  length T < fuel ->
  replace_from fuel escapedSlashRegexp (fun _ => js "/") i (l ++ substituted T)
  = l ++ templateText T.
Proof.
  induction T as [|seg T IH]; intros l fuel i Hl HT Hf;
    (destruct fuel as [|fuel]; [simpl in Hf; lia|]); cbn [replace_from].
  - cbn [substituted templateText map concat].
    rewrite escaped_slash_skip by exact Hl. reflexivity.
  - cbn [forallb] in HT. apply andb_true_iff in HT as [Hseg HT].
    unfold substituted, templateText. cbn [map concat].
    fold (substituted T). fold (templateText T).
    rewrite <- !app_assoc.
    change (js "\/" ++ ?s) with ("\"%char :: "/"%char :: s).
    rewrite escaped_slash_skip by exact Hl.
    rewrite (search_match_at _ _ _ _ (escaped_slash_match _ _)).
    cbn [index end_index].
    rewrite bool_decide_eq_false_2 by lia.
    replace (i + length l - i) with (length l) by lia.
    replace (i + length l + 2 - i) with (length l + 2) by lia.
    rewrite take_app_length.
    rewrite drop_app_ge by lia.
    replace (length l + 2 - length l) with 2 by lia. cbn [drop]. rewrite ?drop_0.
    rewrite IH; [reflexivity|now apply segmentText_no_backslash|exact HT|].
    simpl in Hf. lia.
Qed.

Lemma length_substituted T : length T <= length (substituted T).
Proof.
  induction T as [|seg T IH]; [reflexivity|].
  unfold substituted in *. cbn [map concat]. rewrite !length_app.
  simpl in *. lia.
Qed.

Lemma unescape seg T :
  plainSegment seg = true -> forallb plainSegment T = true ->
  replace_all escapedSlashRegexp (fun _ => js "/") (segmentText seg ++ substituted T)
  = segmentText seg ++ templateText T.
Proof.
  intros Hseg HT. unfold replace_all.
  apply unescape_from; [now apply segmentText_no_backslash|exact HT|].
  rewrite length_app. pose proof (length_substituted T). lia.
Qed.

(** ** Decoding a compiled template *)

Lemma compile_shape T :
  compile T = js "/^" ++ [] ++ compiledBody T ++ patternEnd.
Proof. reflexivity. Qed.

(** C2, amended.  Let [T] be a template with at least one segment, its
    literal segments made of word characters and hyphens and its parameter
    names of word characters, each parameter compiled in either encoding,
    and such that every parameter but the last has a name which, together
    with the compiled text between its capture group and the next, is at
    least 12 characters long.  Starting with [lastIndex] at 0, decoding
    the pattern compiled from [T] with the parameter names of [T] returns
    the text of [T] without its leading separator, with exactly one
    separator before each placeholder, and leaves [lastIndex] at 0. *)
Theorem decode_restores_template T st :
  T <> [] ->
  forallb plainSegment T = true ->
  scanOk T = true ->
  exists decoded,
    parseExpressPath (compile T) (paramsOf T) (World 0 st)
    = (Returns decoded, World 0 st)
    /\ js "/" ++ decoded = templateText T.
Proof.
  intros Hne HT Hs. destruct T as [|seg T]; [contradiction|].
  exists (segmentText seg ++ templateText T). split; [|reflexivity].
  unfold parseExpressPath, mbind at 1, M_bind.
  rewrite compile_shape.
  rewrite (substituteParams_compiled (seg :: T) [] 0 st);
    [|constructor|exact HT|exact Hs|intros; lia].
  cbn [app]. 
  cbn [forallb] in HT. apply andb_true_iff in HT as [Hseg HT].
  destruct (exec_substituted seg T Hseg HT) as (m & Hm & Hg).
  match goal with
  | |- context [if ?b then ?e1 else ?e2] =>
      replace (if b then e1 else e2) with (Some m)
  end.
  - cbn [mbind option_bind]. rewrite Hg. unfold mret, M_ret.
    now rewrite unescape.
  - case_bool_decide as Hc; [now rewrite Hm|].
    now rewrite <- Hc, Hm.
Qed.

(** ** Mount layers at the root *)

Lemma root_pattern_shape :
  EXPRESS_ROOT_PATH_REGEXP_VALUE = js "/^" ++ patternEnd.
Proof. reflexivity. Qed.

Lemma root_pattern_has_no_params params w :
  substituteParams params EXPRESS_ROOT_PATH_REGEXP_VALUE w
  = (Returns EXPRESS_ROOT_PATH_REGEXP_VALUE, World 0 (store w)).
Proof.
  assert (H : hasParams EXPRESS_ROOT_PATH_REGEXP_VALUE w
              = (Returns false, World 0 (store w))).
  { unfold hasParams. rewrite root_pattern_shape, no_fragment_left; [reflexivity|].
    repeat constructor; discriminate. }
  destruct params; cbn [substituteParams]; unfold mbind, M_bind; now rewrite H.
Qed.

Lemma root_pattern_decodes_to_nothing params w :
  parseExpressPath EXPRESS_ROOT_PATH_REGEXP_VALUE params w
  = (Returns [], World 0 (store w)).
Proof.
  unfold parseExpressPath, mbind at 1, M_bind.
  rewrite root_pattern_has_no_params.
  rewrite bool_decide_eq_false_2 by (intros H; now apply H).
  replace (exec regExpToParseExpressPathRegExp EXPRESS_ROOT_PATH_REGEXP_VALUE ≫= group 1)
    with (Some (@nil ascii)) by (vm_compute; reflexivity).
  reflexivity.
Qed.

(** C1, evaluated on the code.  The root pattern is accepted by
    [regExpToParseExpressPathRegExp] with an empty first group, so for a
    layer that carries it the walker extends every base path by a
    separator and never reaches the comparison with
    [EXPRESS_ROOT_PATH_REGEXP_VALUE].  A router mounted at the root with
    the route "/foo" is thus listed under "//foo", whereas the same
    router under a layer without a pattern is listed under "/foo". *)
Theorem root_mount_appends_separator :
  test regExpToParseExpressPathRegExp EXPRESS_ROOT_PATH_REGEXP_VALUE = true
  /\ (forall path keys basePath w,
        newBasePathOf (Some EXPRESS_ROOT_PATH_REGEXP_VALUE) path keys basePath w
        = (Returns (basePath ++ js "/"), World 0 (store w)))
  /\ (let '(result, w) := expressListEndpoints Samples.rootMount None initial in
      exists endpoints,
        result = Returns endpoints
        /\ view w endpoints = [Endpoint.Make (js "//foo") [js "GET"] [js "handler"]])
  /\ (let '(result, w) := expressListEndpoints Samples.bareMount None initial in
      exists endpoints,
        result = Returns endpoints
        /\ view w endpoints = [Endpoint.Make (js "/foo") [js "GET"] [js "handler"]]).
Proof.
  assert (Ht : test regExpToParseExpressPathRegExp EXPRESS_ROOT_PATH_REGEXP_VALUE = true)
    by (vm_compute; reflexivity).
  split; [exact Ht|]. split.
  - intros path keys basePath w. unfold newBasePathOf.
    change (regexpText (Some EXPRESS_ROOT_PATH_REGEXP_VALUE))
      with EXPRESS_ROOT_PATH_REGEXP_VALUE.
    rewrite Ht. unfold mbind, M_bind.
    rewrite root_pattern_decodes_to_nothing. unfold mret, M_ret.
    now rewrite app_nil_r.
  - split; vm_compute; eexists; split; reflexivity.
Qed.



(** ** A call that returns leaves no trace *)

Lemma test_global_false r s L i : test_global r s L = (false, i) -> i = 0.
Proof.
  unfold test_global. case_bool_decide; [congruence|].
  destruct (search r L (drop L s)); congruence.
Qed.

Lemma hasParams_false s w w' :
  hasParams s w = (Returns false, w') -> lastIndex w' = 0.
Proof.
  unfold hasParams. destruct (test_global _ _ _) as [found i] eqn:E.
  intros H. injection H as -> <-. simpl. now apply test_global_false in E.
Qed.

Lemma hasParams_returns s w : exists found w', hasParams s w = (Returns found, w').
Proof. unfold hasParams. destruct (test_global _ _ _). eauto. Qed.

Lemma substituteParams_returns params : forall s w s' w',
  substituteParams params s w = (Returns s', w') -> lastIndex w' = 0.
Proof.
  induction params as [|p params IH]; intros s w s' w' H;
    cbn [substituteParams] in H;
    destruct (hasParams_returns s w) as (found & w1 & E);
    rewrite (bind_returns _ _ _ _ _ E) in H; destruct found.
  - discriminate H.
  - injection H as <- <-. now apply hasParams_false in E.
  - now apply IH in H.
  - injection H as <- <-. now apply hasParams_false in E.
Qed.

Lemma parseExpressPath_returns re params w p w' :
  parseExpressPath re params w = (Returns p, w') ->
  lastIndex w' = 0 /\ store w' = store w.
Proof.
  intros H. split.
  - unfold parseExpressPath in H. unfold mbind at 1, M_bind in H.
    destruct (substituteParams params re w) as [[parsed|] w1] eqn:E;
      [|discriminate].
    apply substituteParams_returns in E.
    match type of H with
    | context [match ?o with _ => _ end] => destruct o
    end; [|discriminate].
    injection H as _ <-. exact E.
  - pose proof (parseExpressPath_store re params w) as Hs.
    rewrite H in Hs. exact Hs.
Qed.

(** ** The state behind [hasParams] *)

(** C3, evaluated on the code: three calls of [parseExpressPath] in a row,
    the last two with the same arguments.  The first call finds a
    parameter group but no descriptor and throws, which leaves
    [lastIndex] at 24; the second call therefore starts its search behind
    the group and returns "users"; the third returns "users/:id".  Only a
    call that throws inside its loop leaves such a trace: a call that
    returns leaves [lastIndex] at 0 and the store as it was. *)
Theorem decode_depends_on_earlier_calls :
  (let pattern := compile Samples.usersId in
   let '(first, w1) := parseExpressPath pattern [] initial in
   let '(second, w2) := parseExpressPath pattern [js "id"] w1 in
   let '(third, w3) := parseExpressPath pattern [js "id"] w2 in
   first = Throws /\ lastIndex w1 = 24
   /\ second = Returns (js "users")
   /\ third = Returns (js "users/:id"))
  /\ (forall re params w p w',
        parseExpressPath re params w = (Returns p, w') ->
        lastIndex w' = 0 /\ store w' = store w).
Proof.
  split; [vm_compute; repeat split; reflexivity|].
  apply parseExpressPath_returns.
Qed.

(** C8, evaluated on the code: the pattern of "/:a/:b" holds two parameter
    groups; with a single descriptor [parseExpressPath] returns ":a" and
    does not throw.  After the first replacement the second group begins
    at index 8, before the [lastIndex] of 17 that the first search left.
    When the groups of a template stand far enough apart for the search
    to meet them all, a call that starts with [lastIndex] at 0 and lacks
    descriptors does throw. *)
Theorem missing_descriptor_goes_unnoticed :
  (let pattern := compile Samples.twoParams in
   countFragments pattern = 2
   /\ parseExpressPath pattern [js "a"] initial = (Returns (js ":a"), initial))
  /\ (forall T params missing st,
        forallb plainSegment T = true ->
        scanOk T = true ->
        missing <> [] ->
        paramsOf T = params ++ missing ->
        exists w',
          parseExpressPath (compile T) params (World 0 st) = (Throws, w')).
Proof.
  split; [vm_compute; split; reflexivity|].
  intros T params missing st HT Hs Hm Hp.
  destruct (substituteParams_short T [] 0 st params missing) as [w' E];
    try assumption; [constructor|intros; lia|].
  exists w'. unfold parseExpressPath.
  now rewrite (bind_throws _ _ _ _ E).
Qed.

(** ** What a merge leaves alone *)

Lemma extends_refl w : extends w w.
Proof. repeat split; reflexivity. Qed.

Lemma extends_trans w1 w2 w3 : extends w1 w2 -> extends w2 w3 -> extends w1 w3.
Proof.
  intros (Hl & Hi & H) (Hl' & Hi' & H'). split; [congruence|]. split; [congruence|].
  intros r. destruct (H r) as (Hp & Hm & Hme), (H' r) as (Hp' & Hm' & Hme').
  split; [congruence|]. split; [congruence|].
  now transitivity (Endpoint.methods (store w2 !!! r)).
Qed.

Lemma addEndpoint_extends acc r w acc' w' :
  addEndpoint acc r w = (Returns acc', w') ->
  extends w w'
  /\ (acc' = acc \/ acc' = acc ++ [r])
  /\ (forall r', r' ∉ acc -> store w' !!! r' = store w !!! r').
Proof.
  intros H.
  destruct (addEndpoint_cases acc r w) as [[Hf E] | [ex [Hf E]]];
    rewrite E in H; injection H as <- <-.
  - split; [apply extends_refl|]. split; [now right|reflexivity].
  - apply findByPath_Some in Hf as [Hin Hp].
    split; [|split; [now left|]].
    + split; [simpl; now rewrite length_insert|]. split; [reflexivity|].
      intros r'. simpl. rewrite lookup_total_insert_cases.
      case_bool_decide as C; [|repeat split; reflexivity].
      destruct C as [-> _]. simpl. repeat split. now apply prefix_app_r.
    + intros r' Hn. simpl. rewrite lookup_total_insert_cases.
      case_bool_decide as C; [|reflexivity]. destruct C as [-> _]. contradiction.
Qed.

Lemma addEndpoints_appends news : forall acc w,
  exists added w',
    addEndpoints acc news w = (Returns (acc ++ added), w')
    /\ added `sublist_of` news
    /\ extends w w'
    /\ (forall r, r ∉ acc ++ added -> store w' !!! r = store w !!! r).
Proof.
  unfold addEndpoints.
  induction news as [|r news IH]; intros acc w.
  - exists [], w. rewrite app_nil_r. split; [reflexivity|].
    split; [constructor|]. split; [apply extends_refl|reflexivity].
  - destruct (addEndpoint_returns acc r w) as (acc1 & w1 & E1).
    destruct (addEndpoint_extends _ _ _ _ _ E1) as (Hx & Hacc & Hout).
    destruct (IH acc1 w1) as (added & w' & E & Hsub & Hx' & Hout').
    cbn [forEach]. rewrite (bind_returns _ _ _ _ _ E1), E.
    destruct Hacc as [-> | ->].
    + exists added, w'. split; [reflexivity|]. split; [now apply sublist_cons|].
      split; [eapply extends_trans; eassumption|].
      intros r' Hr'. rewrite Hout' by assumption. apply Hout.
      intros Hin. apply Hr'. apply elem_of_app. now left.
    + exists (r :: added), w'. rewrite <- app_assoc. split; [reflexivity|].
      split; [now apply sublist_skip|].
      split; [eapply extends_trans; eassumption|].
      intros r' Hr'. rewrite <- app_assoc in Hout'. rewrite Hout' by assumption.
      apply Hout. intros Hin. apply Hr'. apply elem_of_app. now left.
Qed.

(** X1.  [addEndpoints] always returns.  It returns the accumulator with
    some of the new references appended, in the order they were given; it
    creates no object and leaves [lastIndex] alone; it changes neither
    the path nor the middlewares of any object and only ever appends to
    a list of methods; an object the returned accumulator does not refer
    to is left as it was. *)
Theorem merge_only_appends news acc w :
  exists added w',
    addEndpoints acc news w = (Returns (acc ++ added), w')
    /\ added `sublist_of` news
    /\ length (store w') = length (store w)
    /\ lastIndex w' = lastIndex w
    /\ (forall r,
          Endpoint.path (store w' !!! r) = Endpoint.path (store w !!! r)
          /\ Endpoint.middlewares (store w' !!! r)
             = Endpoint.middlewares (store w !!! r)
          /\ Endpoint.methods (store w !!! r)
               `prefix_of` Endpoint.methods (store w' !!! r))
    /\ (forall r, r ∉ acc ++ added -> store w' !!! r = store w !!! r).
Proof.
  destruct (addEndpoints_appends news acc w)
    as (added & w' & E & Hsub & (Hl & Hi & Hx) & Hout).
  exists added, w'. repeat split; try assumption; apply Hx.
Qed.

(** ** Sequences *)

Lemma forEach_app {A S} (body : S -> A -> M S) (l1 l2 : list A) (s : S) w :
  forEach body (l1 ++ l2) s w = (s1 ← forEach body l1 s; forEach body l2 s1) w.
Proof.
  revert s w. induction l1 as [|x l1 IH]; intros s w; [reflexivity|].
  cbn [app forEach]. unfold mbind, M_bind.
  destruct (body s x w) as [[s1|] w1]; [apply IH|reflexivity].
Qed.

Lemma forEach_ext {A S} (body body' : S -> A -> M S) (l : list A) :
  Forall (fun x => forall s w, body s x w = body' s x w) l ->
  forall s w, forEach body l s w = forEach body' l s w.
Proof.
  induction 1 as [|x l Hx Hl IH]; intros s w; [reflexivity|].
  simpl. unfold mbind, M_bind. rewrite Hx.
  destruct (body' s x w) as [[s1|] w1]; [apply IH|reflexivity].
Qed.

Lemma parseStack_app stack1 stack2 basePath endpoints options w :
  parseStack (stack1 ++ stack2) basePath endpoints options w
  = match parseStack stack1 basePath endpoints options w with
    | (Returns endpoints1, w1) => parseStack stack2 basePath endpoints1 options w1
    | (Throws, w1) => (Throws, w1)
    end.
Proof. unfold parseStack. now rewrite forEach_app. Qed.


(** ** Methods and middlewares of a route *)

Lemma upperChar_upper c : in_range "a" "z" (upperChar c) = false.
Proof. each_ascii c; vm_compute; reflexivity. Qed.

Lemma upperChar_idem c : upperChar (upperChar c) = upperChar c.
Proof. each_ascii c; vm_compute; reflexivity. Qed.

(** X3.  No method that [getRouteMethods] reports holds a letter from a
    to z, and upper-casing it again changes nothing.  There are at most
    as many methods as the table has keys, and when "_all" is not among
    the keys they are the keys in upper case, one for one and in order. *)
Theorem methods_have_no_small_letters route :
  Forall (fun method =>
            Forall (fun c => in_range "a" "z" c = false) method
            /\ toUpperCase method = method)
         (getRouteMethods route)
  /\ length (getRouteMethods route) <= length (Route.methods route)
  /\ (js "_all" ∉ Route.methods route ->
      getRouteMethods route = map toUpperCase (Route.methods route)).
Proof.
  unfold getRouteMethods. split; [|split].
  - apply Forall_forall. intros m H.
    apply list_elem_of_fmap in H as [key [-> _]]. split.
    + unfold toUpperCase. apply Forall_forall. intros c Hc.
      apply list_elem_of_fmap in Hc as [d [-> _]]. apply upperChar_upper.
    + unfold toUpperCase. rewrite map_map. apply map_ext. intros c.
      apply upperChar_idem.
  - rewrite length_map. apply length_filter.
  - intros H. f_equal. induction (Route.methods route) as [|k ks IH]; [reflexivity|].
    apply not_elem_of_cons in H as [Hk Hks].
    rewrite filter_cons_True by congruence. f_equal. now apply IH.
Qed.

(** X4.  [getRouteMiddlewares] reports one name for each item of the
    stack of the route, in order: the name of the handler when it has
    one, "anonymous" otherwise.  No reported name is empty. *)
Theorem middlewares_are_named route :
  length (getRouteMiddlewares route) = length (Route.stack route)
  /\ Forall (fun name => name <> []) (getRouteMiddlewares route)
  /\ (forall i name,
        Route.stack route !! i = Some name -> name <> [] ->
        getRouteMiddlewares route !! i = Some name)
  /\ (forall i,
        Route.stack route !! i = Some [] ->
        getRouteMiddlewares route !! i = Some (js "anonymous")).
Proof.
  unfold getRouteMiddlewares. split; [apply length_map|]. split.
  - apply Forall_forall. intros name H.
    apply list_elem_of_fmap in H as [n [-> _]].
    case_bool_decide; [discriminate|assumption].
  - split.
    + intros i name H Hne. rewrite list_lookup_fmap, H. simpl.
      now rewrite bool_decide_eq_false_2.
    + intros i H. now rewrite list_lookup_fmap, H.
Qed.

(** ** What a traversal leaves alone *)

Lemma grown_refl acc w : grown acc w acc w.
Proof.
  split; [lia|]. split; [exists []; split; [now rewrite app_nil_r|constructor]|].
  split; [intros; repeat split; reflexivity|reflexivity].
Qed.

Lemma grown_alloc_merge acc0 w0 acc w es acc' w' :
  grown acc0 w0 acc w ->
  addEndpoints acc (seq (length (store w)) (length es))
    (World (lastIndex w) (store w ++ es)) = (Returns acc', w') ->
  grown acc0 w0 acc' w'.
Proof.
  intros (Hlen & (added & -> & Hadded) & Hold & Hframe) E.
  destruct (addEndpoints_appends (seq (length (store w)) (length es)) (acc0 ++ added)
              (World (lastIndex w) (store w ++ es)))
    as (added' & w1 & E1 & Hsub & (Hl1 & _ & Hx) & Hout).
  rewrite E1 in E. injection E as <- <-.
  simpl in Hl1, Hx, Hout. rewrite length_app in Hl1.
  assert (Hfresh : Forall (fun r => length (store w) <= r < length (store w) + length es)
                          added').
  { apply Forall_forall. intros r Hr.
    apply (elem_of_sublist _ _ _ Hr) in Hsub as Hr'.
    apply list_elem_of_In, in_seq in Hr'. lia. }
  split; [lia|]. split; [|split].
  - exists (added ++ added'). split; [now rewrite app_assoc|].
    apply Forall_app. split.
    + eapply Forall_impl; [exact Hadded|]. simpl. intros r Hr. lia.
    + eapply Forall_impl; [exact Hfresh|]. simpl. intros r Hr. lia.
  - intros r Hr. destruct (Hx r) as (Hp & Hm & Hme), (Hold r Hr) as (Hp0 & Hm0 & Hme0).
    rewrite lookup_total_app_l in Hp, Hm, Hme by lia.
    split; [congruence|]. split; [congruence|].
    now transitivity (Endpoint.methods (store w !!! r)).
  - intros r Hr Hn. rewrite Hout.
    + rewrite lookup_total_app_l by lia. now apply Hframe.
    + intros Hin. apply elem_of_app in Hin as [Hin|Hin].
      * apply elem_of_app in Hin as [Hin|Hin]; [contradiction|].
        rewrite Forall_forall in Hadded. apply Hadded in Hin. lia.
      * rewrite Forall_forall in Hfresh. apply Hfresh in Hin. lia.
Qed.

Lemma grown_walk acc0 w0 app basePath acc options w acc' w' :
  grown acc0 w0 acc w ->
  parseEndpoints app basePath acc options w = (Returns acc', w') ->
  grown acc0 w0 acc' w'.
Proof.
  apply (walker_invariant (grown acc0 w0) (fun _ => True)).
  - intros acc1 w1 i H. exact H.
  - intros route bp acc1 w1 acc2 w2 _ HI E.
    erewrite bind_returns in E by apply parseExpressRoute_allocates.
    rewrite <- (length_map (endpointOf route bp)) in E.
    eapply grown_alloc_merge; eassumption.
  - intros bp acc1 w1 acc2 w2 HI E.
    unfold mbind, M_bind, alloc in E. simpl in E.
    eapply (grown_alloc_merge acc0 w0 acc1 w1 [_]); eassumption.
  - apply Forall_forall. intros; exact I.
Qed.

(** X5.  A traversal that returns has only appended to its accumulator,
    and what it appended are objects it created, so the entries keep
    their places.  Of the objects that existed before, those the
    accumulator did not refer to are as they were, and the others have
    their path, their middlewares and at least their methods, in the
    same order. *)
Theorem traversal_only_appends app basePath endpoints options w endpoints' w' :
  parseEndpoints app basePath endpoints options w = (Returns endpoints', w') ->
  length (store w) <= length (store w')
  /\ (exists added,
        endpoints' = endpoints ++ added
        /\ Forall (fun r => length (store w) <= r < length (store w')) added)
  /\ (forall r, r < length (store w) ->
        Endpoint.path (store w' !!! r) = Endpoint.path (store w !!! r)
        /\ Endpoint.middlewares (store w' !!! r) = Endpoint.middlewares (store w !!! r)
        /\ Endpoint.methods (store w !!! r)
             `prefix_of` Endpoint.methods (store w' !!! r))
  /\ (forall r, r < length (store w) -> r ∉ endpoints ->
        store w' !!! r = store w !!! r).
Proof. intros E. exact (grown_walk _ _ _ _ _ _ _ _ _ (grown_refl _ _) E). Qed.

(** X6.  The endpoints that [expressListEndpoints] returns are objects
    that did not exist before the call, and every object that did is
    left as it was: what an earlier call returned is never modified by a
    later one. *)
Theorem listing_is_fresh app options w endpoints w' :
  expressListEndpoints app options w = (Returns endpoints, w') ->
  Forall (fun r => length (store w) <= r < length (store w')) endpoints
  /\ forall r, r < length (store w) -> store w' !!! r = store w !!! r.
Proof.
  intros E. unfold expressListEndpoints in E.
  apply (grown_walk [] w) in E; [|apply grown_refl].
  destruct E as (_ & (added & -> & Hadded) & _ & Hframe).
  split; [exact Hadded|]. intros r Hr. apply Hframe; [exact Hr|]. apply not_elem_of_nil.
Qed.

(** ** [lastIndex] across a traversal *)

Lemma addEndpoints_lastIndex news acc w acc' w' :
  addEndpoints acc news w = (Returns acc', w') -> lastIndex w' = lastIndex w.
Proof.
  intros E.
  destruct (addEndpoints_appends news acc w) as (added & w1 & E1 & _ & (_ & Hi & _) & _).
  rewrite E1 in E. now injection E as <- <-.
Qed.

Lemma route_lastIndex route basePath acc w acc' w' :
  (newEndpoints ← parseExpressRoute route basePath;
   addEndpoints acc newEndpoints) w = (Returns acc', w') ->
  lastIndex w' = lastIndex w.
Proof.
  intros E. erewrite bind_returns in E by apply parseExpressRoute_allocates.
  now apply addEndpoints_lastIndex in E.
Qed.

Lemma placeholder_lastIndex basePath acc w acc' w' :
  (placeholder ← alloc (Endpoint.Make basePath [] []);
   addEndpoints acc [placeholder]) w = (Returns acc', w') ->
  lastIndex w' = lastIndex w.
Proof.
  intros E. unfold mbind, M_bind, alloc in E. simpl in E.
  now apply addEndpoints_lastIndex in E.
Qed.

Lemma newBasePathOf_lastIndex regexp path keys basePath w p w' :
  newBasePathOf regexp path keys basePath w = (Returns p, w') -> settles w w'.
Proof.
  unfold newBasePathOf, settles. destruct (test _ _).
  - unfold mbind, M_bind.
    destruct (parseExpressPath (regexpText regexp) keys w) as [[parsed|] w1] eqn:E;
      [|discriminate].
    intros H. injection H as _ <-. left. now apply parseExpressPath_returns in E.
  - destruct regexp as [regexp|]; [destruct (_ && _)|]; intros H;
      injection H as _ <-; now right.
Qed.

Lemma settles_trans w1 w2 w3 : settles w1 w2 -> settles w2 w3 -> settles w1 w3.
Proof.
  unfold settles. intros [H|H] [H'|H']; try (left; congruence). right; congruence.
Qed.

Lemma parseStack_settles stack basePath options :
  Forall (fun l => forall basePath acc options w acc' w',
            parseStackItem l basePath acc options w = (Returns acc', w') ->
            settles w w') stack ->
  forall acc w acc' w',
    parseStack stack basePath acc options w = (Returns acc', w') -> settles w w'.
Proof.
  unfold parseStack. induction 1 as [|l stack Hl Hs IH]; intros acc w acc' w' E.
  - injection E as <- <-. now right.
  - simpl in E. unfold mbind, M_bind in E.
    destruct (parseStackItem l basePath acc options w) as [[acc1|] w1] eqn:E1;
      [|discriminate].
    eapply settles_trans; [eapply Hl; exact E1|eapply IH; exact E].
Qed.

Lemma walk_settles : forall app basePath acc options w acc' w',
  parseEndpoints app basePath acc options w = (Returns acc', w') -> settles w w'.
Proof.
  apply (App_tree_ind
           (fun app => forall basePath acc options w acc' w',
                parseEndpoints app basePath acc options w = (Returns acc', w') ->
                settles w w')
           (fun l => forall basePath acc options w acc' w',
                parseStackItem l basePath acc options w = (Returns acc', w') ->
                settles w w')).
  - intros stack _router Hstack Hrouter basePath acc options w acc' w' E.
    rewrite parseEndpoints_unfold in E.
    destruct stack as [s|]; [|destruct _router as [[s|]|]]; simpl in E.
    + eapply parseStack_settles; [apply Hstack; reflexivity|exact E].
    + eapply parseStack_settles; [apply Hrouter; reflexivity|exact E].
    + case_bool_decide.
      * right. eapply placeholder_lastIndex; exact E.
      * injection E as <- <-. now right.
    + case_bool_decide.
      * right. eapply placeholder_lastIndex; exact E.
      * injection E as <- <-. now right.
  - intros route name regexp path keys handle IH basePath acc options w acc' w' E.
    simpl in E. destruct route as [route|].
    + right. eapply route_lastIndex; exact E.
    + case_bool_decide; [|injection E as <- <-; now right].
      unfold mbind, M_bind in E.
      destruct (newBasePathOf regexp path keys basePath w) as [[newBasePath|] w1] eqn:E1;
        [|discriminate].
      eapply settles_trans; [eapply newBasePathOf_lastIndex; exact E1|eapply IH; exact E].
Qed.

(** X7.  A listing that returns leaves [lastIndex] at 0 or where it found
    it.  In a module whose [lastIndex] is 0, every listing that returns
    leaves it at 0: listings that return have no influence on later ones
    through the state of [regexpExpressParamRegexp]. *)
Theorem listing_resets_lastIndex app options w endpoints w' :
  expressListEndpoints app options w = (Returns endpoints, w') ->
  (lastIndex w' = 0 \/ lastIndex w' = lastIndex w)
  /\ (lastIndex w = 0 -> lastIndex w' = 0).
Proof.
  intros E. apply walk_settles in E. split; [exact E|].
  intros H0. destruct E as [E|E]; congruence.
Qed.

(** ** Trees without patterns to decode *)

Lemma newBasePathOf_quiet regexp path keys basePath w :
  test regExpToParseExpressPathRegExp (regexpText regexp) = false ->
  exists p, newBasePathOf regexp path keys basePath w = (Returns p, w).
Proof.
  intros H. unfold newBasePathOf. rewrite H.
  destruct regexp as [regexp|]; [destruct (_ && _)|]; eauto.
Qed.

Lemma addEndpoints_quiet acc news : quiet (addEndpoints acc news).
Proof.
  intros w.
  destruct (addEndpoints_appends news acc w) as (added & w1 & E1 & _ & (_ & Hi & _) & _).
  eauto.
Qed.

Lemma parseStack_quiet stack basePath options :
  Forall (fun l => forall basePath acc options,
            quiet (parseStackItem l basePath acc options)) stack ->
  forall acc, quiet (parseStack stack basePath acc options).
Proof.
  unfold parseStack. induction 1 as [|l stack Hl Hs IH]; intros acc w.
  - exists acc, w. split; reflexivity.
  - destruct (Hl basePath acc options w) as (acc1 & w1 & E1 & H1).
    destruct (IH acc1 w1) as (acc' & w' & E & H').
    exists acc', w'. split; [|congruence].
    simpl. now rewrite (bind_returns _ _ _ _ _ E1).
Qed.

Lemma walk_quiet : forall app,
  decodesNothing app = true ->
  forall basePath acc options, quiet (parseEndpoints app basePath acc options).
Proof.
  apply (App_tree_ind
           (fun app => decodesNothing app = true ->
              forall basePath acc options, quiet (parseEndpoints app basePath acc options))
           (fun l => decodesNothingLayer l = true ->
              forall basePath acc options, quiet (parseStackItem l basePath acc options))).
  - intros stack _router Hstack Hrouter Hd basePath acc options.
    rewrite parseEndpoints_unfold.
    assert (Hno : quiet (if bool_decide (acc <> []) then
                           placeholder ← alloc (Endpoint.Make basePath [] []);
                           addEndpoints acc [placeholder]
                         else mret acc)).
    { case_bool_decide; [|intros w; exists acc, w; split; reflexivity].
      intros w. unfold mbind, M_bind, alloc. simpl.
      destruct (addEndpoints_quiet acc [length (store w)]
                  (World (lastIndex w) (store w ++ [Endpoint.Make basePath [] []])))
        as (acc' & w' & E & H'). eauto. }
    destruct stack as [s|]; [|destruct _router as [[s|]|]]; simpl in Hd |- *;
      try exact Hno.
    + apply parseStack_quiet.
      specialize (Hstack s eq_refl). rewrite forallb_forall in Hd.
      rewrite Forall_forall in Hstack |- *. intros l Hl.
      apply Hstack; [exact Hl|]. apply Hd. now apply list_elem_of_In.
    + apply parseStack_quiet.
      specialize (Hrouter s eq_refl). rewrite forallb_forall in Hd.
      rewrite Forall_forall in Hrouter |- *. intros l Hl.
      apply Hrouter; [exact Hl|]. apply Hd. now apply list_elem_of_In.
  - intros route name regexp path keys handle IH Hd basePath acc options w.
    simpl in Hd |- *. destruct route as [route|].
    + rewrite (bind_returns _ _ _ _ _ (parseExpressRoute_allocates route basePath w)).
      destruct (addEndpoints_quiet acc (seq (length (store w)) (length (routePaths route)))
                  (World (lastIndex w)
                     (store w ++ map (endpointOf route basePath) (routePaths route))))
        as (acc' & w' & E & H'). eauto.
    + case_bool_decide; [|exists acc, w; split; reflexivity].
      apply andb_true_iff in Hd as [Ht Hd]. apply negb_true_iff in Ht.
      destruct (newBasePathOf_quiet regexp path keys basePath w Ht) as [p Ep].
      rewrite (bind_returns _ _ _ _ _ Ep). now apply IH.
Qed.

(** X8.  The walker throws nowhere but in [parseExpressPath].  When no
    layer without a route carries a pattern that
    [regExpToParseExpressPathRegExp] accepts, the listing returns,
    whatever the state of the module and the options, and leaves
    [lastIndex] as it is. *)
Theorem listing_without_patterns_returns app options w :
  decodesNothing app = true ->
  exists endpoints w',
    expressListEndpoints app options w = (Returns endpoints, w')
    /\ lastIndex w' = lastIndex w.
Proof. intros H. now apply walk_quiet. Qed.

(** ** The option [includeMiddlewareRoutes] *)

Lemma parseStack_flat_map (f : Layer -> list Layer) basePath o o' stack :
  Forall (fun l => forall acc w,
            parseStackItem l basePath acc o w = parseStack (f l) basePath acc o' w) stack ->
  forall acc w,
    parseStack stack basePath acc o w = parseStack (flat_map f stack) basePath acc o' w.
Proof.
  induction 1 as [|l stack Hl Hs IH]; intros acc w; [reflexivity|].
  cbn [flat_map]. rewrite parseStack_app, <- Hl.
  unfold parseStack at 1. cbn [forEach]. unfold mbind, M_bind.
  destruct (parseStackItem l basePath acc o w) as [[acc1|] w1]; [apply IH|reflexivity].
Qed.

Lemma walk_withoutMiddleware : forall app basePath acc w,
  parseEndpoints app basePath acc (Options.Make false) w
  = parseEndpoints (withoutMiddleware app) basePath acc (Options.Make true) w.
Proof.
  apply (App_tree_ind
           (fun app => forall basePath acc w,
              parseEndpoints app basePath acc (Options.Make false) w
              = parseEndpoints (withoutMiddleware app) basePath acc (Options.Make true) w)
           (fun l => forall basePath acc w,
              parseStackItem l basePath acc (Options.Make false) w
              = parseStack (withoutMiddlewareLayer l) basePath acc (Options.Make true) w)).
  - intros stack _router Hstack Hrouter basePath acc w.
    rewrite !parseEndpoints_unfold.
    destruct stack as [s|]; [|destruct _router as [[s|]|]]; cbn [withoutMiddleware stackOf];
      try reflexivity.
    + apply parseStack_flat_map. specialize (Hstack s eq_refl).
      eapply Forall_impl; [exact Hstack|]. simpl. intros l H acc0 w0. apply H.
    + apply parseStack_flat_map. specialize (Hrouter s eq_refl).
      eapply Forall_impl; [exact Hrouter|]. simpl. intros l H acc0 w0. apply H.
  - intros route name regexp path keys handle IH basePath acc w.
    cbn [withoutMiddlewareLayer]. destruct route as [route|].
    + unfold parseStack. cbn [forEach parseStackItem]. unfold mbind, M_bind.
      destruct (parseExpressRoute route basePath w) as [[news|] w1]; [|reflexivity].
      now destruct (addEndpoints acc news w1) as [[acc1|] w2].
    + cbn [parseStackItem Options.includeMiddlewareRoutes].
      destruct (decide (name = js "<anonymous>")) as [Ha|Ha].
      * rewrite (bool_decide_eq_true_2 _ Ha).
        rewrite bool_decide_eq_false_2; [reflexivity|].
        rewrite Ha. intros H.
        repeat (apply elem_of_cons in H as [H|H]; [discriminate H|]).
        inversion H.
      * rewrite (bool_decide_eq_false_2 _ Ha).
        unfold parseStack. cbn [forEach parseStackItem Options.includeMiddlewareRoutes].
        unfold STACK_ITEM_VALID_NAMES_INCLUDING_MIDDLEWARE_ROUTES.
        rewrite (bool_decide_ext (name ∈ js "<anonymous>" :: STACK_ITEM_VALID_NAMES)
                   (name ∈ STACK_ITEM_VALID_NAMES)).
        2:{ rewrite elem_of_cons. tauto. }
        case_bool_decide; [|reflexivity].
        unfold mbind, M_bind.
        destruct (newBasePathOf regexp path keys basePath w) as [[p|] w1]; [|reflexivity].
        rewrite IH.
        now destruct (parseEndpoints (withoutMiddleware handle) p acc (Options.Make true) w1)
          as [[acc1|] w2].
Qed.

(** X9.  Listing with [includeMiddlewareRoutes] off is listing, with the
    option on or left out, the tree from which every layer named
    "<anonymous>" that carries no route has been removed, at every depth:
    same result, same state afterwards, same exception.  The option
    hides what lies below such layers and nothing else. *)
Theorem option_prunes_middleware app w :
  expressListEndpoints app (Some (Options.Make false)) w
  = expressListEndpoints (withoutMiddleware app) None w
  /\ expressListEndpoints (withoutMiddleware app) (Some (Options.Make true)) w
     = expressListEndpoints (withoutMiddleware app) None w.
Proof.
  unfold expressListEndpoints. cbn [default DEFAULT_OPTIONS].
  split; [apply walk_withoutMiddleware|reflexivity].
Qed.

(** ** Which patterns the walker decodes *)

Lemma search_anchored r : forall s i,
  0 < i -> search (Seq LineStart r) i s = None.
Proof.
  induction s as [|c s IH]; intros i Hi; cbn [search];
    unfold match_at; cbn [run origin consumed];
    rewrite bool_decide_eq_false_2 by lia; [reflexivity|].
  apply IH. lia.
Qed.

Lemma exec_anchored r s :
  exec (Seq LineStart r) s
  = match run r Some (MState 0 0 s []) with
    | Some y => Some (MatchResult 0 (consumed y) (take (consumed y) s) (captures y))
    | None => None
    end.
Proof.
  unfold exec. destruct s as [|c s]; cbn [search]; unfold match_at;
    cbn [run origin consumed]; rewrite bool_decide_eq_true_2 by reflexivity;
    destruct (run r Some _); try reflexivity.
  apply search_anchored. lia.
Qed.

Lemma run_char_seq c r k o n s caps :
  run (Seq (Char c) r) k (MState o n s caps)
  = match s with
    | a :: t => if bool_decide (a = c) then run r k (MState o (S n) t caps) else None
    | [] => None
    end.
Proof. reflexivity. Qed.

Lemma unanchored_is_not_recognised s :
  ~ (js "/^" `prefix_of` s) -> test regExpToParseExpressPathRegExp s = false.
Proof.
  intros H. unfold test. apply bool_decide_eq_false_2.
  unfold regExpToParseExpressPathRegExp. cbn [cat foldr].
  rewrite exec_anchored, run_char_seq.
  destruct s as [|c1 s]; [intros [? E]; discriminate E|].
  case_bool_decide as H1; [|intros [? E]; discriminate E].
  rewrite run_char_seq.
  destruct s as [|c2 s]; [intros [? E]; discriminate E|].
  case_bool_decide as H2; [|intros [? E]; discriminate E].
  exfalso. apply H. subst. now exists s.
Qed.

Lemma or_else_is_Some_r {A} (a b : option A) : is_Some b -> is_Some (or_else a b).
Proof. destruct a; simpl; eauto. Qed.

Lemma or_else_is_Some_l {A} (a b : option A) : is_Some a -> is_Some (or_else a b).
Proof. intros [v ->]. simpl. eauto. Qed.

Lemma run_opt_skip r k x : is_Some (k x) -> is_Some (run (Opt r) k x).
Proof. intros H. cbn [run]. now apply or_else_is_Some_r. Qed.

Lemma run_star_skip r k x : is_Some (k x) -> is_Some (run (Star r) k x).
Proof.
  intros H. cbn [run]. destruct (length (remaining x)); cbn [iterate];
    [exact H|now apply or_else_is_Some_r].
Qed.

Lemma escaped_start_is_recognised rest :
  test regExpToParseExpressPathRegExp (js "/^\/" ++ rest) = true.
Proof.
  unfold test. apply bool_decide_eq_true_2.
  unfold regExpToParseExpressPathRegExp. cbn [cat foldr].
  rewrite exec_anchored.
  match goal with
  | |- is_Some (match ?o with _ => _ end) =>
      assert (Ho : is_Some o); [|destruct Ho as [y ->]; eauto]
  end.
  cbn [js list_ascii_of_string app].
  rewrite run_char_seq, bool_decide_eq_true_2 by reflexivity.
  rewrite run_char_seq, bool_decide_eq_true_2 by reflexivity.
  rewrite run_seq. apply run_opt_skip.
  rewrite run_seq. apply run_opt_skip.
  rewrite run_seq, run_alt. apply or_else_is_Some_l.
  rewrite run_group, run_seq. apply run_opt_skip.
  rewrite run_seq. apply run_star_skip.
  rewrite run_seq. apply run_star_skip.
  rewrite run_empty.
  unfold capture. cbn [origin consumed remaining captures].
  rewrite run_char_seq, bool_decide_eq_true_2 by reflexivity.
  rewrite run_char_seq, bool_decide_eq_true_2 by reflexivity.
  rewrite run_seq. apply run_star_skip. rewrite run_empty. eauto.
Qed.

(** X10.  A layer pattern whose text begins with "/^\/" is always taken
    for the pattern of a path: the walker decodes it with
    [parseExpressPath] and appends a separator and the decoded text to
    the base path, or throws where [parseExpressPath] throws.  The name
    " RegExp(...) " is never given to such a pattern. *)
Theorem anchored_patterns_are_decoded rest path keys basePath w :
  test regExpToParseExpressPathRegExp (js "/^\/" ++ rest) = true
  /\ newBasePathOf (Some (js "/^\/" ++ rest)) path keys basePath w
     = match parseExpressPath (js "/^\/" ++ rest) keys w with
       | (Returns parsedPath, w') => (Returns (basePath ++ js "/" ++ parsedPath), w')
       | (Throws, w') => (Throws, w')
       end.
Proof.
  split; [apply escaped_start_is_recognised|].
  unfold newBasePathOf.
  change (regexpText (Some (js "/^\/" ++ rest))) with (js "/^\/" ++ rest).
  now rewrite escaped_start_is_recognised.
Qed.

(** X11.  A layer whose pattern is absent, or whose pattern text does not
    begin with "/^", is never decoded: the walker does not throw and
    leaves the state alone.  With a pattern and no [path] on the layer it
    appends "/ RegExp(" , the text of the pattern and ") " to the base
    path; otherwise the base path is handed on as it is. *)
Theorem other_patterns_are_quoted regexp path keys basePath w :
  (forall re, regexp = Some re -> ~ (js "/^" `prefix_of` re)) ->
  newBasePathOf regexp path keys basePath w
  = (Returns
       match regexp with
       | Some re =>
           if bool_decide (default [] path = [])
           then basePath ++ js "/" ++ js " RegExp(" ++ re ++ js ") "
           else basePath
       | None => basePath
       end,
     w).
Proof.
  intros H. unfold newBasePathOf.
  rewrite unanchored_is_not_recognised.
  - destruct regexp as [re|]; [|reflexivity].
    rewrite (bool_decide_eq_true_2 (re <> EXPRESS_ROOT_PATH_REGEXP_VALUE)).
    + rewrite andb_true_r. now case_bool_decide.
    + intros ->. apply (H _ eq_refl). now eexists.
  - destruct regexp as [re|]; [now apply H|].
    intros [k Hk]. discriminate Hk.
Qed.

(** ** Mount paths *)

Lemma substituteParams_surplus todo : forall done L st extra,
  Forall (fun c => c <> "("%char) done ->
  forallb plainSegment todo = true ->
  scanOk todo = true ->
  (forall g, fragmentOffset todo = Some g -> L <= 2 + length done + g) ->
  substituteParams (paramsOf todo ++ extra)
    (js "/^" ++ done ++ compiledBody todo ++ patternEnd) (World L st)
  = (Returns (js "/^" ++ done ++ substituted todo ++ patternEnd), World 0 st).
Proof.
  induction todo as [|seg todo IH]; intros done L st extra Hd Hp Hs HL.
  - unfold compiledBody, substituted. cbn [map concat paramsOf app].
    assert (H : hasParams (js "/^" ++ done ++ patternEnd) (World L st)
                = (Returns false, World 0 st)).
    { unfold hasParams. cbn [lastIndex store].
      rewrite (app_assoc (js "/^") done patternEnd).
      rewrite no_fragment_left; [reflexivity|].
      apply Forall_app. split; [repeat constructor; discriminate|exact Hd]. }
    destruct extra; cbn [substituteParams]; now rewrite (bind_returns _ _ _ _ _ H).
  - cbn [forallb] in Hp. apply andb_true_iff in Hp as [Hseg Hp].
    pose proof (plainSegment_no_paren seg Hseg) as Hnp.
    assert (Hd' : Forall (fun c => c <> "("%char) (done ++ js "\/" ++ segmentText seg))
      by (apply Forall_app; now split).
    rewrite substituted_cons.
    destruct seg as [text|enc name]; cbn [paramsOf segmentText] in *.
    + rewrite compiledBody_literal.
      apply IH; [exact Hd'|exact Hp|exact Hs|now apply literal_offset].
    + cbn [scanOk] in Hs. apply andb_true_iff in Hs as [Hgap Hs].
      cbn [app]. rewrite substituteParams_at_group by assumption.
      apply IH; [exact Hd'|exact Hp|exact Hs|now apply next_group_in_reach].
Qed.

Lemma parseExpressPath_surplus seg T extra L st :
  forallb plainSegment (seg :: T) = true ->
  scanOk (seg :: T) = true ->
  (forall g, fragmentOffset (seg :: T) = Some g -> L <= 2 + g) ->
  parseExpressPath (compile (seg :: T)) (paramsOf (seg :: T) ++ extra) (World L st)
  = (Returns (segmentText seg ++ templateText T), World 0 st).
Proof.
  intros HT Hs HL.
  unfold parseExpressPath, mbind at 1, M_bind.
  rewrite compile_shape.
  rewrite (substituteParams_surplus (seg :: T) [] L st);
    [|constructor|exact HT|exact Hs|exact HL].
  cbn [app].
  cbn [forallb] in HT. apply andb_true_iff in HT as [Hseg HT].
  destruct (exec_substituted seg T Hseg HT) as (m & Hm & Hg).
  match goal with
  | |- context [if ?b then ?e1 else ?e2] =>
      replace (if b then e1 else e2) with (Some m)
  end.
  - cbn [mbind option_bind]. rewrite Hg. unfold mret, M_ret.
    now rewrite unescape.
  - case_bool_decide as Hc; [now rewrite Hm|].
    now rewrite <- Hc, Hm.
Qed.

Lemma escapedStart_compile T :
  escapedStart T = true -> exists rest, compile T = js "/^\/" ++ rest.
Proof.
  destruct T as [|[text|[|] name] T]; try discriminate; intros _; unfold compile;
    cbn [map concat compileSegment]; rewrite <- !app_assoc; eexists; reflexivity.
Qed.

Lemma mount_newBasePath seg T extra path basePath L st :
  escapedStart (seg :: T) = true ->
  forallb plainSegment (seg :: T) = true ->
  scanOk (seg :: T) = true ->
  (forall g, fragmentOffset (seg :: T) = Some g -> L <= 2 + g) ->
  newBasePathOf (Some (compile (seg :: T))) path (paramsOf (seg :: T) ++ extra)
    basePath (World L st)
  = (Returns (basePath ++ templateText (seg :: T)), World 0 st).
Proof.
  intros He HT Hs HL. unfold newBasePathOf.
  change (regexpText (Some (compile (seg :: T)))) with (compile (seg :: T)).
  assert (Ht : test regExpToParseExpressPathRegExp (compile (seg :: T)) = true).
  { destruct (escapedStart_compile _ He) as [rest ->].
    apply escaped_start_is_recognised. }
  rewrite Ht.
  rewrite (bind_returns _ _ _ _ _ (parseExpressPath_surplus seg T extra L st HT Hs HL)).
  reflexivity.
Qed.

Lemma literal_is_plain T : forallb literalSegment T = true -> forallb plainSegment T = true.
Proof.
  induction T as [|[text|enc name] T IH]; cbn [forallb literalSegment plainSegment];
    [reflexivity| |discriminate].
  intros H. apply andb_true_iff in H as [-> H]. now apply IH.
Qed.

Lemma literal_has_no_group T :
  forallb literalSegment T = true ->
  scanOk T = true /\ fragmentOffset T = None /\ paramsOf T = [].
Proof.
  induction T as [|[text|enc name] T IH]; cbn [forallb literalSegment];
    [repeat split| |discriminate].
  intros H. apply andb_true_iff in H as [_ H]. destruct (IH H) as (Hs & Hf & Hp).
  cbn [scanOk fragmentOffset paramsOf]. rewrite Hf. repeat split; assumption.
Qed.

(** X12.  Let [T] be a template of plain segments whose parameters stand
    far enough apart for the search of [hasParams] ([scanOk]) and whose
    compiled pattern begins with an escaped separator.  With [lastIndex]
    at 0, a layer with a recognised name that carries the pattern
    compiled from [T] and the parameter names of [T], possibly followed
    by further keys, makes the walker enter its handle with the base path
    extended by the text of [T], and with [lastIndex] at 0 again. *)
Theorem mounted_router_extends_base_path T extra name path handle basePath
    endpoints options st :
  escapedStart T = true ->
  forallb plainSegment T = true ->
  scanOk T = true ->
  name ∈ STACK_ITEM_VALID_NAMES ->
  parseStackItem
    (MkLayer None name (Some (compile T)) path (paramsOf T ++ extra) handle)
    basePath endpoints options (World 0 st)
  = parseEndpoints handle (basePath ++ templateText T) endpoints options (World 0 st).
Proof.
  intros He HT Hs Hn. destruct T as [|seg T]; [discriminate|].
  cbn [parseStackItem].
  rewrite bool_decide_eq_true_2.
  2:{ destruct (Options.includeMiddlewareRoutes options); [|exact Hn].
      now apply elem_of_cons; right. }
  rewrite (bind_returns _ _ _ _ _
             (mount_newBasePath seg T extra path basePath 0 st He HT Hs
                ltac:(intros; lia))).
  reflexivity.
Qed.

Lemma static_mount_step T keys name path handle basePath endpoints
    options w :
  T <> [] ->
  forallb literalSegment T = true ->
  name ∈ STACK_ITEM_VALID_NAMES ->
  parseStackItem (MkLayer None name (Some (compile T)) path keys handle)
    basePath endpoints options w
  = parseEndpoints handle (basePath ++ templateText T) endpoints options
      (World 0 (store w)).
Proof.
  intros Hne HT Hn. destruct T as [|seg T]; [contradiction|].
  destruct (literal_has_no_group _ HT) as (Hs & Hf & Hp).
  assert (He : escapedStart (seg :: T) = true).
  { destruct seg; [reflexivity|discriminate HT]. }
  cbn [parseStackItem].
  rewrite bool_decide_eq_true_2.
  2:{ destruct (Options.includeMiddlewareRoutes options); [|exact Hn].
      now apply elem_of_cons; right. }
  pose proof (mount_newBasePath seg T keys path basePath (lastIndex w) (store w) He
                (literal_is_plain _ HT) Hs) as H.
  rewrite Hp, world_eta in H. cbn [app] in H.
  rewrite (bind_returns _ _ _ _ _ (H ltac:(intros g Hg; congruence))).
  reflexivity.
Qed.

(** X13.  A layer with a recognised name whose pattern is compiled from
    a template without parameters is decoded whatever [lastIndex] is and
    whatever keys the layer carries: the walker enters its handle with
    the base path extended by the text of the template, and with
    [lastIndex] at 0. *)
Theorem static_mount_resets_state T keys name path handle basePath endpoints
    options w :
  T <> [] ->
  forallb literalSegment T = true ->
  name ∈ STACK_ITEM_VALID_NAMES ->
  parseStackItem (MkLayer None name (Some (compile T)) path keys handle)
    basePath endpoints options w
  = parseEndpoints handle (basePath ++ templateText T) endpoints options
      (World 0 (store w)).
Proof. apply static_mount_step. Qed.

(** ** The paths of a route *)

Lemma path_param_needs_paren s : forall i,
  Forall (fun c => c <> "("%char) s ->
  search regexpExpressPathParamRegexp i s = None.
Proof.
  assert (Hat : forall j t, Forall (fun c => c <> "("%char) t ->
                            match_at regexpExpressPathParamRegexp j t = None).
  { intros j t0 Hs. unfold match_at, regexpExpressPathParamRegexp. cbn [cat foldr].
    rewrite run_seq, run_none; [reflexivity|].
    intros y [_ (l & Hl & _)]. cbn [remaining] in Hl.
    rewrite run_seq, run_char. unfold eat.
    destruct (remaining y) as [|c t]; [reflexivity|].
    rewrite Hl in Hs. apply Forall_app in Hs as [_ Hs]. apply Forall_cons in Hs as [Hc _].
    now rewrite bool_decide_eq_false_2. }
  induction s as [|c s IH]; intros i Hs; cbn [search]; rewrite Hat by exact Hs;
    [reflexivity|].
  apply IH. now apply Forall_cons in Hs as [_ Hs].
Qed.

Lemma path_param_skip pre : forall i t,
  Forall (fun c => c <> ":"%char) pre ->
  search regexpExpressPathParamRegexp i (pre ++ t)
  = search regexpExpressPathParamRegexp (i + length pre) t.
Proof.
  induction pre as [|c pre IH]; intros i t Hp; cbn [app length].
  - now rewrite Nat.add_0_r.
  - apply Forall_cons in Hp as [Hc Hp]. cbn [search].
    replace (match_at regexpExpressPathParamRegexp i (c :: pre ++ t)) with (@None match_result).
    + rewrite IH by exact Hp. f_equal. lia.
    + unfold match_at, regexpExpressPathParamRegexp. cbn [cat foldr].
      rewrite run_seq, run_group, run_seq, run_char, eat_at.
      now rewrite bool_decide_eq_false_2.
Qed.

Lemma eat_star_cons p k o n c t caps :
  eat_star p k o n (c :: t) caps
  = if p c then or_else (eat_star p k o (S n) t caps) (k (MState o n (c :: t) caps))
    else k (MState o n (c :: t) caps).
Proof. reflexivity. Qed.

Lemma or_else_None_r {A} (a : option A) : or_else a None = a.
Proof. now destruct a. Qed.

Section Blocked.
Variables (p : ascii -> bool) (k : mstate -> option mstate) (o : nat)
          (caps : list (nat * jsstring)).
Hypothesis k_paren :
  forall n h s, h <> "("%char -> k (MState o n (h :: s) caps) = None.

(** A continuation that asks for a parenthesis is not met inside [l]. *)
Lemma eat_star_through l : forall n rest,
  Forall (fun h => p h = true) l -> Forall (fun h => h <> "("%char) l ->
  eat_star p k o n (l ++ rest) caps = eat_star p k o (n + length l) rest caps.
Proof.
  induction l as [|h l IH]; intros n rest Hp Hl; cbn [app length].
  - now rewrite Nat.add_0_r.
  - apply Forall_cons in Hp as [Hph Hp]. apply Forall_cons in Hl as [Hh Hl].
    rewrite eat_star_cons, Hph, k_paren by exact Hh.
    rewrite or_else_None_r, IH by assumption. f_equal. lia.
Qed.

Lemma eat_star_blocked c t :
  p c = false -> c <> "("%char ->
  forall l n, Forall (fun h => h <> "("%char) l ->
  eat_star p k o n (l ++ c :: t) caps = None.
Proof.
  intros Hpc Hc. induction l as [|h l IH]; intros n Hl; cbn [app];
    rewrite eat_star_cons.
  - rewrite Hpc. now apply k_paren.
  - apply Forall_cons in Hl as [Hh Hl]. destruct (p h).
    + rewrite IH by exact Hl. cbn [or_else]. now apply k_paren.
    + now apply k_paren.
Qed.
End Blocked.

Lemma noParen_Forall s :
  noParen s = true ->
  Forall (fun c => c <> "("%char) s
  /\ Forall (fun c => class_matches true [CChar ")"] c = true) s.
Proof.
  unfold noParen. rewrite forallb_forall. intros H. split; apply Forall_forall; intros c Hc;
    apply list_elem_of_In, H, negb_true_iff, orb_false_iff in Hc as [H1 H2];
    apply bool_decide_eq_false in H1, H2; [exact H1|].
  unfold class_matches. cbn [existsb item_matches].
  now rewrite bool_decide_eq_false_2.
Qed.

Lemma run_not_paren_plus k o n c t caps :
  class_matches true [CChar ")"] c = true ->
  run not_paren_plus k (MState o n (c :: t) caps)
  = eat_star (class_matches true [CChar ")"]) k o (S n) t caps.
Proof.
  intros Hc. unfold not_paren_plus, Plus. rewrite run_seq.
  change (run (Class true [CChar ")"])) with (eat (class_matches true [CChar ")"])).
  now rewrite eat_at, Hc, run_star_class.
Qed.

Lemma matcherPart_paren o n h t caps :
  h <> "("%char -> run matcherPart Some (MState o n (h :: t) caps) = None.
Proof.
  intros Hh. unfold matcherPart. rewrite run_seq, run_char, eat_at.
  now rewrite bool_decide_eq_false_2.
Qed.

Lemma matcherPart_match o n d matcher post caps :
  class_matches true [CChar ")"] d = true ->
  Forall (fun c => class_matches true [CChar ")"] c = true) matcher ->
  run matcherPart Some (MState o n ("("%char :: d :: matcher ++ ")"%char :: post) caps)
  = Some (MState o (n + (length matcher + 3)) post caps).
Proof.
  intros Hd Hm. unfold matcherPart.
  rewrite run_seq, run_char, eat_at, bool_decide_eq_true_2 by reflexivity.
  rewrite run_seq, run_not_paren_plus by exact Hd.
  apply eat_star_app with (l := matcher); [exact Hm|].
  rewrite eat_star_cons.
  replace (class_matches true [CChar ")"] ")") with false by reflexivity.
  rewrite run_seq, run_char, eat_at, bool_decide_eq_true_2 by reflexivity.
  rewrite run_empty. do 2 f_equal. lia.
Qed.

Lemma custom_match p i post :
  customOk p = true ->
  match_at regexpExpressPathParamRegexp i
    (js ":" ++ Custom.name p ++ js "(" ++ Custom.matcher p ++ js ")" ++ post)
  = Some (MatchResult i
            (i + (length (Custom.name p) + length (Custom.matcher p) + 3))
            (js ":" ++ Custom.name p ++ js "(" ++ Custom.matcher p ++ js ")")
            [(1, js ":" ++ Custom.name p)]).
Proof.
  unfold customOk. intros H.
  apply andb_true_iff in H as [H Hm]. apply andb_true_iff in H as [H Hme].
  apply andb_true_iff in H as [H Hn]. apply andb_true_iff in H as [_ Hne].
  apply negb_true_iff, bool_decide_eq_false in Hne, Hme.
  destruct (noParen_Forall _ Hn) as [Hn1 Hn2], (noParen_Forall _ Hm) as [Hm1 Hm2].
  destruct (Custom.name p) as [|c name] eqn:En; [contradiction|].
  destruct (Custom.matcher p) as [|d matcher] eqn:Em; [contradiction|].
  apply Forall_cons in Hn1 as [Hc1 Hn1]. apply Forall_cons in Hn2 as [Hc2 Hn2].
  apply Forall_cons in Hm1 as [Hd1 Hm1]. apply Forall_cons in Hm2 as [Hd2 Hm2].
  cbn [js list_ascii_of_string app length].
  set (s := ":"%char :: c :: name ++ "("%char :: d :: matcher ++ ")"%char :: post).
  assert (Hrun : run regexpExpressPathParamRegexp Some (MState i 0 s [])
                 = Some (MState i (length name + length matcher + 5) post
                           [(1, ":"%char :: c :: name)])).
  { unfold regexpExpressPathParamRegexp. cbn [cat foldr]. fold matcherPart.
    rewrite run_seq, run_group, run_seq, run_char. unfold s at 2.
    rewrite eat_at, bool_decide_eq_true_2 by reflexivity.
    rewrite run_seq, run_not_paren_plus, run_empty by exact Hc2.
    rewrite eat_star_through; [|intros n h t Hh; now apply matcherPart_paren|exact Hn2|exact Hn1].
    rewrite eat_star_cons.
    replace (class_matches true [CChar ")"] "(") with true by reflexivity.
    change (d :: matcher ++ ")"%char :: post) with ((d :: matcher) ++ ")"%char :: post).
    rewrite eat_star_blocked;
      [|intros n h t Hh; now apply matcherPart_paren|reflexivity|discriminate|now constructor].
    cbn [or_else app]. unfold capture. cbn [origin consumed remaining captures].
    rewrite Nat.sub_0_r.
    replace (take (2 + length name) s) with (":"%char :: c :: name).
    2:{ unfold s. cbn [take Nat.add]. do 2 f_equal. now rewrite take_app_length. }
    rewrite matcherPart_match by assumption. do 2 f_equal. lia. }
  unfold match_at. rewrite Hrun. cbn [consumed captures].
  f_equal. f_equal; [lia|].
  unfold s.
  replace (length name + length matcher + 5)
    with (length (":"%char :: c :: name ++ "("%char :: d :: matcher ++ [")"%char]))
    by (cbn [length]; rewrite length_app; cbn [length]; rewrite length_app; cbn [length]; lia).
  replace (":"%char :: c :: name ++ "("%char :: d :: matcher ++ ")"%char :: post)
    with ((":"%char :: c :: name ++ "("%char :: d :: matcher ++ [")"%char]) ++ post).
  - now rewrite take_app_length.
  - cbn [app]. do 2 f_equal. rewrite <- app_assoc. cbn [app]. do 2 f_equal.
    now rewrite <- app_assoc.
Qed.

Lemma declared_step p ps rest :
  declaredPath (p :: ps, rest)
  = Custom.before p
    ++ (js ":" ++ Custom.name p ++ js "(" ++ Custom.matcher p ++ js ")" ++ declaredPath (ps, rest)).
Proof. unfold declaredPath. cbn [map concat fst snd]. now rewrite <- !app_assoc. Qed.

Lemma listed_step p ps rest :
  listedPath (p :: ps, rest)
  = Custom.before p ++ (js ":" ++ Custom.name p) ++ listedPath (ps, rest).
Proof. unfold listedPath. cbn [map concat fst snd]. now rewrite <- !app_assoc. Qed.

Lemma normalise_from ps rest : forall fuel i,
  declaredOk (ps, rest) = true ->
  length ps < fuel ->
  replace_from fuel regexpExpressPathParamRegexp (dollar 1) i (declaredPath (ps, rest))
  = listedPath (ps, rest).
Proof.
  unfold declaredOk. cbn [fst snd].
  induction ps as [|p ps IH]; intros fuel i Hok Hf;
    (destruct fuel as [|fuel]; [inversion Hf|]);
    apply andb_true_iff in Hok as [Hps Hrest]; cbn [replace_from].
  - unfold declaredPath, listedPath. cbn [map concat fst snd app].
    rewrite path_param_needs_paren; [reflexivity|].
    apply Forall_forall. intros c Hc. rewrite forallb_forall in Hrest.
    apply list_elem_of_In, Hrest, negb_true_iff in Hc. now apply bool_decide_eq_false in Hc.
  - cbn [forallb] in Hps. apply andb_true_iff in Hps as [Hp Hps].
    assert (Hb : Forall (fun c => c <> ":"%char) (Custom.before p)).
    { unfold customOk in Hp. do 4 apply andb_true_iff in Hp as [Hp _].
      apply Forall_forall. intros c Hc. rewrite forallb_forall in Hp.
      apply list_elem_of_In, Hp, negb_true_iff in Hc. now apply bool_decide_eq_false in Hc. }
    rewrite declared_step, listed_step.
    rewrite path_param_skip by exact Hb.
    rewrite (search_match_at _ _ _ _ (custom_match p (i + length (Custom.before p)) _ Hp)).
    cbn [index end_index].
    rewrite bool_decide_eq_false_2 by lia.
    replace (i + length (Custom.before p) - i) with (length (Custom.before p)) by lia.
    rewrite take_app_length. f_equal.
    unfold dollar, group. cbn [groups binding]. rewrite bool_decide_eq_true_2 by reflexivity.
    cbn [default]. f_equal.
    replace (i + length (Custom.before p)
             + (length (Custom.name p) + length (Custom.matcher p) + 3) - i)
      with (length (Custom.before p)
            + length (js ":" ++ Custom.name p ++ js "(" ++ Custom.matcher p ++ js ")")).
    2:{ rewrite !length_app. cbn [js list_ascii_of_string length]. lia. }
    rewrite drop_app_add.
    replace (js ":" ++ Custom.name p ++ js "(" ++ Custom.matcher p ++ js ")"
               ++ declaredPath (ps, rest))
      with ((js ":" ++ Custom.name p ++ js "(" ++ Custom.matcher p ++ js ")")
              ++ declaredPath (ps, rest))
      by (now rewrite <- !app_assoc).
    rewrite drop_app_length.
    cbn [length] in Hf. apply IH; [|lia]. now rewrite Hps, Hrest.
Qed.

Lemma declared_length ps rest : length ps <= length (declaredPath (ps, rest)).
Proof.
  induction ps as [|p ps IH]; [cbn; lia|].
  rewrite declared_step, !length_app. cbn [js list_ascii_of_string length]. lia.
Qed.

Lemma normalise d :
  declaredOk d = true ->
  replace_all regexpExpressPathParamRegexp (dollar 1) (declaredPath d) = listedPath d.
Proof.
  destruct d as [ps rest]. intros H. unfold replace_all.
  apply normalise_from; [exact H|]. pose proof (declared_length ps rest). lia.
Qed.

(** X14.  [parseExpressRoute] creates one endpoint for each path of the
    route, in order, all with the methods and the middlewares of the
    route.  A complete path without an opening parenthesis is listed as
    it is: the base path followed by the declared path, or the base path
    alone when the declared path is "/" and the base path is not empty. *)
Theorem plain_paths_are_kept route basePath w :
  Forall (fun p => "("%char ∉ completePath basePath p) (routePaths route) ->
  exists endpoints w',
    parseExpressRoute route basePath w = (Returns endpoints, w')
    /\ view w' endpoints
       = map (fun p => Endpoint.Make (completePath basePath p) (getRouteMethods route)
                         (getRouteMiddlewares route)) (routePaths route).
Proof.
  intros Hpaths. rewrite parseExpressRoute_allocates.
  eexists _, _. split; [reflexivity|].
  rewrite <- (length_map (endpointOf route basePath)), view_fresh.
  apply map_ext_in. intros p Hp. unfold endpointOf. f_equal.
  unfold replace_all. cbn [replace_from].
  rewrite path_param_needs_paren; [reflexivity|].
  rewrite Forall_forall in Hpaths. apply list_elem_of_In, Hpaths in Hp.
  apply Forall_forall. intros c Hc ->. contradiction.
Qed.

(** X15.  [parseExpressRoute] removes the matcher of every placeholder
    that has one.  When each complete path of a route, the base path
    followed by the declared path, consists of placeholders with a
    matcher in parentheses, each after some text without a colon, and of
    a rest without an opening parenthesis, the endpoints are listed under
    these paths without the matchers, ":id(\d+)" becoming ":id". *)
Theorem custom_matchers_are_dropped route basePath ds w :
  map (completePath basePath) (routePaths route) = map declaredPath ds ->
  forallb declaredOk ds = true ->
  exists endpoints w',
    parseExpressRoute route basePath w = (Returns endpoints, w')
    /\ view w' endpoints
       = map (fun d => Endpoint.Make (listedPath d) (getRouteMethods route)
                         (getRouteMiddlewares route)) ds.
Proof.
  intros Hpaths Hok. rewrite parseExpressRoute_allocates.
  eexists _, _. split; [reflexivity|].
  rewrite <- (length_map (endpointOf route basePath)), view_fresh.
  unfold endpointOf.
  rewrite <- (map_map (completePath basePath)
                (fun c => Endpoint.Make
                            (replace_all regexpExpressPathParamRegexp (dollar 1) c)
                            (getRouteMethods route) (getRouteMiddlewares route))).
  rewrite Hpaths, map_map. apply map_ext_in. intros d Hd.
  rewrite forallb_forall in Hok. now rewrite normalise by now apply Hok.
Qed.

(** ** Where a match ends *)

Lemma eat_reaches p k x v :
  eat p k x = Some v ->
  exists c t, remaining x = c :: t /\ k (advance x t) = Some v.
Proof.
  unfold eat. destruct (remaining x) as [|c t]; [discriminate|].
  destruct (p c); [|discriminate]. eauto.
Qed.

(** What the matcher returns, its continuation returned on a state
    further on in the same attempt. *)
Lemma run_reaches r : forall k x v,
  run r k x = Some v -> exists y, reaches x y /\ k y = Some v.
Proof.
  induction r as [| c | | negated items | | r1 IH1 r2 IH2 | r1 IH1 r2 IH2
                  | r IH | r IH | n r IH]; intros k x v H; cbn [run] in H.
  - exists x. split; [apply reaches_refl|exact H].
  - apply eat_reaches in H as (a & t & E & H). exists (advance x t).
    split; [now apply (reaches_advance x a t)|exact H].
  - apply eat_reaches in H as (a & t & E & H). exists (advance x t).
    split; [now apply (reaches_advance x a t)|exact H].
  - apply eat_reaches in H as (a & t & E & H). exists (advance x t).
    split; [now apply (reaches_advance x a t)|exact H].
  - destruct (bool_decide _); [|discriminate]. exists x. split; [apply reaches_refl|exact H].
  - apply IH1 in H as (y & Hy & H). apply IH2 in H as (z & Hz & H).
    exists z. split; [eapply reaches_trans; eassumption|exact H].
  - destruct (run r1 k x) as [v1|] eqn:E1; simpl in H.
    + injection H as <-. now apply IH1 in E1.
    + now apply IH2 in H.
  - revert H. generalize (length (remaining x)) as fuel. intros fuel. revert x.
    induction fuel as [|fuel IHf]; intros x H; cbn [iterate] in H.
    + exists x. split; [apply reaches_refl|exact H].
    + match type of H with or_else ?a _ = _ => destruct a as [v1|] eqn:E1 end; simpl in H.
      * injection H as <-. apply IH in E1 as (y & Hy & E1).
        destruct (bool_decide _); [|discriminate].
        apply IHf in E1 as (z & Hz & E1). exists z.
        split; [eapply reaches_trans; eassumption|exact E1].
      * exists x. split; [apply reaches_refl|exact H].
  - match type of H with or_else ?a _ = _ => destruct a as [v1|] eqn:E1 end; simpl in H.
    + injection H as <-. apply IH in E1 as (y & Hy & E1).
      destruct (bool_decide _); [|discriminate]. eauto.
    + exists x. split; [apply reaches_refl|exact H].
  - apply IH in H as (y & Hy & H). exists (capture n x y).
    split; [now apply reaches_capture|exact H].
Qed.

(** A match is a stretch of the subject. *)
Lemma match_at_slice r i s m :
  match_at r i s = Some m ->
  index m = i /\ end_index m = i + length (matched m)
  /\ exists rest, s = matched m ++ rest.
Proof.
  unfold match_at. destruct (run r Some (MState i 0 s [])) as [y|] eqn:E; [|discriminate].
  intros H. injection H as <-. cbn [index end_index matched].
  apply run_reaches in E as (z & [_ (l & Hl & Hc)] & Hz). injection Hz as ->.
  cbn [remaining consumed] in Hl, Hc. subst s. rewrite Hc. cbn [Nat.add].
  rewrite take_app_length. eauto.
Qed.

Lemma search_slice r : forall s i m,
  search r i s = Some m ->
  exists skipped rest,
    s = skipped ++ matched m ++ rest
    /\ index m = i + length skipped
    /\ end_index m = index m + length (matched m).
Proof.
  induction s as [|c s IH]; intros i m H; cbn [search] in H;
    destruct (match_at r i _) as [m'|] eqn:E.
  - injection H as ->. apply match_at_slice in E as (Hi & He & rest & Hs).
    exists [], rest. cbn [app length]. split; [exact Hs|]. split; lia.
  - discriminate.
  - injection H as ->. apply match_at_slice in E as (Hi & He & rest & Hs).
    exists [], rest. cbn [app length]. split; [exact Hs|]. split; lia.
  - apply IH in H as (skipped & rest & Hs & Hi & He).
    exists (c :: skipped), rest. cbn [app length]. split; [now rewrite Hs|]. split; lia.
Qed.

Lemma param_match_not_empty i s m :
  match_at regexpExpressParamRegexp i s = Some m -> matched m <> [].
Proof.
  unfold match_at, regexpExpressParamRegexp. cbn [cat foldr].
  destruct (run _ Some (MState i 0 s [])) as [y|] eqn:E; [|discriminate].
  intros H. injection H as <-. cbn [matched].
  rewrite run_seq, run_char in E. apply eat_reaches in E as (c & t & Hs & E).
  apply run_reaches in E as (z & [_ (l & Hl & Hc)] & Hz). injection Hz as ->.
  cbn [remaining consumed advance] in Hs, Hc. subst s. rewrite Hc. discriminate.
Qed.

Lemma param_search_not_empty : forall s i m,
  search regexpExpressParamRegexp i s = Some m -> matched m <> [].
Proof.
  induction s as [|c s IH]; intros i m H; cbn [search] in H;
    destruct (match_at regexpExpressParamRegexp i _) as [m'|] eqn:E;
    try discriminate; try (injection H as ->; now apply param_match_not_empty in E).
  now apply IH in H.
Qed.

(** X16.  [hasParams] always returns and leaves the store alone.  When it
    reports a capture group, [lastIndex] has moved forward and is still
    within the text; when it reports none, [lastIndex] is back at 0.  A
    [lastIndex] beyond the end of the text gives the second case. *)
Theorem hasParams_moves_forward s w :
  exists found w',
    hasParams s w = (Returns found, w')
    /\ store w' = store w
    /\ (if found then lastIndex w < lastIndex w' <= length s else lastIndex w' = 0)
    /\ (length s < lastIndex w -> found = false).
Proof.
  unfold hasParams, test_global. case_bool_decide as HL.
  - exists false, (World 0 (store w)). repeat split.
  - destruct (search regexpExpressParamRegexp (lastIndex w) (drop (lastIndex w) s))
      as [m|] eqn:E.
    + exists true, (World (end_index m) (store w)). split; [reflexivity|].
      split; [reflexivity|]. split; [|intros; lia]. cbn [lastIndex].
      pose proof (param_search_not_empty _ _ _ E) as Hne.
      apply search_slice in E as (skipped & rest & Hs & Hi & He).
      assert (Hlen : length (drop (lastIndex w) s)
                     = length skipped + (length (matched m) + length rest))
        by (now rewrite Hs, !length_app).
      rewrite length_drop in Hlen.
      destruct (matched m); [contradiction|]. cbn [length] in *. lia.
    + exists false, (World 0 (store w)). repeat split.
Qed.

(** ** The decoder does not read the store *)

Lemma hasParams_state s i s1 s2 :
  hasParams s (World i s2) = restore s2 (hasParams s (World i s1)).
Proof. unfold hasParams, restore. cbn [lastIndex store]. now destruct (test_global _ _ _). Qed.

Lemma substituteParams_state params : forall s i s1 s2,
  substituteParams params s (World i s2)
  = restore s2 (substituteParams params s (World i s1)).
Proof.
  induction params as [|p params IH]; intros s i s1 s2; cbn [substituteParams];
    unfold mbind, M_bind; rewrite (hasParams_state s i s1 s2);
    pose proof (hasParams_store s (World i s1)) as Hs;
    destruct (hasParams s (World i s1)) as [[[|]|] [j st]]; cbn [restore fst snd lastIndex];
    cbn [store snd] in Hs; subst st; try reflexivity.
  apply IH.
Qed.

Lemma parseExpressPath_state re params i s1 s2 :
  parseExpressPath re params (World i s2)
  = restore s2 (parseExpressPath re params (World i s1)).
Proof.
  unfold parseExpressPath, mbind at 1 3, M_bind.
  rewrite (substituteParams_state params re i s1 s2).
  destruct (substituteParams params re (World i s1)) as [[parsed|] [j st]];
    cbn [restore fst snd lastIndex]; [|reflexivity].
  match goal with |- context [match ?o with _ => _ end] => now destruct o end.
Qed.

Lemma newBasePathOf_state regexp path keys basePath i s1 s2 :
  newBasePathOf regexp path keys basePath (World i s2)
  = restore s2 (newBasePathOf regexp path keys basePath (World i s1)).
Proof.
  unfold newBasePathOf. destruct (test _ _).
  - unfold mbind, M_bind. rewrite (parseExpressPath_state _ keys i s1 s2).
    now destruct (parseExpressPath (regexpText regexp) keys (World i s1)) as [[parsed|] [j st]].
  - destruct regexp as [regexp|]; [destruct (_ && _)|]; reflexivity.
Qed.

(** ** Merging objects and merging values *)

Lemma mergeInto_new w acc e :
  find (fun r => bool_decide (Endpoint.path (store w !!! r) = Endpoint.path e)) acc = None ->
  mergeInto (view w acc) e = view w acc ++ [e].
Proof.
  induction acc as [|a acc IH]; intros H; cbn [find view map mergeInto app] in *;
    [reflexivity|].
  destruct (bool_decide _); [discriminate|]. f_equal. now apply IH.
Qed.

Lemma mergeInto_existing w acc e ex :
  NoDup acc -> valid w acc ->
  find (fun r => bool_decide (Endpoint.path (store w !!! r) = Endpoint.path e)) acc = Some ex ->
  view (World (lastIndex w) (<[ex := merged (store w !!! ex) e]> (store w))) acc
  = mergeInto (view w acc) e.
Proof.
  induction acc as [|a acc IH]; intros Hnd Hv H; [discriminate|].
  apply NoDup_cons in Hnd as [Ha Hnd]. apply Forall_cons in Hv as [Hal Hv].
  cbn [find view map mergeInto store] in *.
  case_bool_decide as Hp.
  - injection H as <-. f_equal.
    + now apply list_lookup_total_insert_eq.
    + apply map_ext_in. intros r Hr. apply list_lookup_total_insert_ne.
      intros <-. apply Ha. now apply list_elem_of_In.
  - f_equal.
    + apply list_lookup_total_insert_ne. intros ->.
      apply findByPath_Some in H as [_ H]. contradiction.
    + now apply IH.
Qed.

Lemma addEndpoint_refines acc r w :
  valid w acc -> NoDup acc -> r < length (store w) -> r ∉ acc ->
  exists acc' w',
    addEndpoint acc r w = (Returns acc', w')
    /\ view w' acc' = mergeInto (view w acc) (store w !!! r)
    /\ valid w' acc' /\ NoDup acc'
    /\ (acc' = acc \/ acc' = acc ++ [r])
    /\ length (store w') = length (store w) /\ lastIndex w' = lastIndex w
    /\ (forall r', r' ∉ acc -> store w' !!! r' = store w !!! r').
Proof.
  intros Hv Hnd Hr Hn.
  destruct (addEndpoint_cases acc r w) as [[Hf E] | [ex [Hf E]]]; rewrite E;
    eexists _, _; (split; [reflexivity|]).
  - split; [rewrite mergeInto_new by exact Hf; unfold view; now rewrite map_app|].
    split; [apply Forall_app; split; [exact Hv|now apply Forall_singleton]|].
    split; [|auto].
    apply NoDup_app. split; [exact Hnd|]. split; [|apply NoDup_singleton].
    intros x Hx Hx'. apply list_elem_of_singleton in Hx'. now subst.
  - split; [now apply mergeInto_existing|].
    split; [unfold valid; cbn [store]; now rewrite length_insert|].
    split; [exact Hnd|]. split; [now left|].
    cbn [store lastIndex]. rewrite length_insert. split; [reflexivity|].
    split; [reflexivity|].
    intros r' Hr'. apply list_lookup_total_insert_ne. intros <-.
    apply findByPath_Some in Hf as [Hin _]. contradiction.
Qed.

Lemma addEndpoints_refines news : forall acc w,
  valid w acc -> NoDup acc -> valid w news -> NoDup news ->
  Forall (fun r => r ∉ acc) news ->
  exists acc' w',
    addEndpoints acc news w = (Returns acc', w')
    /\ view w' acc' = foldl mergeInto (view w acc) (view w news)
    /\ valid w' acc' /\ NoDup acc'
    /\ lastIndex w' = lastIndex w.
Proof.
  unfold addEndpoints.
  induction news as [|r news IH]; intros acc w Hv Hnd Hvn Hndn Hfresh.
  - exists acc, w. repeat split; assumption.
  - apply Forall_cons in Hvn as [Hr Hvn]. apply NoDup_cons in Hndn as [Hrn Hndn].
    apply Forall_cons in Hfresh as [Hra Hfresh].
    destruct (addEndpoint_refines acc r w Hv Hnd Hr Hra)
      as (acc1 & w1 & E1 & Hview & Hv1 & Hnd1 & Hacc & Hlen & Hi & Hframe).
    destruct (IH acc1 w1) as (acc' & w' & E & Hview' & Hv' & Hnd' & Hi'); try assumption.
    + unfold valid. rewrite Hlen. exact Hvn.
    + apply Forall_forall. intros x Hx.
      rewrite Forall_forall in Hfresh.
      destruct Hacc as [-> | ->]; [now apply Hfresh|].
      intros Hin. apply elem_of_app in Hin as [Hin|Hin]; [now apply (Hfresh x)|].
      apply list_elem_of_singleton in Hin. now subst.
    + exists acc', w'. cbn [forEach]. rewrite (bind_returns _ _ _ _ _ E1).
      split; [exact E|]. split; [|repeat split; try assumption; congruence].
      rewrite Hview', Hview. cbn [view map foldl]. f_equal.
      apply map_ext_in. intros x Hx. apply Hframe.
      rewrite Forall_forall in Hfresh. apply Hfresh. now apply list_elem_of_In.
Qed.

Lemma alloc_merge_refines acc w es :
  valid w acc -> NoDup acc ->
  exists acc' w',
    addEndpoints acc (seq (length (store w)) (length es))
      (World (lastIndex w) (store w ++ es)) = (Returns acc', w')
    /\ view w' acc' = foldl mergeInto (view w acc) es
    /\ valid w' acc' /\ NoDup acc'
    /\ lastIndex w' = lastIndex w.
Proof.
  intros Hv Hnd.
  destruct (addEndpoints_refines (seq (length (store w)) (length es)) acc
              (World (lastIndex w) (store w ++ es)))
    as (acc' & w' & E & Hview & Hv' & Hnd' & Hi).
  - now apply valid_alloc.
  - exact Hnd.
  - apply valid_fresh.
  - apply NoDup_ListNoDup, List.seq_NoDup.
  - apply Forall_forall. intros r Hr Hin. apply list_elem_of_In, in_seq in Hr.
    unfold valid in Hv. rewrite Forall_forall in Hv. apply Hv in Hin. lia.
  - exists acc', w'. split; [exact E|]. split; [|auto].
    now rewrite Hview, view_alloc, view_fresh.
Qed.

(** ** The traversal on objects and the traversal on values *)

Lemma parseStack_refines stack basePath options :
  Forall (fun l => forall basePath acc options w st,
            valid w acc -> NoDup acc ->
            refines (parseStackItem l basePath acc options w)
              (listFromLayer l basePath (view w acc) options (World (lastIndex w) st))
              st) stack ->
  forall acc w st,
    valid w acc -> NoDup acc ->
    refines (parseStack stack basePath acc options w)
      (forEach (fun endpoints stackItem =>
                  listFromLayer stackItem basePath endpoints options)
         stack (view w acc) (World (lastIndex w) st))
      st.
Proof.
  unfold parseStack. induction 1 as [|l stack Hl Hs IH]; intros acc w st Hv Hnd.
  - cbn [forEach]. unfold refines, mret, M_ret. auto.
  - cbn [forEach]. unfold mbind, M_bind.
    specialize (Hl basePath acc options w st Hv Hnd). unfold refines in Hl.
    destruct (parseStackItem l basePath acc options w) as [[acc1|] w1].
    + destruct Hl as (-> & Hv1 & Hnd1). now apply IH.
    + rewrite Hl. reflexivity.
Qed.

Lemma walk_refines : forall app basePath acc options w st,
  valid w acc -> NoDup acc ->
  refines (parseEndpoints app basePath acc options w)
    (listFrom app basePath (view w acc) options (World (lastIndex w) st)) st.
Proof.
  apply (App_tree_ind
           (fun app => forall basePath acc options w st,
              valid w acc -> NoDup acc ->
              refines (parseEndpoints app basePath acc options w)
                (listFrom app basePath (view w acc) options (World (lastIndex w) st)) st)
           (fun l => forall basePath acc options w st,
              valid w acc -> NoDup acc ->
              refines (parseStackItem l basePath acc options w)
                (listFromLayer l basePath (view w acc) options (World (lastIndex w) st))
                st)).
  - intros stack _router Hstack Hrouter basePath acc options w st Hv Hnd.
    assert (Hno : refines
                    ((if bool_decide (acc <> []) then
                        placeholder ← alloc (Endpoint.Make basePath [] []);
                        addEndpoints acc [placeholder]
                      else mret acc) w)
                    ((mret (if bool_decide (view w acc <> [])
                            then mergeInto (view w acc) (Endpoint.Make basePath [] [])
                            else view w acc) : M (list Endpoint))
                       (World (lastIndex w) st)) st).
    { rewrite (bool_decide_ext (view w acc <> []) (acc <> [])).
      2:{ unfold view. split; intros H1 H2; apply H1; [now subst|].
          now apply map_eq_nil in H2. }
      case_bool_decide.
      - unfold mbind, M_bind, alloc. cbn [fst snd].
        destruct (alloc_merge_refines acc w [Endpoint.Make basePath [] []] Hv Hnd)
          as (acc' & w' & E & Hview & Hv' & Hnd' & Hi).
        cbn [length seq] in E. rewrite E. unfold refines, mret, M_ret.
        rewrite Hview, Hi. auto.
      - unfold refines, mret, M_ret. auto. }
    destruct stack as [s|]; [|destruct _router as [[s|]|]];
      cbn [parseEndpoints listFrom]; try exact Hno.
    + apply parseStack_refines; [now apply Hstack|assumption|assumption].
    + apply parseStack_refines; [now apply Hrouter|assumption|assumption].
  - intros route name regexp path keys handle IH basePath acc options w st Hv Hnd.
    cbn [parseStackItem listFromLayer]. destruct route as [route|].
    + rewrite (bind_returns _ _ _ _ _ (parseExpressRoute_allocates route basePath w)).
      destruct (alloc_merge_refines acc w
                  (map (endpointOf route basePath) (routePaths route)) Hv Hnd)
        as (acc' & w' & E & Hview & Hv' & Hnd' & Hi).
      rewrite length_map in E. rewrite E. unfold refines, mret, M_ret.
      rewrite Hview, Hi. auto.
    + case_bool_decide; [|unfold refines, mret, M_ret; auto].
      unfold mbind, M_bind.
      rewrite (newBasePathOf_state regexp path keys basePath (lastIndex w) (store w) st).
      rewrite world_eta.
      pose proof (newBasePathOf_store regexp path keys basePath w) as Hs.
      destruct (newBasePathOf regexp path keys basePath w) as [[p|] w1];
        cbn [restore fst snd]; [|reflexivity].
      cbn [snd] in Hs.
      specialize (IH p acc options w1 st).
      replace (view w1 acc) with (view w acc) in IH.
      * apply IH; unfold valid; rewrite ?Hs; assumption.
      * unfold view. now rewrite Hs.
Qed.

(** X17.  The traversal on endpoint objects computes what the traversal
    on endpoint values computes: when [expressListEndpoints] returns,
    the endpoints it returns, read in the state it leaves, are the list
    the value traversal returns, and when it throws so does the value
    traversal; [lastIndex] ends the same in both.  The value traversal
    may run with any store, so the outcome of a listing depends on the
    tree, the options and [lastIndex] alone, not on the endpoint objects
    that exist. *)
Theorem listing_on_values app options w st :
  match expressListEndpoints app options w with
  | (Returns endpoints, w') =>
      listValues app options (World (lastIndex w) st)
      = (Returns (view w' endpoints), World (lastIndex w') st)
  | (Throws, w') =>
      listValues app options (World (lastIndex w) st)
      = (Throws, World (lastIndex w') st)
  end.
Proof.
  unfold expressListEndpoints, listValues.
  pose proof (walk_refines app [] [] (default DEFAULT_OPTIONS options) w st
                ltac:(constructor) ltac:(constructor)) as H.
  unfold refines in H. cbn [view map] in H.
  destruct (parseEndpoints app [] [] (default DEFAULT_OPTIONS options) w) as [[acc|] w'];
    [apply H|exact H].
Qed.

(** X18.  When a listing returns in a state whose [lastIndex] is 0, the
    listing of the same tree with the same options returns in every
    state whose [lastIndex] is 0, with endpoints that read the same, in
    the same order, and leaves [lastIndex] at 0.  In particular the
    listing can be repeated in the state it left. *)
Theorem listing_is_repeatable app options w endpoints w' :
  lastIndex w = 0 ->
  expressListEndpoints app options w = (Returns endpoints, w') ->
  lastIndex w' = 0
  /\ forall w0,
       lastIndex w0 = 0 ->
       exists endpoints0 w0',
         expressListEndpoints app options w0 = (Returns endpoints0, w0')
         /\ view w0' endpoints0 = view w' endpoints
         /\ lastIndex w0' = 0.
Proof.
  intros H0 E. unfold expressListEndpoints in *.
  assert (H0' : lastIndex w' = 0).
  { destruct (walk_settles _ _ _ _ _ _ _ E) as [H|H]; congruence. }
  split; [exact H0'|]. intros w0 Hw0.
  pose proof (walk_refines app [] [] (default DEFAULT_OPTIONS options) w []
                ltac:(constructor) ltac:(constructor)) as H.
  pose proof (walk_refines app [] [] (default DEFAULT_OPTIONS options) w0 []
                ltac:(constructor) ltac:(constructor)) as H'.
  rewrite E in H. unfold refines in H, H'. cbn [view map] in H, H'.
  destruct H as (H & _ & _).
  rewrite H0 in H. rewrite Hw0, H in H'.
  destruct (parseEndpoints app [] [] (default DEFAULT_OPTIONS options) w0) as [[acc|] w0'].
  - destruct H' as (H' & _ & _). injection H' as Hview Hi.
    exists acc, w0'. split; [reflexivity|]. split; congruence.
  - discriminate H'.
Qed.

(** ** Routes with distinct paths *)

Lemma mergeInto_fresh acc e :
  Endpoint.path e ∉ map Endpoint.path acc -> mergeInto acc e = acc ++ [e].
Proof.
  induction acc as [|a acc IH]; intros H; cbn [mergeInto map app] in *; [reflexivity|].
  apply not_elem_of_cons in H as [Ha H].
  rewrite bool_decide_eq_false_2 by congruence. f_equal. now apply IH.
Qed.

Lemma foldl_mergeInto_fresh es : forall acc,
  NoDup (map Endpoint.path (acc ++ es)) -> foldl mergeInto acc es = acc ++ es.
Proof.
  induction es as [|e es IH]; intros acc H; cbn [foldl]; [now rewrite app_nil_r|].
  replace (acc ++ e :: es) with ((acc ++ [e]) ++ es) in * by now rewrite <- app_assoc.
  rewrite mergeInto_fresh.
  - now apply IH.
  - rewrite map_app in H. apply NoDup_app in H as [H _].
    rewrite map_app in H. apply NoDup_app in H as (_ & H & _).
    intros Hin. apply (H _ Hin). cbn [map]. apply list_elem_of_here.
Qed.

Lemma endpointOf_plain route basePath p :
  "("%char ∉ completePath basePath p ->
  endpointOf route basePath p
  = Endpoint.Make (completePath basePath p) (getRouteMethods route)
      (getRouteMiddlewares route).
Proof.
  intros H. unfold endpointOf. f_equal. unfold replace_all. cbn [replace_from].
  rewrite path_param_needs_paren; [reflexivity|].
  apply Forall_forall. intros c Hc ->. contradiction.
Qed.

Lemma flat_values stack basePath options : forall acc w,
  forallb hasRoute stack = true ->
  Forall (fun p => "("%char ∉ p)
         (map Endpoint.path (endpointsUnder basePath (flat_map routesOfLayer stack))) ->
  NoDup (map Endpoint.path
           (acc ++ endpointsUnder basePath (flat_map routesOfLayer stack))) ->
  forEach (fun endpoints stackItem => listFromLayer stackItem basePath endpoints options)
    stack acc w
  = (Returns (acc ++ endpointsUnder basePath (flat_map routesOfLayer stack)), w).
Proof.
  induction stack as [|[[route|] name regexp path keys handle] stack IH];
    intros acc w Hr Hp Hnd; cbn [forallb hasRoute andb] in Hr; try discriminate.
  - cbn [flat_map endpointsUnder forEach]. now rewrite app_nil_r.
  - cbn [flat_map routesOfLayer app] in *. unfold endpointsUnder in *.
    cbn [flat_map] in *. rewrite map_app in Hp. apply Forall_app in Hp as [Hp1 Hp2].
    cbn [forEach listFromLayer]. unfold mbind, M_bind, mret, M_ret.
    replace (map (endpointOf route basePath) (routePaths route))
      with (map (fun p => Endpoint.Make (completePath basePath p) (getRouteMethods route)
                            (getRouteMiddlewares route)) (routePaths route)).
    2:{ apply map_ext_in. intros p Hin. symmetry. apply endpointOf_plain.
        rewrite Forall_forall in Hp1. apply Hp1.
        rewrite map_map. cbn [Endpoint.path].
        apply list_elem_of_fmap. exists p. split; [reflexivity|now apply list_elem_of_In]. }
    rewrite app_assoc in Hnd |- *.
    rewrite foldl_mergeInto_fresh.
    + now apply IH.
    + rewrite map_app in Hnd. now apply NoDup_app in Hnd as [Hnd _].
Qed.

Lemma flat_walk stack _router basePath options w :
  forallb hasRoute stack = true ->
  Forall (fun p => "("%char ∉ p)
         (map Endpoint.path (endpointsUnder basePath (flat_map routesOfLayer stack))) ->
  NoDup (map Endpoint.path (endpointsUnder basePath (flat_map routesOfLayer stack))) ->
  exists endpoints w',
    parseEndpoints (MkApp (Some stack) _router) basePath [] options w
    = (Returns endpoints, w')
    /\ view w' endpoints = endpointsUnder basePath (flat_map routesOfLayer stack)
    /\ lastIndex w' = lastIndex w.
Proof.
  intros Hr Hp Hnd.
  pose proof (walk_refines (MkApp (Some stack) _router) basePath [] options w []
                ltac:(constructor) ltac:(constructor)) as H.
  cbn [listFrom view map] in H.
  rewrite (flat_values stack basePath options [] _ Hr Hp Hnd) in H.
  unfold refines in H.
  destruct (parseEndpoints (MkApp (Some stack) _router) basePath [] options w)
    as [[acc|] w']; [|discriminate H].
  destruct H as (H & _ & _). injection H as Hview Hi.
  exists acc, w'. split; [reflexivity|]. split; congruence.
Qed.

Lemma endpointsUnder_paths basePath routes :
  map Endpoint.path (endpointsUnder basePath routes)
  = map (completePath basePath) (flat_map routePaths routes).
Proof.
  unfold endpointsUnder. induction routes as [|route routes IH]; [reflexivity|].
  cbn [flat_map]. rewrite !map_app, IH. f_equal. now rewrite map_map.
Qed.

Lemma completePath_root p : completePath [] p = p.
Proof. reflexivity. Qed.

Lemma templateText_no_paren T :
  forallb literalSegment T = true -> "("%char ∉ templateText T.
Proof.
  intros HT. apply literal_is_plain in HT. unfold templateText.
  induction T as [|seg T IH]; cbn [map concat]; [apply not_elem_of_nil|].
  cbn [forallb] in HT. apply andb_true_iff in HT as [Hseg HT].
  intros Hin. apply elem_of_app in Hin as [Hin|Hin]; [|now apply IH].
  pose proof (plainSegment_no_paren seg Hseg) as Hnp.
  cbn [js list_ascii_of_string app] in Hin, Hnp.
  apply Forall_cons in Hnp as [_ Hnp].
  rewrite Forall_forall in Hnp. now apply (Hnp _ Hin).
Qed.

Lemma completePath_no_paren basePath p :
  "("%char ∉ basePath -> "("%char ∉ p -> "("%char ∉ completePath basePath p.
Proof.
  intros Hb Hp. unfold completePath. destruct (_ && _); [exact Hb|].
  intros Hin. apply elem_of_app in Hin as [Hin|Hin]; contradiction.
Qed.

(** X19.  An application whose stack holds only routes, with declared
    paths that are pairwise distinct and hold no opening parenthesis, is
    listed route by route in the order of the stack and, for a route
    with several paths, path by path: each endpoint has the declared
    path, the methods and the middlewares of its route.  The listing
    neither throws nor moves [lastIndex]. *)
Theorem routes_are_listed_in_order stack _router options w :
  forallb hasRoute stack = true ->
  NoDup (flat_map routePaths (flat_map routesOfLayer stack)) ->
  Forall (fun p => "("%char ∉ p) (flat_map routePaths (flat_map routesOfLayer stack)) ->
  exists endpoints w',
    expressListEndpoints (MkApp (Some stack) _router) options w
    = (Returns endpoints, w')
    /\ view w' endpoints
       = flat_map
           (fun route =>
              map (fun p => Endpoint.Make p (getRouteMethods route)
                              (getRouteMiddlewares route))
                  (routePaths route))
           (flat_map routesOfLayer stack)
    /\ lastIndex w' = lastIndex w.
Proof.
  intros Hr Hnd Hp. unfold expressListEndpoints.
  apply (flat_walk stack _router [] (default DEFAULT_OPTIONS options) w Hr);
    rewrite endpointsUnder_paths, (map_ext _ id completePath_root), map_id; assumption.
Qed.

(** X20.  A router whose stack holds only routes, mounted by a layer
    with a recognised name under a template without parameters, is
    listed route by route and path by path under the text of the
    template followed by the declared path, or under the text of the
    template alone for the declared path "/", provided these complete
    paths are pairwise distinct and the declared paths hold no opening
    parenthesis; this whatever [lastIndex] is and whatever keys the layer
    carries.  The listing leaves [lastIndex] at 0. *)
Theorem mounted_routes_are_listed T name path keys stack _router _router'
    options w :
  T <> [] ->
  forallb literalSegment T = true ->
  name ∈ STACK_ITEM_VALID_NAMES ->
  forallb hasRoute stack = true ->
  NoDup (map (completePath (templateText T))
           (flat_map routePaths (flat_map routesOfLayer stack))) ->
  Forall (fun p => "("%char ∉ p) (flat_map routePaths (flat_map routesOfLayer stack)) ->
  exists endpoints w',
    expressListEndpoints
      (MkApp (Some [MkLayer None name (Some (compile T)) path keys
                      (MkApp (Some stack) _router)]) _router')
      options w
    = (Returns endpoints, w')
    /\ view w' endpoints
       = endpointsUnder (templateText T) (flat_map routesOfLayer stack)
    /\ lastIndex w' = 0.
Proof.
  intros Hne HT Hn Hr Hnd Hp. unfold expressListEndpoints.
  cbn [parseEndpoints forEach].
  destruct (flat_walk stack _router (templateText T) (default DEFAULT_OPTIONS options)
              (World 0 (store w)) Hr) as (endpoints & w' & E & Hview & Hi).
  - rewrite endpointsUnder_paths. apply Forall_forall. intros c Hc.
    apply list_elem_of_fmap in Hc as [p [-> Hin]].
    apply completePath_no_paren; [now apply templateText_no_paren|].
    rewrite Forall_forall in Hp. now apply Hp.
  - now rewrite endpointsUnder_paths.
  - exists endpoints, w'.
    unfold mbind, M_bind.
    rewrite (static_mount_step T keys name path (MkApp (Some stack) _router) []
               [] (default DEFAULT_OPTIONS options) w Hne HT Hn).
    cbn [app]. rewrite E. auto.
Qed.

(** ** The theorems at work on the samples *)

Lemma listed_paths_are_distinct_witness :
  expressListEndpoints Samples.healthApp None initial
  = (Returns [0; 2], World 0 Samples.healthStore)
  /\ NoDup (map Endpoint.path (view (World 0 Samples.healthStore) [0; 2])).
Proof.
  assert (E : expressListEndpoints Samples.healthApp None initial
              = (Returns [0; 2], World 0 Samples.healthStore))
    by (vm_compute; reflexivity).
  split; [exact E|].
  exact (proj1 (listed_paths_are_distinct Samples.healthApp None initial [0; 2]
                  (World 0 Samples.healthStore) E)).
Defined.

Lemma merge_is_idempotent_witness :
  valid (World 0 Samples.healthStore) [0; 1; 2; 1]
  /\ exists acc w1,
       addEndpoints [] [0; 1; 2; 1] (World 0 Samples.healthStore) = (Returns acc, w1)
       /\ addEndpoints acc [0; 1; 2; 1] w1 = (Returns acc, w1).
Proof.
  assert (H : valid (World 0 Samples.healthStore) [0; 1; 2; 1])
    by (repeat constructor).
  split; [exact H|].
  exact (merge_is_idempotent (World 0 Samples.healthStore) [0; 1; 2; 1] H).
Defined.


Lemma no_stack_merges_placeholder_witness :
  stackOf (MkApp None None) = None
  /\ valid (World 0 Samples.healthStore) [0; 2]
  /\ exists endpoints' w',
       parseEndpoints (MkApp None None) (js "/admin") [0; 2] DEFAULT_OPTIONS
         (World 0 Samples.healthStore) = (Returns endpoints', w')
       /\ view w' endpoints'
          = view (World 0 Samples.healthStore) [0; 2]
            ++ [Endpoint.Make (js "/admin") [] []].
Proof.
  assert (H : valid (World 0 Samples.healthStore) [0; 2]) by (repeat constructor).
  split; [reflexivity|]. split; [exact H|].
  exact (proj2 (no_stack_merges_placeholder (MkApp None None) (js "/admin") [0; 2]
                  DEFAULT_OPTIONS (World 0 Samples.healthStore) eq_refl H)
               ltac:(discriminate)).
Defined.


Lemma decode_restores_template_witness :
  Samples.userPosts <> []
  /\ forallb plainSegment Samples.userPosts = true
  /\ scanOk Samples.userPosts = true
  /\ exists decoded,
       parseExpressPath (compile Samples.userPosts) (paramsOf Samples.userPosts)
         (World 0 [])
       = (Returns decoded, World 0 [])
       /\ js "/" ++ decoded = templateText Samples.userPosts.
Proof.
  split; [discriminate|]. split; [reflexivity|]. split; [reflexivity|].
  exact (decode_restores_template Samples.userPosts []
           ltac:(discriminate) eq_refl eq_refl).
Defined.

Lemma traversal_only_appends_witness :
  parseEndpoints Samples.fooRouter (js "/api") [0; 2] DEFAULT_OPTIONS
    (World 0 Samples.healthStore)
  = (Returns [0; 2; 3], World 0 (Samples.healthStore ++ [Cases.apiFoo]))
  /\ exists added, [0; 2; 3] = [0; 2] ++ added /\ Forall (fun r => 3 <= r < 4) added.
Proof.
  assert (E : parseEndpoints Samples.fooRouter (js "/api") [0; 2] DEFAULT_OPTIONS
                (World 0 Samples.healthStore)
              = (Returns [0; 2; 3], World 0 (Samples.healthStore ++ [Cases.apiFoo])))
    by (vm_compute; reflexivity).
  split; [exact E|].
  exact (proj1 (proj2 (traversal_only_appends Samples.fooRouter (js "/api") [0; 2]
                         DEFAULT_OPTIONS (World 0 Samples.healthStore) [0; 2; 3]
                         (World 0 (Samples.healthStore ++ [Cases.apiFoo])) E))).
Defined.

Lemma listing_is_fresh_witness :
  expressListEndpoints Samples.healthApp None (World 0 Samples.healthStore)
  = (Returns [3; 5], World 0 (Samples.healthStore ++ Samples.healthStore))
  /\ Forall (fun r => 3 <= r < 6) [3; 5]
  /\ forall r, r < 3 ->
       (Samples.healthStore ++ Samples.healthStore) !!! r = Samples.healthStore !!! r.
Proof.
  assert (E : expressListEndpoints Samples.healthApp None (World 0 Samples.healthStore)
              = (Returns [3; 5], World 0 (Samples.healthStore ++ Samples.healthStore)))
    by (vm_compute; reflexivity).
  split; [exact E|].
  exact (listing_is_fresh Samples.healthApp None (World 0 Samples.healthStore) [3; 5]
           (World 0 (Samples.healthStore ++ Samples.healthStore)) E).
Defined.

Lemma listing_resets_lastIndex_witness :
  expressListEndpoints Samples.healthApp None (World 30 [])
  = (Returns [0; 2],
     World 0 (take 2 Samples.healthStore
                ++ [Endpoint.Make (js "/users/foo") [js "GET"] [js "handler"]]))
  /\ (0 = 0 \/ 0 = 30).
Proof.
  assert (E : expressListEndpoints Samples.healthApp None (World 30 [])
              = (Returns [0; 2],
                 World 0 (take 2 Samples.healthStore
                            ++ [Endpoint.Make (js "/users/foo") [js "GET"] [js "handler"]])))
    by (vm_compute; reflexivity).
  split; [exact E|].
  exact (proj1 (listing_resets_lastIndex Samples.healthApp None (World 30 []) [0; 2]
                  (World 0 (take 2 Samples.healthStore
                              ++ [Endpoint.Make (js "/users/foo") [js "GET"] [js "handler"]]))
                  E)).
Defined.

Lemma listing_without_patterns_returns_witness :
  decodesNothing Samples.bareMount = true
  /\ exists endpoints w',
       expressListEndpoints Samples.bareMount None (World 24 Samples.healthStore)
       = (Returns endpoints, w')
       /\ lastIndex w' = 24.
Proof.
  split; [reflexivity|].
  exact (listing_without_patterns_returns Samples.bareMount None
           (World 24 Samples.healthStore) eq_refl).
Defined.

Lemma other_patterns_are_quoted_witness :
  ~ (js "/^" `prefix_of` js "/\/v\d+/")
  /\ newBasePathOf (Some (js "/\/v\d+/")) None [] (js "/api") initial
     = (Returns (js "/api/ RegExp(/\/v\d+/) "), initial).
Proof.
  assert (H : forall re, Some (js "/\/v\d+/") = Some re -> ~ (js "/^" `prefix_of` re)).
  { intros re E. injection E as <-. intros [k Hk]. discriminate Hk. }
  split; [exact (H _ eq_refl)|].
  exact (other_patterns_are_quoted (Some (js "/\/v\d+/")) None [] (js "/api") initial H).
Defined.

Lemma mounted_router_extends_base_path_witness :
  escapedStart Samples.userPosts = true
  /\ forallb plainSegment Samples.userPosts = true
  /\ scanOk Samples.userPosts = true
  /\ js "router" ∈ STACK_ITEM_VALID_NAMES
  /\ parseStackItem
       (MkLayer None (js "router") (Some (compile Samples.userPosts)) None
          (paramsOf Samples.userPosts ++ []) Samples.fooRouter)
       (js "/api") [] DEFAULT_OPTIONS initial
     = parseEndpoints Samples.fooRouter
         (js "/api" ++ templateText Samples.userPosts) [] DEFAULT_OPTIONS initial.
Proof.
  assert (Hn : js "router" ∈ STACK_ITEM_VALID_NAMES) by apply list_elem_of_here.
  split; [reflexivity|]. split; [reflexivity|]. split; [reflexivity|].
  split; [exact Hn|].
  exact (mounted_router_extends_base_path Samples.userPosts [] (js "router") None
           Samples.fooRouter (js "/api") [] DEFAULT_OPTIONS [] eq_refl eq_refl eq_refl Hn).
Defined.

Lemma static_mount_resets_state_witness :
  Cases.apiV1 <> []
  /\ forallb literalSegment Cases.apiV1 = true
  /\ js "mounted_app" ∈ STACK_ITEM_VALID_NAMES
  /\ parseStackItem
       (MkLayer None (js "mounted_app") (Some (compile Cases.apiV1)) None
          [js "id"] Samples.fooRouter)
       [] [] DEFAULT_OPTIONS (World 24 [])
     = parseEndpoints Samples.fooRouter ([] ++ templateText Cases.apiV1) []
         DEFAULT_OPTIONS (World 0 []).
Proof.
  assert (Hne : Cases.apiV1 <> []) by discriminate.
  assert (Hn : js "mounted_app" ∈ STACK_ITEM_VALID_NAMES)
    by (do 2 apply list_elem_of_further; apply list_elem_of_here).
  split; [exact Hne|]. split; [reflexivity|]. split; [exact Hn|].
  exact (static_mount_resets_state Cases.apiV1 [js "id"] (js "mounted_app") None
           Samples.fooRouter [] [] DEFAULT_OPTIONS (World 24 []) Hne eq_refl Hn).
Defined.

Lemma plain_paths_are_kept_witness :
  Forall (fun p => "("%char ∉ completePath (js "/api") p) (routePaths Samples.allOnly)
  /\ exists endpoints w',
       parseExpressRoute Samples.allOnly (js "/api") initial = (Returns endpoints, w')
       /\ view w' endpoints
          = [ Endpoint.Make (js "/api/a") [] [js "anonymous"];
              Endpoint.Make (js "/api/b") [] [js "anonymous"] ].
Proof.
  assert (H : Forall (fun p => "("%char ∉ completePath (js "/api") p)
                     (routePaths Samples.allOnly))
    by (apply (bool_decide_unpack _); vm_compute; exact I).
  split; [exact H|].
  exact (plain_paths_are_kept Samples.allOnly (js "/api") initial H).
Defined.

Lemma custom_matchers_are_dropped_witness :
  map (completePath (js "/posts")) (routePaths Cases.commentsRoute)
  = map declaredPath [Cases.commentsPath]
  /\ forallb declaredOk [Cases.commentsPath] = true
  /\ exists endpoints w',
       parseExpressRoute Cases.commentsRoute (js "/posts") initial
       = (Returns endpoints, w')
       /\ view w' endpoints
          = [ Endpoint.Make (js "/posts/:id/comments/:cid") [js "GET"] [js "show"] ].
Proof.
  split; [reflexivity|]. split; [reflexivity|].
  exact (custom_matchers_are_dropped Cases.commentsRoute (js "/posts")
           [Cases.commentsPath] initial eq_refl eq_refl).
Defined.

Lemma listing_is_repeatable_witness :
  expressListEndpoints Samples.healthApp None initial
  = (Returns [0; 2], World 0 Samples.healthStore)
  /\ exists endpoints0 w0',
       expressListEndpoints Samples.healthApp None (World 0 Samples.healthStore)
       = (Returns endpoints0, w0')
       /\ view w0' endpoints0 = view (World 0 Samples.healthStore) [0; 2]
       /\ lastIndex w0' = 0.
Proof.
  assert (E : expressListEndpoints Samples.healthApp None initial
              = (Returns [0; 2], World 0 Samples.healthStore))
    by (vm_compute; reflexivity).
  split; [exact E|].
  exact (proj2 (listing_is_repeatable Samples.healthApp None initial [0; 2]
                  (World 0 Samples.healthStore) eq_refl E)
           (World 0 Samples.healthStore) eq_refl).
Defined.

Lemma routes_are_listed_in_order_witness :
  forallb hasRoute Cases.flatStack = true
  /\ NoDup (flat_map routePaths (flat_map routesOfLayer Cases.flatStack))
  /\ Forall (fun p => "("%char ∉ p)
       (flat_map routePaths (flat_map routesOfLayer Cases.flatStack))
  /\ exists endpoints w',
       expressListEndpoints (MkApp (Some Cases.flatStack) None) None initial
       = (Returns endpoints, w')
       /\ view w' endpoints
          = [ Endpoint.Make (js "/foo") [js "GET"] [js "handler"];
              Endpoint.Make (js "/health") [js "GET"] [js "check"] ]
       /\ lastIndex w' = 0.
Proof.
  assert (Hnd : NoDup (flat_map routePaths (flat_map routesOfLayer Cases.flatStack)))
    by (apply (bool_decide_unpack _); vm_compute; exact I).
  assert (Hp : Forall (fun p => "("%char ∉ p)
                 (flat_map routePaths (flat_map routesOfLayer Cases.flatStack)))
    by (apply (bool_decide_unpack _); vm_compute; exact I).
  split; [reflexivity|]. split; [exact Hnd|]. split; [exact Hp|].
  exact (routes_are_listed_in_order Cases.flatStack None None initial eq_refl Hnd Hp).
Defined.

Lemma mounted_routes_are_listed_witness :
  Cases.apiV1 <> []
  /\ forallb literalSegment Cases.apiV1 = true
  /\ js "router" ∈ STACK_ITEM_VALID_NAMES
  /\ forallb hasRoute Cases.flatStack = true
  /\ NoDup (map (completePath (templateText Cases.apiV1))
              (flat_map routePaths (flat_map routesOfLayer Cases.flatStack)))
  /\ Forall (fun p => "("%char ∉ p)
       (flat_map routePaths (flat_map routesOfLayer Cases.flatStack))
  /\ exists endpoints w',
       expressListEndpoints
         (MkApp (Some [MkLayer None (js "router") (Some (compile Cases.apiV1)) None []
                         (MkApp (Some Cases.flatStack) None)]) None)
         None (World 24 [])
       = (Returns endpoints, w')
       /\ view w' endpoints
          = [ Endpoint.Make (js "/api/v1/foo") [js "GET"] [js "handler"];
              Endpoint.Make (js "/api/v1/health") [js "GET"] [js "check"] ]
       /\ lastIndex w' = 0.
Proof.
  assert (Hne : Cases.apiV1 <> []) by discriminate.
  assert (Hn : js "router" ∈ STACK_ITEM_VALID_NAMES) by apply list_elem_of_here.
  assert (Hnd : NoDup (map (completePath (templateText Cases.apiV1))
                         (flat_map routePaths (flat_map routesOfLayer Cases.flatStack))))
    by (apply (bool_decide_unpack _); vm_compute; exact I).
  assert (Hp : Forall (fun p => "("%char ∉ p)
                 (flat_map routePaths (flat_map routesOfLayer Cases.flatStack)))
    by (apply (bool_decide_unpack _); vm_compute; exact I).
  split; [exact Hne|]. split; [reflexivity|]. split; [exact Hn|].
  split; [reflexivity|]. split; [exact Hnd|]. split; [exact Hp|].
  exact (mounted_routes_are_listed Cases.apiV1 (js "router") None []
           Cases.flatStack None None None (World 24 []) Hne eq_refl Hn eq_refl Hnd Hp).
Defined.
